(** * Badminton elimination: a shallow embedding of [badminton_elimination.py]

    The development follows the Python file top to bottom: Python values
    and exceptions, insertion-ordered dictionaries, the [Team] and
    [Division] classes, the [networkx] digraph the division stores in
    [self.G], the linear program handed to [picos], and finally the
    properties of the elimination query. *)

From Stdlib Require Import String Ascii.
From Stdlib Require Import ZArith QArith Qround Qabs List FinFun Bool Lia Lqa.
From Stdlib Require Import DecimalString DecimalZ.
Import ListNotations.
Local Open Scope Z_scope.

(** ** Python exceptions and results *)

Inductive exn : Type :=
| KeyError (k : Z)
| ValueError (msg : string)
| IndexError
| TypeError
| IOError
| NetworkXError
| SolverError (msg : string).

Inductive result (A : Type) : Type :=
| Ok (a : A)
| Raise (e : exn).
Arguments Ok {A} a.
Arguments Raise {A} e.

(** Values a caller may pass where the code expects an integer. *)
Inductive pyval : Type :=
| PyNone
| PyInt (z : Z).

(** [l[i]] on a Python list: negative indices count from the end. *)
Definition py_index {A : Type} (l : list A) (i : Z) : option A :=
  let n := Z.of_nat (List.length l) in
  if 0 <=? i then nth_error l (Z.to_nat i)
  else if - n <=? i then nth_error l (Z.to_nat (n + i))
  else None.

(** [a is b] for two integers of which [a] is a key object of
    [self.teams] and [b] an argument of the caller.  [is] compares
    objects, not values: an equal value is the same object when the
    caller passed the key object itself ([same_object]), and also for
    the integers from -5 to 256, of which CPython keeps one object
    each. *)
Definition small_int (z : Z) : bool := (-5 <=? z) && (z <=? 256).

Definition py_is (same_object : bool) (a b : Z) : bool :=
  (a =? b) && (same_object || small_int b).

(** [range(lo, hi)]. *)
Definition py_range (lo hi : Z) : list Z :=
  map (fun k => lo + Z.of_nat k) (seq 0 (Z.to_nat (hi - lo))).

(** [str(z)] for an integer. *)
Definition py_str (z : Z) : string := NilEmpty.string_of_int (Z.to_int z).

(** [round(q)]: to the nearest integer, ties to the even one. *)
Definition py_round (q : Q) : Z :=
  let fl := Qfloor q in
  match Qcompare (q - inject_Z fl) (1 # 2) with
  | Lt => fl
  | Gt => fl + 1
  | Eq => if Z.even fl then fl else fl + 1
  end.

(** ** Insertion-ordered dictionaries *)

Section Dict.
Context {K V : Type} (eqb : K -> K -> bool).

Fixpoint dict_get (d : list (K * V)) (k : K) : option V :=
  match d with
  | [] => None
  | (k', v) :: d' => if eqb k' k then Some v else dict_get d' k
  end.

(** [d[k] = v]: an existing key keeps its position. *)
Fixpoint dict_set (d : list (K * V)) (k : K) (v : V) : list (K * V) :=
  match d with
  | [] => [(k, v)]
  | (k', v') :: d' =>
      if eqb k' k then (k', v) :: d' else (k', v') :: dict_set d' k v
  end.

(** [del d[k]]; [None] stands for the [KeyError]. *)
Fixpoint dict_del (d : list (K * V)) (k : K) : option (list (K * V)) :=
  match d with
  | [] => None
  | (k', v) :: d' =>
      if eqb k' k then Some d'
      else match dict_del d' k with
           | Some r => Some ((k', v) :: r)
           | None => None
           end
  end.

Definition dict_keys (d : list (K * V)) : list K := map fst d.
Definition dict_values (d : list (K * V)) : list V := map snd d.
End Dict.

(** ** class Team *)

Record Team : Type := mkTeam {
  ID : Z;
  name : string;
  wins : Z;
  losses : Z;
  remaining : Z;
  against : list Z
}.

Definition no_team_msg : string := "Team does not exist in given input."%string.

(** [Team.get_against]: the bare [except] turns every failure of
    [self.against[other_team]] into a [ValueError].  [readDivision] stores
    the row of counts as a list, so the subscript is a list index. *)
Definition get_against (self : Team) (other_team : pyval) : result Z :=
  match other_team with
  | PyInt j =>
      match py_index (against self) j with
      | Some num_games => Ok num_games
      | None => Raise (ValueError no_team_msg)
      end
  | PyNone => Raise (ValueError no_team_msg)
  end.

(** ** The digraph kept in [self.G] *)

Inductive node : Type :=
| NStr (s : string)
| NInt (z : Z).

Definition node_eqb (a b : node) : bool :=
  match a, b with
  | NStr s, NStr t => String.eqb s t
  | NInt x, NInt y => Z.eqb x y
  | _, _ => false
  end.

Definition edge : Type := (node * node)%type.

Definition edge_eqb (a b : edge) : bool :=
  node_eqb (fst a) (fst b) && node_eqb (snd a) (snd b).

Definition Source : node := NStr "Source"%string.
Definition Sink : node := NStr "Sink"%string.

(** Nodes in insertion order; edges as a dictionary from [(u, v)] to the
    [capacity] attribute, the only attribute the program sets. *)
Record DiGraph : Type := mkDiGraph {
  nodes : list node;
  edges : list (edge * Z)
}.

Definition empty_graph : DiGraph := mkDiGraph [] [].

Definition add_node (n : node) (g : DiGraph) : DiGraph :=
  if existsb (node_eqb n) (nodes g) then g
  else mkDiGraph (nodes g ++ [n]) (edges g).

Definition add_edge (u v : node) (capacity : Z) (g : DiGraph) : DiGraph :=
  let g' := add_node v (add_node u g) in
  mkDiGraph (nodes g') (dict_set edge_eqb (edges g') (u, v) capacity).

(** The nodes with an edge into [i], and those [i] has an edge to. *)
Definition pred_of (g : DiGraph) (i : node) : list node :=
  map fst (filter (fun e => node_eqb (snd e) i) (dict_keys (edges g))).

Definition succ_of (g : DiGraph) (i : node) : list node :=
  map snd (filter (fun e => node_eqb (fst e) i) (dict_keys (edges g))).

(** [n in G]. *)
Definition has_node (g : DiGraph) (n : node) : bool :=
  existsb (node_eqb n) (nodes g).

(** [G.predecessors(n)] and [G.successors(n)]: for a node that is not
    in the graph [networkx] raises [NetworkXError]. *)
Definition predecessors (g : DiGraph) (n : node) : result (list node) :=
  if has_node g n then Ok (pred_of g n) else Raise NetworkXError.

Definition successors (g : DiGraph) (n : node) : result (list node) :=
  if has_node g n then Ok (succ_of g n) else Raise NetworkXError.

(** ** The linear program handed to picos *)

Inductive lpvar : Type :=
| VarF
| Varf (e : edge).

Inductive expr : Type :=
| EVar (v : lpvar)
| EConst (c : Z)
| ESum (terms : list lpvar).

Inductive constraint : Type :=
| Cle (a b : expr)
| Ceq (a b : expr)
| Cge (a b : expr).

Inductive direction : Type := Maximize | Minimize.

Record Problem : Type := mkProblem {
  variables : list lpvar;
  constraints : list constraint;
  objective : option (direction * expr)
}.

Definition empty_problem : Problem := mkProblem [] [] None.

Definition add_variable (v : lpvar) (p : Problem) : Problem :=
  mkProblem (variables p ++ [v]) (constraints p) (objective p).

Definition add_list_of_constraints (cs : list constraint) (p : Problem) : Problem :=
  mkProblem (variables p) (constraints p ++ cs) (objective p).

Definition add_constraint (c : constraint) (p : Problem) : Problem :=
  add_list_of_constraints [c] p.

Definition set_objective (d : direction) (e : expr) (p : Problem) : Problem :=
  mkProblem (variables p) (constraints p) (Some (d, e)).

Definition Qsum (l : list Q) : Q := fold_right Qplus 0%Q l.

Definition eval (x : lpvar -> Q) (e : expr) : Q :=
  match e with
  | EVar v => x v
  | EConst c => inject_Z c
  | ESum terms => Qsum (map x terms)
  end.

Definition sat (x : lpvar -> Q) (c : constraint) : Prop :=
  match c with
  | Cle a b => (eval x a <= eval x b)%Q
  | Ceq a b => (eval x a == eval x b)%Q
  | Cge a b => (eval x b <= eval x a)%Q
  end.

(** ** The program state: a store of dictionary objects and [self] *)

Record Division : Type := mkDivision {
  teams : nat;      (* reference to the dictionary object *)
  G : DiGraph
}.

Record world : Type := mkWorld {
  heap : list (list (Z * Team));
  self : Division
}.

Definition M (A : Type) : Type := world -> result A * world.

Definition ret {A : Type} (a : A) : M A := fun w => (Ok a, w).

Definition raise {A : Type} (e : exn) : M A := fun w => (Raise e, w).

Definition bind {A B : Type} (m : M A) (k : A -> M B) : M B :=
  fun w =>
    match m w with
    | (Ok a, w') => k a w'
    | (Raise e, w') => (Raise e, w')
    end.

Definition lift {A : Type} (r : result A) : M A := fun w => (r, w).

Declare Scope py_scope.
Delimit Scope py_scope with py.
Notation "x <- m ;; k" := (bind m (fun x => k))
  (at level 61, m at next level, right associativity) : py_scope.
Notation "m ;; k" := (bind m (fun _ => k))
  (at level 61, right associativity) : py_scope.
Local Open Scope py_scope.

(** [for x in l: body x]. *)
Fixpoint for_each {A : Type} (l : list A) (body : A -> M unit) : M unit :=
  match l with
  | [] => ret tt
  | x :: l' => body x ;; for_each l' body
  end.

(** A loop that also rebinds a local variable. *)
Fixpoint for_acc {A S : Type} (l : list A) (body : S -> A -> M S) (s : S) : M S :=
  match l with
  | [] => ret s
  | x :: l' => s' <- body s x ;; for_acc l' body s'
  end.

Definition deref (r : nat) (w : world) : list (Z * Team) := nth r (heap w) [].

Definition self_teams (w : world) : list (Z * Team) := deref (teams (self w)) w.

Definition read_dict (r : nat) : M (list (Z * Team)) :=
  fun w => (Ok (deref r w), w).

Fixpoint list_update {A : Type} (l : list A) (i : nat) (a : A) : list A :=
  match l, i with
  | [], _ => []
  | _ :: l', O => a :: l'
  | x :: l', S i' => x :: list_update l' i' a
  end.

Definition write_dict (r : nat) (d : list (Z * Team)) : M unit :=
  fun w => (Ok tt, mkWorld (list_update (heap w) r d) (self w)).

(** [dict(d)]: a new dictionary object with the same items. *)
Definition new_dict (d : list (Z * Team)) : M nat :=
  fun w => (Ok (List.length (heap w)), mkWorld (heap w ++ [d]) (self w)).

Definition get_teams_ref : M nat := fun w => (Ok (teams (self w)), w).

Definition set_teams_ref (r : nat) : M unit :=
  fun w => (Ok tt, mkWorld (heap w) (mkDivision r (G (self w)))).

Definition get_G : M DiGraph := fun w => (Ok (G (self w)), w).

Definition set_G (g : DiGraph) : M unit :=
  fun w => (Ok tt, mkWorld (heap w) (mkDivision (teams (self w)) g)).

Definition modify_G (f : DiGraph -> DiGraph) : M unit :=
  g <- get_G ;; set_G (f g).

(** [r[k]] on a dictionary object. *)
Definition dict_getitem (r : nat) (k : Z) : M Team :=
  d <- read_dict r ;;
  match dict_get Z.eqb d k with
  | Some t => ret t
  | None => raise (KeyError k)
  end.

(** [r[k] = t]. *)
Definition dict_setitem (r : nat) (k : Z) (t : Team) : M unit :=
  d <- read_dict r ;; write_dict r (dict_set Z.eqb d k t).

(** [del r[k]]. *)
Definition dict_delitem (r : nat) (k : Z) : M unit :=
  d <- read_dict r ;;
  match dict_del Z.eqb d k with
  | Some d' => write_dict r d'
  | None => raise (KeyError k)
  end.

(** [self.teams[k]]. *)
Definition teams_getitem (k : Z) : M Team :=
  r <- get_teams_ref ;; dict_getitem r k.

Fixpoint map_M {A B : Type} (f : A -> M B) (l : list A) : M (list B) :=
  match l with
  | [] => ret []
  | x :: l' => y <- f x ;; ys <- map_M f l' ;; ret (y :: ys)
  end.

(** [enumerate(l)]. *)
Definition enumerate {A : Type} (l : list A) : list (Z * A) :=
  combine (map Z.of_nat (seq 0 (List.length l))) l.

(** [l[i]] raising [IndexError]. *)
Definition list_getitem {A : Type} (l : list A) (i : Z) : M A :=
  match py_index l i with
  | Some a => ret a
  | None => raise IndexError
  end.

(** ** class Division *)

Section Program.

(** What the program takes from its environment: the file system
    ([open], [readlines] and [split] of every line), [int] on a token,
    [networkx]'s [maximum_flow] (its flow value; the flow dictionary is
    not used) and the [picos]/[cvxopt] solver, which leaves the values
    of the variables behind. *)
Variable read_lines : string -> result (list (list string)).
Variable py_int : string -> result Z.
Variable maximum_flow : DiGraph -> node -> node -> result Z.
Variable picos_solve : Problem -> result (lpvar -> Q).

Definition readDivision (filename : string) : M unit :=
  lines <- lift (read_lines filename) ;;
  let lines := tl lines in
  for_each (enumerate lines) (fun '(ID, teaminfo) =>
    t0 <- list_getitem teaminfo 0 ;;
    t1 <- list_getitem teaminfo 1 ;;
    w <- lift (py_int t1) ;;
    t2 <- list_getitem teaminfo 2 ;;
    l <- lift (py_int t2) ;;
    t3 <- list_getitem teaminfo 3 ;;
    r <- lift (py_int t3) ;;
    a <- map_M (fun s => lift (py_int s)) (skipn 4 teaminfo) ;;
    let team := mkTeam ID t0 w l r a in
    ts <- get_teams_ref ;;
    dict_setitem ts ID team).

(** [Division.__init__]. *)
Definition Division_init (filename : string) : M unit :=
  ts <- new_dict [] ;;
  set_teams_ref ts ;;
  set_G empty_graph ;;
  readDivision filename.

Definition get_team_IDs : M (list Z) :=
  ts <- get_teams_ref ;;
  d <- read_dict ts ;;
  ret (dict_keys d).

(** [team is not teamID] is a test on objects ([py_is]): [team] runs
    over the key objects of [self.teams], and [same_object] tells
    whether the caller passed such a key object as [teamID], as
    [__main__] does with [team.ID], or another integer object of the
    same value.  The second loop compares values ([==]). *)
Definition create_network (same_object : bool) (teamID : Z) : M (list (string * Z)) :=
  let saturated_edges : list (string * Z) := [] in
  set_G empty_graph ;;
  modify_G (add_node Source) ;;
  modify_G (add_node Sink) ;;
  teamIDs <- get_team_IDs ;;
  for_each teamIDs (fun team =>
    if negb (py_is same_object team teamID) then
      modify_G (add_node (NInt team)) ;;
      q <- teams_getitem teamID ;;
      q' <- teams_getitem teamID ;;
      t <- teams_getitem team ;;
      let capacity := wins q + remaining q' - wins t in
      modify_G (add_edge (NInt team) Sink capacity)
    else ret tt) ;;
  let n := Z.of_nat (List.length teamIDs) in
  for_acc (py_range 0 (n - 1)) (fun saturated_edges i =>
    for_acc (py_range (i + 1) n) (fun saturated_edges j =>
      if (i =? teamID) || (j =? teamID) then ret saturated_edges
      else
        ti <- list_getitem teamIDs i ;;
        tj <- list_getitem teamIDs j ;;
        let node_name := (py_str ti ++ "_" ++ py_str tj)%string in
        t <- teams_getitem i ;;
        matchup_games <- lift (get_against t (PyInt j)) ;;
        let saturated_edges :=
          dict_set String.eqb saturated_edges node_name matchup_games in
        modify_G (add_node (NStr node_name)) ;;
        modify_G (add_edge Source (NStr node_name) matchup_games) ;;
        modify_G (add_edge (NStr node_name) (NInt ti) matchup_games) ;;
        modify_G (add_edge (NStr node_name) (NInt tj) matchup_games) ;;
        ret saturated_edges)
      saturated_edges)
    saturated_edges.

(** The loop [for matchup in saturated_edges.keys(): comparing_value +=
    saturated_edges[matchup]]; the subscript of a key of the same
    dictionary cannot fail (lemma [dict_get_key] below). *)
Definition comparing_value (saturated_edges : list (string * Z)) : Z :=
  fold_left
    (fun acc matchup =>
       acc + match dict_get String.eqb saturated_edges matchup with
             | Some v => v
             | None => 0
             end)
    (dict_keys saturated_edges) 0.

Definition network_flows (saturated_edges : list (string * Z)) : M bool :=
  g <- get_G ;;
  max_flow <- lift (maximum_flow g Source Sink) ;;
  ret (comparing_value saturated_edges >? max_flow).

(** The problem [linear_programming] hands to the solver when both
    terminals are nodes of [self.G] (lemma [linear_programming_problem]
    below). *)
Definition flow_problem (g : DiGraph) : Problem :=
  let maxflow := empty_problem in
  let c := edges g in
  let maxflow :=
    fold_left (fun p e => add_variable (Varf e) p) (dict_keys (edges g)) maxflow in
  let maxflow := add_variable VarF maxflow in
  let maxflow :=
    add_list_of_constraints
      (map (fun '(e, cap) => Cle (EVar (Varf e)) (EConst cap)) c) maxflow in
  let maxflow :=
    add_list_of_constraints
      (map (fun i =>
              Ceq (ESum (map (fun p => Varf (p, i)) (pred_of g i)))
                  (ESum (map (fun j => Varf (i, j)) (succ_of g i))))
           (filter (fun i => negb (node_eqb i Source || node_eqb i Sink))
                   (nodes g)))
      maxflow in
  let maxflow :=
    add_constraint
      (Ceq (EVar VarF) (ESum (map (fun j => Varf (Source, j)) (succ_of g Source))))
      maxflow in
  let maxflow :=
    add_constraint
      (Ceq (ESum (map (fun p => Varf (p, Sink)) (pred_of g Sink))) (EVar VarF))
      maxflow in
  let maxflow :=
    add_list_of_constraints
      (map (fun e => Cge (EVar (Varf e)) (EConst 0)) (dict_keys (edges g))) maxflow in
  set_objective Maximize (EVar VarF) maxflow.

Definition linear_programming (saturated_edges : list (string * Z)) : M bool :=
  let maxflow := empty_problem in
  g <- get_G ;;
  let c := edges g in
  let maxflow :=
    fold_left (fun p e => add_variable (Varf e) p) (dict_keys (edges g)) maxflow in
  let maxflow := add_variable VarF maxflow in
  let maxflow :=
    add_list_of_constraints
      (map (fun '(e, cap) => Cle (EVar (Varf e)) (EConst cap)) c) maxflow in
  conservation <-
    map_M (fun i =>
             ps <- lift (predecessors g i) ;;
             ss <- lift (successors g i) ;;
             ret (Ceq (ESum (map (fun p => Varf (p, i)) ps))
                      (ESum (map (fun j => Varf (i, j)) ss))))
          (filter (fun i => negb (node_eqb i Source || node_eqb i Sink)) (nodes g)) ;;
  let maxflow := add_list_of_constraints conservation maxflow in
  out <- lift (successors g Source) ;;
  let maxflow :=
    add_constraint (Ceq (EVar VarF) (ESum (map (fun j => Varf (Source, j)) out)))
      maxflow in
  into <- lift (predecessors g Sink) ;;
  let maxflow :=
    add_constraint (Ceq (ESum (map (fun p => Varf (p, Sink)) into)) (EVar VarF))
      maxflow in
  let maxflow :=
    add_list_of_constraints
      (map (fun e => Cge (EVar (Varf e)) (EConst 0)) (dict_keys (edges g))) maxflow in
  let maxflow := set_objective Maximize (EVar VarF) maxflow in
  x <- lift (picos_solve maxflow) ;;
  ret (comparing_value saturated_edges >? py_round (x VarF)).

(** The loop of [is_eliminated] over [temp.items()]. *)
Definition precheck (team : Team) (items : list (Z * Team)) (flag1 : bool) : bool :=
  fold_left
    (fun flag1 '(_, other_team) =>
       if wins team + remaining team <? wins other_team then true else flag1)
    items flag1.

Definition is_eliminated (same_object : bool) (teamID : Z) (solver : string) : M bool :=
  let flag1 := false in
  team <- teams_getitem teamID ;;
  ts <- get_teams_ref ;;
  d <- read_dict ts ;;
  temp <- new_dict d ;;
  dict_delitem temp teamID ;;
  items <- read_dict temp ;;
  let flag1 := precheck team items flag1 in
  saturated_edges <- create_network same_object teamID ;;
  if negb flag1 then
    if String.eqb solver "Network Flows" then
      network_flows saturated_edges
    else if String.eqb solver "Linear Programming" then
      linear_programming saturated_edges
    else ret flag1
  else ret flag1.

Definition checkTeam (team : Team) : M unit :=
  ids <- get_team_IDs ;;
  if negb (existsb (Z.eqb (ID team)) ids) then raise (ValueError no_team_msg)
  else ret tt.

End Program.

(** * Properties *)

(** ** Dictionaries *)

Section DictFacts.
Context {K V : Type} (eqb : K -> K -> bool).
Hypothesis eqb_eq : forall a b, eqb a b = true <-> a = b.

Lemma eqb_refl' : forall a, eqb a a = true.
Proof. intro a. now apply eqb_eq. Qed.

Lemma eqb_neq : forall a b, eqb a b = false <-> a <> b.
Proof.
  intros a b. split; intro H.
  - intro E. apply eqb_eq in E. congruence.
  - destruct (eqb a b) eqn:E; [apply eqb_eq in E; contradiction | reflexivity].
Qed.

Lemma dict_get_set (d : list (K * V)) k v k' :
  dict_get eqb (dict_set eqb d k v) k' =
  if eqb k k' then Some v else dict_get eqb d k'.
Proof.
  induction d as [|[a b] d IH]; simpl.
  - reflexivity.
  - destruct (eqb a k) eqn:Eak; simpl.
    + apply eqb_eq in Eak; subst a.
      destruct (eqb k k'); reflexivity.
    + rewrite IH. destruct (eqb a k') eqn:Eak'; [|reflexivity].
      apply eqb_eq in Eak'; subst a.
      destruct (eqb k k') eqn:Ekk'; [|reflexivity].
      apply eqb_eq in Ekk'; subst k'. rewrite eqb_refl' in Eak. discriminate.
Qed.

Lemma dict_set_In (d : list (K * V)) k v x :
  In x (dict_set eqb d k v) -> In x d \/ x = (k, v).
Proof.
  induction d as [|[a b] d IH]; simpl.
  - intros [H|[]]; auto.
  - destruct (eqb a k) eqn:Eak; simpl.
    + apply eqb_eq in Eak; subst a. intros [H|H]; auto.
    + intros [H|H]; auto. destruct (IH H); auto.
Qed.

Lemma dict_set_Forall (P : K * V -> Prop) (d : list (K * V)) k v :
  Forall P d -> P (k, v) -> Forall P (dict_set eqb d k v).
Proof.
  intros Hd Hk. apply Forall_forall. intros x Hx.
  destruct (dict_set_In _ _ _ _ Hx) as [H| ->]; [|assumption].
  rewrite Forall_forall in Hd. now apply Hd.
Qed.

Lemma dict_set_keys_In (d : list (K * V)) k v k' :
  In k' (dict_keys (dict_set eqb d k v)) <-> k' = k \/ In k' (dict_keys d).
Proof.
  unfold dict_keys. induction d as [|[a b] d IH]; simpl.
  - intuition.
  - destruct (eqb a k) eqn:Eak; simpl.
    + apply eqb_eq in Eak; subst a. intuition.
    + rewrite IH. intuition.
Qed.

Lemma dict_set_NoDup (d : list (K * V)) k v :
  NoDup (dict_keys d) -> NoDup (dict_keys (dict_set eqb d k v)).
Proof.
  induction d as [|[a b] d IH]; simpl; intro H.
  - constructor; [intros []|constructor].
  - inversion H as [|? ? Hn Hd]; subst.
    destruct (eqb a k) eqn:Eak; simpl.
    + now constructor.
    + constructor; [|now apply IH].
      intro Hin. apply dict_set_keys_In in Hin. destruct Hin as [->|Hin].
      * rewrite eqb_refl' in Eak. discriminate.
      * contradiction.
Qed.

(** A key that is not there yet is appended. *)
Lemma dict_set_fresh (d : list (K * V)) k v :
  ~ In k (dict_keys d) -> dict_set eqb d k v = d ++ [(k, v)].
Proof.
  induction d as [|[a b] d IH]; simpl; intro H.
  - reflexivity.
  - destruct (eqb a k) eqn:Eak.
    + apply eqb_eq in Eak. subst. exfalso. apply H. now left.
    + rewrite IH; [reflexivity|]. intro Hin. apply H. now right.
Qed.

Lemma dict_get_In (d : list (K * V)) k v :
  dict_get eqb d k = Some v -> In (k, v) d.
Proof.
  induction d as [|[a b] d IH]; simpl; [discriminate|].
  destruct (eqb a k) eqn:Eak.
  - apply eqb_eq in Eak. subst. intros [= ->]. now left.
  - intro H. right. now apply IH.
Qed.

Lemma dict_get_key (d : list (K * V)) k :
  In k (dict_keys d) -> exists v, dict_get eqb d k = Some v.
Proof.
  induction d as [|[a b] d IH]; simpl; [intros []|].
  intros [->|H].
  - rewrite eqb_refl'. now exists b.
  - destruct (eqb a k); [now exists b | now apply IH].
Qed.

Lemma dict_get_None (d : list (K * V)) k :
  dict_get eqb d k = None -> ~ In k (dict_keys d).
Proof.
  intros H Hin. destruct (dict_get_key _ _ Hin) as [v Hv]. congruence.
Qed.

Lemma dict_get_NoDup (d : list (K * V)) k v :
  NoDup (dict_keys d) -> In (k, v) d -> dict_get eqb d k = Some v.
Proof.
  induction d as [|[a b] d IH]; simpl; [intros _ []|].
  intros Hnd [[= -> ->]|Hin].
  - now rewrite eqb_refl'.
  - inversion Hnd as [|? ? Hn Hd]; subst.
    destruct (eqb a k) eqn:Eak; [|now apply IH].
    apply eqb_eq in Eak. subst. exfalso. apply Hn.
    change k with (fst (k, v)). now apply in_map.
Qed.

(** Deleting a key leaves the items under every other key. *)
Lemma dict_del_In (d d' : list (K * V)) k k' v :
  dict_del eqb d k = Some d' -> k' <> k -> (In (k', v) d <-> In (k', v) d').
Proof.
  revert d'. induction d as [|[a b] d IH]; simpl; intros d' H Hne; [discriminate|].
  destruct (eqb a k) eqn:Eak.
  - apply eqb_eq in Eak. subst. injection H as <-.
    split; [intros [[= -> ->]|H]; [contradiction|assumption] | now right].
  - destruct (dict_del eqb d k) as [r|] eqn:Er; [|discriminate].
    injection H as <-. simpl. rewrite (IH r eq_refl Hne). reflexivity.
Qed.

Lemma dict_del_incl (d d' : list (K * V)) k x :
  dict_del eqb d k = Some d' -> In x d' -> In x d.
Proof.
  revert d'. induction d as [|[a b] d IH]; simpl; intros d' H Hin; [discriminate|].
  destruct (eqb a k) eqn:Eak.
  - injection H as <-. now right.
  - destruct (dict_del eqb d k) as [r|] eqn:Er; [|discriminate].
    injection H as <-. destruct Hin as [<-|Hin]; [now left|right; now apply (IH r)].
Qed.

Lemma dict_del_get (d : list (K * V)) k v :
  dict_get eqb d k = Some v -> exists d', dict_del eqb d k = Some d'.
Proof.
  induction d as [|[a b] d IH]; simpl; [discriminate|].
  destruct (eqb a k); [intros _; now exists d|].
  intro H. destruct (IH H) as [r ->]. now eexists.
Qed.

(** With distinct keys, the deleted key is gone. *)
Lemma dict_del_NoDup (d d' : list (K * V)) k v :
  NoDup (dict_keys d) -> dict_del eqb d k = Some d' -> ~ In (k, v) d'.
Proof.
  revert d'. induction d as [|[a b] d IH]; simpl; intros d' Hnd H; [discriminate|].
  inversion Hnd as [|? ? Hn Hd]; subst.
  destruct (eqb a k) eqn:Eak.
  - apply eqb_eq in Eak. subst. injection H as <-.
    intro Hin. apply Hn. change k with (fst (k, v)). now apply in_map.
  - destruct (dict_del eqb d k) as [r|] eqn:Er; [|discriminate].
    injection H as <-. intros [[= -> ->]|Hin].
    + rewrite eqb_refl' in Eak. discriminate.
    + now apply (IH r Hd eq_refl).
Qed.
End DictFacts.

Lemma node_eqb_eq (a b : node) : node_eqb a b = true <-> a = b.
Proof.
  destruct a as [s|x], b as [t|y]; simpl; try (split; [discriminate|congruence]).
  - rewrite String.eqb_eq. split; congruence.
  - rewrite Z.eqb_eq. split; congruence.
Qed.

Lemma edge_eqb_eq (a b : edge) : edge_eqb a b = true <-> a = b.
Proof.
  destruct a as [u v], b as [u' v']. unfold edge_eqb; simpl.
  rewrite andb_true_iff, !node_eqb_eq. split; [intros [-> ->]; reflexivity|].
  intros [= -> ->]. now split.
Qed.

Lemma node_eq_dec (a b : node) : {a = b} + {a <> b}.
Proof.
  destruct (node_eqb a b) eqn:E.
  - left. now apply node_eqb_eq.
  - right. intro H. apply node_eqb_eq in H. congruence.
Qed.

Lemma node_eqb_refl (a : node) : node_eqb a a = true.
Proof. now apply node_eqb_eq. Qed.

(** ** Reasoning about monadic code *)

(** [post m w Q E]: started in [w], [m] ends either normally in a world
    and with a value that satisfy [Q], or by raising in a world that
    satisfies [E]. *)
Definition post {A : Type} (m : M A) (w : world)
    (Q : A -> world -> Prop) (E : exn -> world -> Prop) : Prop :=
  match m w with
  | (Ok a, w') => Q a w'
  | (Raise e, w') => E e w'
  end.

Lemma post_run {A : Type} (m : M A) w Q E a w' :
  post m w Q E -> m w = (Ok a, w') -> Q a w'.
Proof. unfold post. intros H Hm. now rewrite Hm in H. Qed.

Lemma post_conseq {A : Type} (m : M A) w (Q Q' : A -> world -> Prop) (E E' : exn -> world -> Prop) :
  post m w Q E ->
  (forall a w', Q a w' -> Q' a w') -> (forall e w', E e w' -> E' e w') ->
  post m w Q' E'.
Proof. unfold post. destruct (m w) as [[a|e] w']; auto. Qed.

Lemma post_ret {A : Type} (a : A) w (Q : A -> world -> Prop) E : Q a w -> post (ret a) w Q E.
Proof. auto. Qed.

Lemma post_bind {A B : Type} (m : M A) (k : A -> M B) w Q E :
  post m w (fun a w' => post (k a) w' Q E) E -> post (bind m k) w Q E.
Proof. unfold post, bind. destruct (m w) as [[a|e] w']; auto. Qed.

Lemma post_for_each {A : Type} (I : list A -> world -> Prop) E (l : list A) body w :
  I [] w ->
  (forall done x rest w, l = done ++ x :: rest -> I done w ->
     post (body x) w (fun _ w' => I (done ++ [x]) w') E) ->
  post (for_each l body) w (fun _ w' => I l w') E.
Proof.
  intros H0 Hstep.
  assert (Hgen : forall rest done w, l = done ++ rest -> I done w ->
            post (for_each rest body) w (fun _ w' => I l w') E).
  { induction rest as [|x rest IH]; intros done w1 Hl Hd; simpl.
    - rewrite app_nil_r in Hl. subst. now apply post_ret.
    - apply post_bind. eapply post_conseq; [apply (Hstep done x rest w1 Hl Hd)| |auto].
      intros u w2 H2. apply (IH (done ++ [x])); [|assumption].
      now rewrite <- app_assoc. }
  now apply (Hgen l []).
Qed.

Lemma post_for_acc {A S : Type} (I : list A -> S -> world -> Prop) E (l : list A) body s w :
  I [] s w ->
  (forall done x rest s w, l = done ++ x :: rest -> I done s w ->
     post (body s x) w (fun s' w' => I (done ++ [x]) s' w') E) ->
  post (for_acc l body s) w (fun s' w' => I l s' w') E.
Proof.
  intros H0 Hstep.
  assert (Hgen : forall rest done s w, l = done ++ rest -> I done s w ->
            post (for_acc rest body s) w (fun s' w' => I l s' w') E).
  { induction rest as [|x rest IH]; intros done s1 w1 Hl Hd; simpl.
    - rewrite app_nil_r in Hl. subst. now apply post_ret.
    - apply post_bind. eapply post_conseq; [apply (Hstep done x rest s1 w1 Hl Hd)| |auto].
      intros s2 w2 H2. apply (IH (done ++ [x])); [|assumption].
      now rewrite <- app_assoc. }
  now apply (Hgen l []).
Qed.

(** Two worlds that [self] cannot tell apart: same roster, same graph. *)
Definition sim (w1 w2 : world) : Prop :=
  self_teams w1 = self_teams w2 /\ G (self w1) = G (self w2).

(** [rel m]: [m] looks at the world only through [self.teams] and
    [self.G]. *)
Definition rel {A : Type} (m : M A) : Prop :=
  forall w1 w2, sim w1 w2 ->
    fst (m w1) = fst (m w2) /\ sim (snd (m w1)) (snd (m w2)).

Lemma rel_ret {A : Type} (a : A) : rel (ret a).
Proof. intros w1 w2 H. now split. Qed.

Lemma rel_raise {A : Type} (e : exn) : rel (@raise A e).
Proof. intros w1 w2 H. now split. Qed.

Lemma rel_lift {A : Type} (r : result A) : rel (lift r).
Proof. intros w1 w2 H. now split. Qed.

Lemma rel_bind {A B : Type} (m : M A) (k : A -> M B) :
  rel m -> (forall a, rel (k a)) -> rel (bind m k).
Proof.
  intros Hm Hk w1 w2 H. unfold bind.
  destruct (Hm w1 w2 H) as [Hf Hs].
  destruct (m w1) as [[a1|e1] w1'], (m w2) as [[a2|e2] w2']; simpl in *;
    try discriminate.
  - injection Hf as ->. now apply Hk.
  - injection Hf as ->. split; [reflexivity|assumption].
Qed.

Lemma rel_for_each {A : Type} (l : list A) (body : A -> M unit) :
  (forall x, rel (body x)) -> rel (for_each l body).
Proof.
  intro Hb. induction l as [|x l IH]; simpl.
  - apply rel_ret.
  - apply rel_bind; auto.
Qed.

Lemma rel_for_acc {A S : Type} (l : list A) (body : S -> A -> M S) s :
  (forall s x, rel (body s x)) -> rel (for_acc l body s).
Proof.
  intro Hb. revert s. induction l as [|x l IH]; intro s; simpl.
  - apply rel_ret.
  - apply rel_bind; auto.
Qed.

Lemma rel_map_M {A B : Type} (f : A -> M B) (l : list A) :
  (forall x, rel (f x)) -> rel (map_M f l).
Proof.
  intro Hf. induction l as [|x l IH]; simpl.
  - apply rel_ret.
  - apply rel_bind; [apply Hf|]. intro y.
    apply rel_bind; [apply IH|]. intro ys. apply rel_ret.
Qed.

Lemma rel_get_G : rel get_G.
Proof. intros w1 w2 [H1 H2]. unfold get_G; simpl. rewrite H2. now split. Qed.

Lemma rel_set_G g : rel (set_G g).
Proof. intros w1 w2 [H1 H2]. unfold set_G; simpl. split; [reflexivity|]. now split. Qed.

Lemma rel_modify_G f : rel (modify_G f).
Proof. apply rel_bind; [apply rel_get_G | intro; apply rel_set_G]. Qed.

Lemma rel_teams_getitem k : rel (teams_getitem k).
Proof.
  intros w1 w2 [H1 H2].
  unfold teams_getitem, get_teams_ref, dict_getitem, read_dict, bind; simpl.
  unfold self_teams in H1. rewrite H1.
  destruct (dict_get Z.eqb (deref (teams (self w2)) w2) k); simpl; split;
    try reflexivity; now split.
Qed.

Lemma rel_get_team_IDs : rel get_team_IDs.
Proof.
  intros w1 w2 [H1 H2].
  unfold get_team_IDs, get_teams_ref, read_dict, bind, ret; simpl.
  unfold self_teams in H1. rewrite H1. split; [reflexivity|now split].
Qed.

Lemma rel_list_getitem {A : Type} (l : list A) i : rel (list_getitem l i).
Proof. unfold list_getitem. destruct (py_index l i); [apply rel_ret|apply rel_raise]. Qed.

Create HintDb rel_db.
#[local] Hint Resolve rel_ret rel_raise rel_lift rel_get_G rel_set_G rel_modify_G
  rel_teams_getitem rel_get_team_IDs rel_list_getitem : rel_db.

Ltac rel_tac :=
  repeat (first
    [ solve [auto with rel_db]
    | apply rel_bind; [|intro]
    | apply rel_for_each; intro
    | apply rel_for_acc; intros
    | apply rel_map_M; intro
    | match goal with
      | |- rel (if ?b then _ else _) => destruct b
      | |- rel (match ?x with _ => _ end) => destruct x
      end ]).

(** [frame m]: [m] leaves the store of dictionaries and the reference
    [self.teams] alone, whether it returns or raises. *)
Definition frame {A : Type} (m : M A) : Prop :=
  forall w, heap (snd (m w)) = heap w /\ teams (self (snd (m w))) = teams (self w).

Lemma frame_ret {A : Type} (a : A) : frame (ret a).
Proof. intro w. now split. Qed.

Lemma frame_raise {A : Type} (e : exn) : frame (@raise A e).
Proof. intro w. now split. Qed.

Lemma frame_lift {A : Type} (r : result A) : frame (lift r).
Proof. intro w. now split. Qed.

Lemma frame_bind {A B : Type} (m : M A) (k : A -> M B) :
  frame m -> (forall a, frame (k a)) -> frame (bind m k).
Proof.
  intros Hm Hk w. unfold bind. destruct (Hm w) as [H1 H2].
  destruct (m w) as [[a|e] w']; simpl in *.
  - destruct (Hk a w') as [H3 H4]. split; congruence.
  - now split.
Qed.

Lemma frame_for_each {A : Type} (l : list A) (body : A -> M unit) :
  (forall x, frame (body x)) -> frame (for_each l body).
Proof.
  intro Hb. induction l as [|x l IH]; simpl.
  - apply frame_ret.
  - apply frame_bind; auto.
Qed.

Lemma frame_for_acc {A S : Type} (l : list A) (body : S -> A -> M S) s :
  (forall s x, frame (body s x)) -> frame (for_acc l body s).
Proof.
  intro Hb. revert s. induction l as [|x l IH]; intro s; simpl.
  - apply frame_ret.
  - apply frame_bind; auto.
Qed.

Lemma frame_map_M {A B : Type} (f : A -> M B) (l : list A) :
  (forall x, frame (f x)) -> frame (map_M f l).
Proof.
  intro Hf. induction l as [|x l IH]; simpl.
  - apply frame_ret.
  - apply frame_bind; [apply Hf|]. intro y.
    apply frame_bind; [apply IH|]. intro ys. apply frame_ret.
Qed.

Lemma frame_get_G : frame get_G.
Proof. intro w. now split. Qed.

Lemma frame_set_G g : frame (set_G g).
Proof. intro w. now split. Qed.

Lemma frame_modify_G f : frame (modify_G f).
Proof. apply frame_bind; [apply frame_get_G | intro; apply frame_set_G]. Qed.

Lemma frame_teams_getitem k : frame (teams_getitem k).
Proof.
  intro w. unfold teams_getitem, get_teams_ref, dict_getitem, read_dict, bind; simpl.
  destruct (dict_get Z.eqb (deref (teams (self w)) w) k); now split.
Qed.

Lemma frame_get_team_IDs : frame get_team_IDs.
Proof. intro w. now split. Qed.

Lemma frame_list_getitem {A : Type} (l : list A) i : frame (list_getitem l i).
Proof. unfold list_getitem. destruct (py_index l i); [apply frame_ret|apply frame_raise]. Qed.

Create HintDb frame_db.
#[local] Hint Resolve frame_ret frame_raise frame_lift frame_get_G frame_set_G
  frame_modify_G frame_teams_getitem frame_get_team_IDs frame_list_getitem : frame_db.

Ltac frame_tac :=
  repeat (first
    [ solve [auto with frame_db]
    | apply frame_bind; [|intro]
    | apply frame_for_each; intro
    | apply frame_for_acc; intros
    | apply frame_map_M; intro
    | match goal with
      | |- frame (if ?b then _ else _) => destruct b
      | |- frame (match ?x with _ => _ end) => destruct x
      end ]).

(** ** Python lists *)

Lemma py_index_out_of_range {A : Type} (l : list A) (j : Z) :
  j < - Z.of_nat (List.length l) \/ Z.of_nat (List.length l) <= j ->
  py_index l j = None.
Proof.
  intro H. unfold py_index.
  destruct (Z.leb_spec 0 j) as [H0|H0].
  - apply nth_error_None. lia.
  - destruct (Z.leb_spec (- Z.of_nat (List.length l)) j); [lia|reflexivity].
Qed.

Lemma py_index_nonneg {A : Type} (l : list A) (j : Z) :
  0 <= j -> py_index l j = nth_error l (Z.to_nat j).
Proof.
  intro H. unfold py_index. destruct (Z.leb_spec 0 j); [reflexivity|lia].
Qed.

Lemma py_index_of_nat {A : Type} (l : list A) (k : nat) :
  py_index l (Z.of_nat k) = nth_error l k.
Proof. rewrite py_index_nonneg by lia. now rewrite Nat2Z.id. Qed.

Lemma py_range_0 (n : nat) : py_range 0 (Z.of_nat n) = map Z.of_nat (seq 0 n).
Proof.
  unfold py_range. rewrite Z.sub_0_r, Nat2Z.id. apply map_ext. intro k. lia.
Qed.

Lemma nth_list_update_eq {A : Type} (l : list A) (x y d : A) :
  list_update (l ++ [x]) (List.length l) y = l ++ [y].
Proof. induction l as [|a l IH]; simpl; [reflexivity|now rewrite IH]. Qed.

(** ** The elimination query, step by step *)

Section QueryFacts.

Variable maximum_flow : DiGraph -> node -> node -> result Z.
Variable picos_solve : Problem -> result (lpvar -> Q).


(** What [is_eliminated] does once [flag1] is known. *)
Definition query_tail (same_object : bool) (teamID : Z) (solver : string)
    (flag1 : bool) : M bool :=
  (saturated_edges <- create_network same_object teamID ;;
   if negb flag1 then
     if String.eqb solver "Network Flows" then
       network_flows maximum_flow saturated_edges
     else if String.eqb solver "Linear Programming" then
       linear_programming picos_solve saturated_edges
     else ret flag1
   else ret flag1)%py.

(** Does some item carry more wins than [team] can still reach? *)
Definition out_of_reach (team : Team) (items : list (Z * Team)) : bool :=
  existsb (fun kt => wins team + remaining team <? wins (snd kt)) items.

Lemma precheck_out_of_reach team items flag1 :
  precheck team items flag1 = flag1 || out_of_reach team items.
Proof.
  unfold precheck, out_of_reach. revert flag1.
  induction items as [|[k o] items IH]; intro flag1; simpl.
  - now rewrite orb_false_r.
  - rewrite IH. destruct (wins team + remaining team <? wins o), flag1; reflexivity.
Qed.

Lemma rel_create_network same_object teamID : rel (create_network same_object teamID).
Proof. unfold create_network. rel_tac. Qed.

Lemma frame_create_network same_object teamID :
  frame (create_network same_object teamID).
Proof. unfold create_network. frame_tac. Qed.

Lemma rel_network_flows se : rel (network_flows maximum_flow se).
Proof. unfold network_flows. rel_tac. Qed.

Lemma rel_linear_programming se : rel (linear_programming picos_solve se).
Proof. unfold linear_programming. rel_tac. Qed.

Lemma frame_network_flows se : frame (network_flows maximum_flow se).
Proof. unfold network_flows. frame_tac. Qed.

Lemma frame_linear_programming se : frame (linear_programming picos_solve se).
Proof. unfold linear_programming. frame_tac. Qed.

Lemma rel_query_tail same_object teamID solver flag1 :
  rel (query_tail same_object teamID solver flag1).
Proof.
  unfold query_tail. apply rel_bind; [apply rel_create_network|].
  intro se. destruct (negb flag1); [|apply rel_ret].
  destruct (String.eqb solver "Network Flows"); [apply rel_network_flows|].
  destruct (String.eqb solver "Linear Programming");
    [apply rel_linear_programming|apply rel_ret].
Qed.

Lemma frame_query_tail same_object teamID solver flag1 :
  frame (query_tail same_object teamID solver flag1).
Proof.
  unfold query_tail. apply frame_bind; [apply frame_create_network|].
  intro se. destruct (negb flag1); [|apply frame_ret].
  destruct (String.eqb solver "Network Flows"); [apply frame_network_flows|].
  destruct (String.eqb solver "Linear Programming");
    [apply frame_linear_programming|apply frame_ret].
Qed.

(** A query for a team of the roster copies the dictionary, deletes the
    team from the copy, and goes on in a world with one more object. *)
Lemma is_eliminated_unfold w same_object teamID solver team :
  dict_get Z.eqb (self_teams w) teamID = Some team ->
  exists items,
    dict_del Z.eqb (self_teams w) teamID = Some items /\
    is_eliminated maximum_flow picos_solve same_object teamID solver w =
    query_tail same_object teamID solver (precheck team items false)
               (mkWorld (heap w ++ [items]) (self w)).
Proof.
  intro Hget.
  destruct (dict_del_get Z.eqb _ _ _ Hget) as [items Hdel].
  exists items. split; [assumption|].
  unfold is_eliminated, teams_getitem, get_teams_ref, dict_getitem,
    dict_delitem, read_dict, new_dict, write_dict, bind, ret, raise.
  unfold self_teams in Hget, Hdel. simpl. rewrite Hget. simpl.
  unfold deref at 1. simpl. rewrite nth_middle. rewrite Hdel. simpl.
  rewrite nth_list_update_eq by exact items.
  unfold deref. simpl. rewrite nth_middle. reflexivity.
Qed.

Lemma roster_ref_valid w teamID team :
  dict_get Z.eqb (self_teams w) teamID = Some team ->
  (teams (self w) < List.length (heap w))%nat.
Proof.
  unfold self_teams, deref. intro H.
  destruct (Nat.lt_ge_cases (teams (self w)) (List.length (heap w))) as [Hlt|Hge];
    [assumption|].
  rewrite nth_overflow in H by assumption. discriminate.
Qed.

Lemma sim_after_copy w items :
  (teams (self w) < List.length (heap w))%nat ->
  sim (mkWorld (heap w ++ [items]) (self w)) w.
Proof.
  intro H. split; [|reflexivity].
  unfold self_teams, deref. simpl. now apply app_nth1.
Qed.

(** The result and the graph of a query are those of [query_tail] run
    on the original world. *)
Lemma is_eliminated_tail w same_object teamID solver team items :
  dict_get Z.eqb (self_teams w) teamID = Some team ->
  dict_del Z.eqb (self_teams w) teamID = Some items ->
  let flag1 := precheck team items false in
  fst (is_eliminated maximum_flow picos_solve same_object teamID solver w) =
    fst (query_tail same_object teamID solver flag1 w) /\
  G (self (snd (is_eliminated maximum_flow picos_solve same_object teamID solver w))) =
    G (self (snd (query_tail same_object teamID solver flag1 w))).
Proof.
  intros Hget Hdel flag1.
  destruct (is_eliminated_unfold w same_object teamID solver team Hget)
    as (items' & Hdel' & ->).
  assert (items' = items) by congruence. subst items'.
  pose proof (roster_ref_valid _ _ _ Hget) as Hv.
  destruct (rel_query_tail same_object teamID solver flag1 _ _ (sim_after_copy w items Hv))
    as [Hf [_ Hg]].
  split; assumption.
Qed.

(** The first lookup of a query fails for a team that is not there. *)
Lemma is_eliminated_absent w same_object teamID solver :
  dict_get Z.eqb (self_teams w) teamID = None ->
  is_eliminated maximum_flow picos_solve same_object teamID solver w = (Raise (KeyError teamID), w).
Proof.
  intro Hget.
  unfold is_eliminated, teams_getitem, get_teams_ref, dict_getitem,
    read_dict, bind, raise. simpl.
  unfold self_teams in Hget. now rewrite Hget.
Qed.

(** Once the trivial check has fired the solvers are out of the picture. *)
Lemma query_out_of_reach w same_object teamID solver team items se :
  dict_get Z.eqb (self_teams w) teamID = Some team ->
  dict_del Z.eqb (self_teams w) teamID = Some items ->
  out_of_reach team items = true ->
  fst (create_network same_object teamID w) = Ok se ->
  fst (is_eliminated maximum_flow picos_solve same_object teamID solver w) = Ok true /\
  G (self (snd (is_eliminated maximum_flow picos_solve same_object teamID solver w))) =
    G (self (snd (create_network same_object teamID w))).
Proof.
  intros Hget Hdel Hout Hnet.
  destruct (is_eliminated_tail w same_object teamID solver team items Hget Hdel)
    as [-> ->].
  rewrite precheck_out_of_reach, Hout. simpl.
  unfold query_tail, bind.
  destruct (create_network same_object teamID w) as [[se'|e] w']; simpl in Hnet; [|discriminate].
  simpl. now split.
Qed.

End QueryFacts.

(** ** Sample rosters and stand-in solvers *)

(** Solvers that always fail: a query that still returns a verdict with
    them has not called a solver. *)
Definition failing_maximum_flow : DiGraph -> node -> node -> result Z :=
  fun _ _ _ => Raise (SolverError "no flow solver"%string).

Definition failing_picos_solve : Problem -> result (lpvar -> Q) :=
  fun _ => Raise (SolverError "no LP solver"%string).

Definition world_of (ts : list (Z * Team)) : world :=
  mkWorld [ts] (mkDivision 0%nat empty_graph).

(** Two teams level on wins with one game left against each other. *)
Definition level_A : Team := mkTeam 0 "A"%string 3 0 1 [0; 1].
Definition level_B : Team := mkTeam 1 "B"%string 3 0 1 [1; 0].
Definition level_roster : world := world_of [(0, level_A); (1, level_B)].

(** A team that has already been overtaken. *)
Definition behind_A : Team := mkTeam 0 "A"%string 0 5 0 [0; 0].
Definition ahead_B : Team := mkTeam 1 "B"%string 5 0 0 [0; 0].
Definition lopsided_roster : world := world_of [(0, behind_A); (1, ahead_B)].

(** ** Team.get_against *)

(** C9.  Asking a team for its remaining games against an opponent id
    for which its [against] data has no entry (an index outside the list)
    raises [ValueError]; it does not return zero. *)
Theorem get_against_unlisted (t : Team) (j : Z) :
  j < - Z.of_nat (List.length (against t)) \/ Z.of_nat (List.length (against t)) <= j ->
  get_against t (PyInt j) = Raise (ValueError no_team_msg).
Proof.
  intro H. unfold get_against. now rewrite py_index_out_of_range.
Qed.

Lemma get_against_unlisted_witness :
  get_against level_A (PyInt 2) = Raise (ValueError no_team_msg).
Proof. apply (get_against_unlisted level_A 2). simpl. lia. Defined.

Lemma get_against_listed (t : Team) (j : nat) :
  (j < List.length (against t))%nat ->
  exists v, get_against t (PyInt (Z.of_nat j)) = Ok v /\ nth_error (against t) j = Some v.
Proof.
  intro H. unfold get_against. rewrite py_index_of_nat.
  destruct (nth_error (against t) j) as [v|] eqn:E.
  - now exists v.
  - apply nth_error_None in E. lia.
Qed.

(** ** Division.is_eliminated: errors and the trivial check *)

Section QueryTheorems.

Variable maximum_flow : DiGraph -> node -> node -> result Z.
Variable picos_solve : Problem -> result (lpvar -> Q).


(** C6.  A query for a team id that is not a key of the roster fails with
    the [KeyError] of the lookup [self.teams[teamID]]; the world is left
    as it was, so no network has been built at that point. *)
Theorem is_eliminated_unknown_team (w : world) (same_object : bool) (teamID : Z) (solver : string) :
  ~ In teamID (dict_keys (self_teams w)) ->
  is_eliminated maximum_flow picos_solve same_object teamID solver w = (Raise (KeyError teamID), w).
Proof.
  intro Hnot. apply is_eliminated_absent.
  destruct (dict_get Z.eqb (self_teams w) teamID) as [t|] eqn:E; [|reflexivity].
  exfalso. apply Hnot. apply (dict_get_In Z.eqb Z.eqb_eq) in E.
  change teamID with (fst (teamID, t)). now apply in_map.
Qed.

(** C8.  Neither a query nor the construction of the network changes the
    roster: [self.teams] refers to the same dictionary object, and that
    object holds the same items, whatever the outcome. *)
Theorem query_preserves_roster (w : world) (same_object : bool) (teamID : Z) (solver : string) :
  (teams (self (snd (is_eliminated maximum_flow picos_solve same_object teamID solver w)))
     = teams (self w) /\
   self_teams (snd (is_eliminated maximum_flow picos_solve same_object teamID solver w))
     = self_teams w) /\
  (teams (self (snd (create_network same_object teamID w))) = teams (self w) /\
   self_teams (snd (create_network same_object teamID w)) = self_teams w).
Proof.
  split.
  - destruct (dict_get Z.eqb (self_teams w) teamID) as [team|] eqn:Hget.
    + destruct (is_eliminated_unfold maximum_flow picos_solve w same_object teamID solver team Hget)
        as (items & Hdel & ->).
      pose proof (roster_ref_valid _ _ _ Hget) as Hv.
      destruct (frame_query_tail maximum_flow picos_solve same_object teamID solver
                  (precheck team items false) (mkWorld (heap w ++ [items]) (self w)))
        as [Hh Hr].
      simpl in Hh, Hr. split; [assumption|].
      unfold self_teams, deref. rewrite Hr, Hh. now apply app_nth1.
    + rewrite is_eliminated_absent by assumption. now split.
  - destruct (frame_create_network same_object teamID w) as [Hh Hr].
    split; [assumption|]. unfold self_teams, deref. now rewrite Hr, Hh.
Qed.

(** C5, as the code has it.  A solver name other than the two the code
    knows raises nothing: for a team of the roster whose network can be
    built, the query returns the boolean of the trivial check, true
    exactly when some other team's wins exceed the team's wins plus
    remaining games. *)
Theorem unsupported_solver_precheck (w : world) (same_object : bool) (teamID : Z) (solver : string)
    (team : Team) (items : list (Z * Team)) (se : list (string * Z)) :
  solver <> "Network Flows"%string ->
  solver <> "Linear Programming"%string ->
  dict_get Z.eqb (self_teams w) teamID = Some team ->
  dict_del Z.eqb (self_teams w) teamID = Some items ->
  fst (create_network same_object teamID w) = Ok se ->
  fst (is_eliminated maximum_flow picos_solve same_object teamID solver w) =
    Ok (out_of_reach team items).
Proof.
  intros Hnf Hlp Hget Hdel Hnet.
  destruct (is_eliminated_tail maximum_flow picos_solve w same_object teamID solver
              team items Hget Hdel) as [-> _].
  rewrite precheck_out_of_reach. simpl.
  unfold query_tail, bind. destruct (create_network same_object teamID w) as [[se'|e] w'];
    simpl in Hnet; [|discriminate].
  apply String.eqb_neq in Hnf, Hlp. rewrite Hnf, Hlp.
  destruct (out_of_reach team items); reflexivity.
Qed.

(** C3, as the code has it.  When some other team already has more wins
    than the query team can reach, the query returns true without
    consulting a solver, whichever solvers are plugged in; the network is
    built all the same, and [self.G] ends up as [create_network] leaves
    it. *)
Theorem trivial_check_true (w : world) (same_object : bool) (teamID : Z) (solver : string)
    (team : Team) (k : Z) (other : Team) (se : list (string * Z)) :
  dict_get Z.eqb (self_teams w) teamID = Some team ->
  In (k, other) (self_teams w) -> k <> teamID ->
  wins team + remaining team < wins other ->
  fst (create_network same_object teamID w) = Ok se ->
  fst (is_eliminated maximum_flow picos_solve same_object teamID solver w) = Ok true /\
  G (self (snd (is_eliminated maximum_flow picos_solve same_object teamID solver w))) =
    G (self (snd (create_network same_object teamID w))).
Proof.
  intros Hget Hin Hk Hw Hnet.
  destruct (dict_del_get Z.eqb _ _ _ Hget) as [items Hdel].
  apply (query_out_of_reach maximum_flow picos_solve w same_object teamID solver team items se);
    try assumption.
  unfold out_of_reach. apply existsb_exists. exists (k, other). split.
  - now apply (dict_del_In Z.eqb Z.eqb_eq _ _ _ _ other Hdel Hk).
  - simpl. now apply Z.ltb_lt.
Qed.

End QueryTheorems.

Lemma is_eliminated_unknown_team_witness :
  is_eliminated failing_maximum_flow failing_picos_solve true 7 "Network Flows" level_roster
  = (Raise (KeyError 7), level_roster).
Proof.
  apply (is_eliminated_unknown_team failing_maximum_flow failing_picos_solve
           level_roster true 7 "Network Flows").
  simpl. intros [H|[H|[]]]; discriminate.
Defined.

(** C5, as the specification words it, fails: with the solver name
    ["Simplex"] the query for team 0 of the level roster returns [False]
    and raises nothing. *)
Lemma unsupported_solver_returns_bool :
  In 0 (dict_keys (self_teams level_roster)) /\
  "Simplex"%string <> "Network Flows"%string /\
  "Simplex"%string <> "Linear Programming"%string /\
  fst (is_eliminated failing_maximum_flow failing_picos_solve true 0 "Simplex" level_roster)
  = Ok false.
Proof.
  split; [now left|]. split; [discriminate|]. split; [discriminate|].
  vm_compute. reflexivity.
Qed.

Lemma unsupported_solver_precheck_witness :
  fst (is_eliminated failing_maximum_flow failing_picos_solve true 0 "Simplex" lopsided_roster)
  = Ok (out_of_reach behind_A [(1, ahead_B)]).
Proof.
  apply (unsupported_solver_precheck failing_maximum_flow failing_picos_solve
           lopsided_roster true 0 "Simplex" behind_A [(1, ahead_B)] []).
  - discriminate.
  - discriminate.
  - reflexivity.
  - reflexivity.
  - vm_compute. reflexivity.
Defined.

(** C3, as the specification words it, fails: team 0 of the lopsided
    roster is settled by the trivial check, and yet the query has built a
    network: [self.G], empty before, holds the nodes and the edge of
    team 1 afterwards. *)
Lemma trivial_check_builds_network :
  wins behind_A + remaining behind_A < wins ahead_B /\
  fst (is_eliminated failing_maximum_flow failing_picos_solve true 0 "Network Flows"
         lopsided_roster) = Ok true /\
  G (self lopsided_roster) = empty_graph /\
  G (self (snd (is_eliminated failing_maximum_flow failing_picos_solve true 0
                  "Network Flows" lopsided_roster)))
  = mkDiGraph [Source; Sink; NInt 1] [((NInt 1, Sink), -5)].
Proof.
  split; [simpl; lia|]. split; [vm_compute; reflexivity|].
  split; [reflexivity|]. vm_compute. reflexivity.
Qed.

Lemma trivial_check_true_witness :
  fst (is_eliminated failing_maximum_flow failing_picos_solve true 0 "Linear Programming"
         lopsided_roster) = Ok true /\
  G (self (snd (is_eliminated failing_maximum_flow failing_picos_solve true 0
                  "Linear Programming" lopsided_roster))) =
  G (self (snd (create_network true 0 lopsided_roster))).
Proof.
  apply (trivial_check_true failing_maximum_flow failing_picos_solve
           lopsided_roster true 0 "Linear Programming" behind_A 1 ahead_B []).
  - reflexivity.
  - simpl. right. left. reflexivity.
  - discriminate.
  - simpl. lia.
  - vm_compute. reflexivity.
Defined.

(** ** Division.create_network, in closed form *)

Definition with_G (w : world) (g : DiGraph) : world :=
  mkWorld (heap w) (mkDivision (teams (self w)) g).

Lemma post_set_G g w (Q : unit -> world -> Prop) E :
  Q tt (with_G w g) -> post (set_G g) w Q E.
Proof. auto. Qed.

Lemma post_modify_G f w (Q : unit -> world -> Prop) E :
  Q tt (with_G w (f (G (self w)))) -> post (modify_G f) w Q E.
Proof. auto. Qed.

Lemma post_get_team_IDs w (Q : list Z -> world -> Prop) E :
  Q (dict_keys (self_teams w)) w -> post get_team_IDs w Q E.
Proof. auto. Qed.

Lemma post_teams_getitem k w (Q : Team -> world -> Prop) E :
  match dict_get Z.eqb (self_teams w) k with
  | Some t => Q t w
  | None => E (KeyError k) w
  end -> post (teams_getitem k) w Q E.
Proof.
  unfold post, teams_getitem, get_teams_ref, dict_getitem, read_dict, bind, self_teams.
  simpl. destruct (dict_get Z.eqb (deref (teams (self w)) w) k); auto.
Qed.

Lemma post_lift {A : Type} (r : result A) w (Q : A -> world -> Prop) E :
  match r with Ok a => Q a w | Raise e => E e w end -> post (lift r) w Q E.
Proof. unfold post, lift. destruct r; auto. Qed.

Lemma post_list_getitem {A : Type} (l : list A) i w (Q : A -> world -> Prop) E :
  match py_index l i with Some a => Q a w | None => E IndexError w end ->
  post (list_getitem l i) w Q E.
Proof. unfold post, list_getitem. destruct (py_index l i); auto. Qed.

Lemma for_acc_app {A S : Type} (l1 l2 : list A) (body : S -> A -> M S) s w :
  for_acc (l1 ++ l2) body s w =
  bind (for_acc l1 body s) (fun s' => for_acc l2 body s') w.
Proof.
  revert s w. induction l1 as [|x l1 IH]; intros s w; simpl.
  - reflexivity.
  - unfold bind. destruct (body s x w) as [[s'|e] w']; [|reflexivity].
    rewrite IH. reflexivity.
Qed.

Lemma for_acc_map {A B S : Type} (g : B -> A) (l : list B) (body : S -> A -> M S) s w :
  for_acc (map g l) body s w = for_acc l (fun s x => body s (g x)) s w.
Proof.
  revert s w. induction l as [|x l IH]; intros s w; simpl.
  - reflexivity.
  - unfold bind. destruct (body s (g x) w) as [[s'|e] w']; [|reflexivity].
    apply IH.
Qed.

(** A loop inside a loop is one loop over the pairs of indices. *)
Lemma for_acc_nested {A B S : Type} (l : list A) (f : A -> list B)
    (body : A -> S -> B -> M S) s w :
  for_acc l (fun s i => for_acc (f i) (body i) s) s w =
  for_acc (flat_map (fun i => map (pair i) (f i)) l)
          (fun s p => body (fst p) s (snd p)) s w.
Proof.
  revert s w. induction l as [|i l IH]; intros s w; simpl.
  - reflexivity.
  - rewrite for_acc_app. unfold bind. rewrite for_acc_map. simpl.
    destruct (for_acc (f i) (fun s0 x => body i s0 x) s w) as [[s'|e] w'] eqn:E.
    + replace (for_acc (f i) (body i) s w) with (Ok s', w'). apply IH.
    + replace (for_acc (f i) (body i) s w) with (@Raise S e, w'). reflexivity.
Qed.

Section Network.

Variable ts : list (Z * Team).
Variable same_object : bool.
Variable teamID : Z.

Definition default_team : Team := mkTeam 0 EmptyString 0 0 0 [].

(** [self.teams[k]], where the lookup is known to succeed. *)
Definition team_at (k : Z) : Team :=
  match dict_get Z.eqb ts k with
  | Some t => t
  | None => default_team
  end.

(** [teamIDs[i]], where the index is known to be in range. *)
Definition id_at (i : Z) : Z :=
  match py_index (dict_keys ts) i with
  | Some t => t
  | None => 0
  end.

Definition sink_capacity (t : Z) : Z :=
  wins (team_at teamID) + remaining (team_at teamID) - wins (team_at t).

Definition games_of (p : Z * Z) : Z :=
  match get_against (team_at (fst p)) (PyInt (snd p)) with
  | Ok v => v
  | Raise _ => 0
  end.

Definition matchup_name (p : Z * Z) : string :=
  (py_str (id_at (fst p)) ++ "_" ++ py_str (id_at (snd p)))%string.

Definition team_count : Z := Z.of_nat (List.length (dict_keys ts)).

(** The teams other than the query team, and the teams that get a
    node and an edge to [Sink] in the first loop: those the test
    [team is not teamID] lets through. *)
Definition others : list Z :=
  filter (fun t => negb (t =? teamID)) (dict_keys ts).

Definition sink_teams : list Z :=
  filter (fun t => negb (py_is same_object t teamID)) (dict_keys ts).

(** The index pairs of the two nested loops, and those not skipped. *)
Definition index_pairs : list (Z * Z) :=
  flat_map (fun i => map (pair i) (py_range (i + 1) team_count))
           (py_range 0 (team_count - 1)).

Definition skipped (p : Z * Z) : bool := (fst p =? teamID) || (snd p =? teamID).

Definition matchups : list (Z * Z) :=
  filter (fun p => negb (skipped p)) index_pairs.

Definition add_team (g : DiGraph) (t : Z) : DiGraph :=
  add_edge (NInt t) Sink (sink_capacity t) (add_node (NInt t) g).

Definition add_matchup (g : DiGraph) (p : Z * Z) : DiGraph :=
  let nm := NStr (matchup_name p) in
  add_edge nm (NInt (id_at (snd p))) (games_of p)
    (add_edge nm (NInt (id_at (fst p))) (games_of p)
       (add_edge Source nm (games_of p) (add_node nm g))).

Definition base_graph : DiGraph := add_node Sink (add_node Source empty_graph).

Definition network_of : DiGraph :=
  fold_left add_matchup matchups (fold_left add_team sink_teams base_graph).

Definition record_matchup (se : list (string * Z)) (p : Z * Z) : list (string * Z) :=
  dict_set String.eqb se (matchup_name p) (games_of p).

Definition saturated_of : list (string * Z) :=
  fold_left record_matchup matchups [].

(** Every lookup the two loops make finds what it looks for. *)
Definition lookups_ok : Prop :=
  (others <> [] -> dict_get Z.eqb ts teamID <> None) /\
  Forall (fun p => exists t v,
            dict_get Z.eqb ts (fst p) = Some t /\
            get_against t (PyInt (snd p)) = Ok v) matchups.

End Network.

Lemma py_range_In (lo hi x : Z) : In x (py_range lo hi) <-> lo <= x < hi.
Proof.
  unfold py_range. rewrite in_map_iff. split.
  - intros (k & <- & Hk). apply in_seq in Hk. lia.
  - intro H. exists (Z.to_nat (x - lo)). split; [lia|apply in_seq; lia].
Qed.

Lemma index_pairs_In ts (p : Z * Z) :
  In p (index_pairs ts) <-> 0 <= fst p < snd p /\ snd p < team_count ts.
Proof.
  unfold index_pairs. rewrite in_flat_map. split.
  - intros (i & Hi & Hp). apply py_range_In in Hi. apply in_map_iff in Hp.
    destruct Hp as (j & <- & Hj). apply py_range_In in Hj. simpl. lia.
  - intros [H1 H2]. exists (fst p). split; [apply py_range_In; lia|].
    apply in_map_iff. exists (snd p). split; [now destruct p|apply py_range_In; lia].
Qed.

Lemma py_index_Some {A : Type} (l : list A) (i : Z) :
  0 <= i < Z.of_nat (List.length l) -> exists a, py_index l i = Some a.
Proof.
  intro H. rewrite py_index_nonneg by lia.
  destruct (nth_error l (Z.to_nat i)) as [a|] eqn:E; [now exists a|].
  apply nth_error_None in E. lia.
Qed.

Lemma self_teams_with_G w g : self_teams (with_G w g) = self_teams w.
Proof. reflexivity. Qed.

Lemma with_G_with_G w g g' : with_G (with_G w g) g' = with_G w g'.
Proof. reflexivity. Qed.

Lemma G_with_G w g : G (self (with_G w g)) = g.
Proof. reflexivity. Qed.

Lemma filter_snoc {A : Type} (f : A -> bool) (l : list A) (x : A) :
  filter f (l ++ [x]) = if f x then filter f l ++ [x] else filter f l.
Proof.
  rewrite filter_app. simpl. destruct (f x); [reflexivity|apply app_nil_r].
Qed.

Lemma fold_left_snoc {A B : Type} (f : A -> B -> A) (l : list B) (x : B) (a : A) :
  fold_left f (l ++ [x]) a = f (fold_left f l a) x.
Proof. now rewrite fold_left_app. Qed.

(** The first loop of [create_network]. *)
Lemma create_network_teams_post w same_object teamID :
  post (for_each (dict_keys (self_teams w)) (fun team =>
          if negb (py_is same_object team teamID) then
            (modify_G (add_node (NInt team)) ;;
             q <- teams_getitem teamID ;;
             q' <- teams_getitem teamID ;;
             t <- teams_getitem team ;;
             let capacity := wins q + remaining q' - wins t in
             modify_G (add_edge (NInt team) Sink capacity))%py
          else ret tt))
       (with_G w base_graph)
       (fun _ w' =>
          w' = with_G w (fold_left (add_team (self_teams w) teamID)
                           (sink_teams (self_teams w) same_object teamID) base_graph) /\
          (others (self_teams w) teamID <> [] ->
           dict_get Z.eqb (self_teams w) teamID <> None))
       (fun _ _ => ~ lookups_ok (self_teams w) teamID).
Proof.
  set (ts := self_teams w).
  set (keep := fun t : Z => negb (py_is same_object t teamID)).
  set (other := fun t : Z => negb (t =? teamID)).
  apply (post_for_each
    (fun done w' =>
       w' = with_G w (fold_left (add_team ts teamID) (filter keep done) base_graph) /\
       (filter other done <> [] -> dict_get Z.eqb ts teamID <> None))).
  - split; [reflexivity|]. intro H. now contradiction H.
  - intros done x rest w1 Hl [-> Hq].
    assert (Hx : In x (dict_keys ts)) by (rewrite Hl; apply in_elt).
    rewrite !filter_snoc. change (keep x) with (negb (py_is same_object x teamID)).
    change (other x) with (negb (x =? teamID)).
    destruct (py_is same_object x teamID) eqn:Ex; cbn [negb].
    + apply post_ret. split; [reflexivity|].
      unfold py_is in Ex. apply andb_true_iff in Ex. destruct Ex as [Ex _].
      now rewrite Ex.
    + apply post_bind, post_modify_G. rewrite with_G_with_G.
      apply post_bind, post_teams_getitem. rewrite self_teams_with_G. fold ts.
      destruct (dict_get Z.eqb ts teamID) as [q|] eqn:Eq.
      * apply post_bind, post_teams_getitem. rewrite self_teams_with_G. fold ts.
        rewrite Eq.
        apply post_bind, post_teams_getitem. rewrite self_teams_with_G. fold ts.
        destruct (dict_get_key Z.eqb Z.eqb_eq ts x Hx) as [t Et]. rewrite Et.
        apply post_modify_G. rewrite with_G_with_G, G_with_G.
        split; [|discriminate].
        rewrite fold_left_snoc. unfold add_team at 2, sink_capacity, team_at.
        now rewrite Eq, Et.
      * intros [H _]. apply H; [|exact Eq].
        intro Ho. assert (Hin : In x (others ts teamID)).
        { apply filter_In. split; [assumption|].
          apply negb_true_iff, Z.eqb_neq. intros ->.
          apply (dict_get_None Z.eqb Z.eqb_eq) in Eq. contradiction. }
        rewrite Ho in Hin. destruct Hin.
Qed.

(** The body of the two nested loops of [create_network]. *)
Definition matchup_body (teamID : Z) (teamIDs : list Z) (i : Z)
    (saturated_edges : list (string * Z)) (j : Z) : M (list (string * Z)) :=
  (if (i =? teamID) || (j =? teamID) then ret saturated_edges
   else
     ti <- list_getitem teamIDs i ;;
     tj <- list_getitem teamIDs j ;;
     let node_name := (py_str ti ++ "_" ++ py_str tj)%string in
     t <- teams_getitem i ;;
     matchup_games <- lift (get_against t (PyInt j)) ;;
     let saturated_edges :=
       dict_set String.eqb saturated_edges node_name matchup_games in
     modify_G (add_node (NStr node_name)) ;;
     modify_G (add_edge Source (NStr node_name) matchup_games) ;;
     modify_G (add_edge (NStr node_name) (NInt ti) matchup_games) ;;
     modify_G (add_edge (NStr node_name) (NInt tj) matchup_games) ;;
     ret saturated_edges)%py.

Definition lookup_ok (ts : list (Z * Team)) (p : Z * Z) : Prop :=
  exists t v, dict_get Z.eqb ts (fst p) = Some t /\
              get_against t (PyInt (snd p)) = Ok v.

Lemma create_network_matchups_post w teamID g1 :
  post (for_acc (index_pairs (self_teams w))
          (fun se p => matchup_body teamID (dict_keys (self_teams w)) (fst p) se (snd p))
          [])
       (with_G w g1)
       (fun se w' =>
          se = saturated_of (self_teams w) teamID /\
          w' = with_G w (fold_left (add_matchup (self_teams w))
                           (matchups (self_teams w) teamID) g1) /\
          Forall (lookup_ok (self_teams w)) (matchups (self_teams w) teamID))
       (fun _ _ => ~ lookups_ok (self_teams w) teamID).
Proof.
  set (ts := self_teams w).
  set (keep := fun p : Z * Z => negb (skipped teamID p)).
  apply (post_for_acc
    (fun done se w' =>
       se = fold_left (record_matchup ts) (filter keep done) [] /\
       w' = with_G w (fold_left (add_matchup ts) (filter keep done) g1) /\
       Forall (lookup_ok ts) (filter keep done))).
  - repeat split. constructor.
  - intros done p rest se w1 Hl (-> & -> & Hok).
    assert (Hp : In p (index_pairs ts)) by (rewrite Hl; apply in_elt).
    apply index_pairs_In in Hp. unfold team_count in Hp.
    rewrite filter_snoc. change (keep p) with (negb (skipped teamID p)).
    unfold matchup_body. fold (skipped teamID p).
    destruct (skipped teamID p) eqn:Es; cbn [negb].
    + apply post_ret. repeat split. assumption.
    + destruct (py_index_Some (dict_keys ts) (fst p)) as [ti Eti]; [lia|].
      destruct (py_index_Some (dict_keys ts) (snd p)) as [tj Etj]; [lia|].
      assert (Hm : In p (matchups ts teamID)).
      { apply filter_In. split; [apply index_pairs_In; unfold team_count; lia|].
        now rewrite Es. }
      assert (Hbad : ~ lookup_ok ts p -> ~ lookups_ok ts teamID).
      { intros Hn [_ Hall]. rewrite Forall_forall in Hall. exact (Hn (Hall p Hm)). }
      apply post_bind, post_list_getitem. rewrite Eti.
      apply post_bind, post_list_getitem. rewrite Etj.
      apply post_bind, post_teams_getitem. rewrite self_teams_with_G. fold ts.
      destruct (dict_get Z.eqb ts (fst p)) as [t|] eqn:Et.
      * destruct (get_against t (PyInt (snd p))) as [v|e] eqn:Ev;
          apply post_bind, post_lift; cbv beta iota.
        -- do 4 (apply post_bind, post_modify_G; rewrite with_G_with_G, G_with_G).
           apply post_ret.
           assert (Hg : games_of ts p = v).
           { unfold games_of, team_at. now rewrite Et, Ev. }
           assert (Hn : matchup_name ts p = (py_str ti ++ "_" ++ py_str tj)%string).
           { unfold matchup_name, id_at. now rewrite Eti, Etj. }
           assert (Hti : id_at ts (fst p) = ti) by (unfold id_at; now rewrite Eti).
           assert (Htj : id_at ts (snd p) = tj) by (unfold id_at; now rewrite Etj).
           rewrite !fold_left_snoc. rewrite <- Hn, <- Hg, <- Hti, <- Htj.
           split; [reflexivity|]. split; [reflexivity|].
           apply Forall_app. split; [assumption|].
           constructor; [|constructor]. now exists t, v.
        -- apply Hbad. intros (t' & v' & Ht' & Hv'). congruence.
      * apply Hbad. intros (t' & v' & Ht' & Hv'). congruence.
Qed.

(** [create_network] in one statement: it returns exactly when every
    lookup succeeds, and then the dictionary it returns and the graph it
    leaves in [self.G] are the closed forms above; nothing else in the
    world changes. *)
Lemma create_network_post w same_object teamID :
  post (create_network same_object teamID) w
       (fun se w' =>
          se = saturated_of (self_teams w) teamID /\
          w' = with_G w (network_of (self_teams w) same_object teamID) /\
          lookups_ok (self_teams w) teamID)
       (fun _ _ => ~ lookups_ok (self_teams w) teamID).
Proof.
  unfold create_network.
  apply post_bind, post_set_G.
  apply post_bind, post_modify_G. rewrite with_G_with_G, G_with_G.
  apply post_bind, post_modify_G. rewrite with_G_with_G, G_with_G.
  apply post_bind, post_get_team_IDs. rewrite self_teams_with_G.
  apply post_bind.
  eapply post_conseq; [apply (create_network_teams_post w same_object teamID)| |auto].
  intros _u w1 [-> Hq]. unfold post.
  rewrite (for_acc_nested _ _ (matchup_body teamID (dict_keys (self_teams w)))).
  eapply post_conseq; [apply create_network_matchups_post| |auto].
  intros se w2 (-> & -> & Hok). repeat split; assumption.
Qed.

Lemma create_network_ok w same_object teamID se w' :
  create_network same_object teamID w = (Ok se, w') ->
  se = saturated_of (self_teams w) teamID /\
  w' = with_G w (network_of (self_teams w) same_object teamID) /\
  lookups_ok (self_teams w) teamID.
Proof. intro H. exact (post_run _ _ _ _ _ _ (create_network_post w same_object teamID) H). Qed.

Lemma create_network_returns w same_object teamID :
  lookups_ok (self_teams w) teamID ->
  create_network same_object teamID w =
  (Ok (saturated_of (self_teams w) teamID),
   with_G w (network_of (self_teams w) same_object teamID)).
Proof.
  intro Hok. pose proof (create_network_post w same_object teamID) as H. unfold post in H.
  destruct (create_network same_object teamID w) as [[se|e] w1].
  - destruct H as (-> & -> & _). reflexivity.
  - contradiction.
Qed.

(** ** Names of matchup nodes *)

Fixpoint has_char (c : ascii) (s : string) : bool :=
  match s with
  | EmptyString => false
  | String a s' => Ascii.eqb a c || has_char c s'
  end.

Lemma has_char_app c (s t : string) :
  has_char c (s ++ t) = has_char c s || has_char c t.
Proof.
  induction s as [|a s IH]; simpl; [reflexivity|].
  rewrite IH. now rewrite orb_assoc.
Qed.

Lemma py_str_no_underscore (z : Z) : has_char "_" (py_str z) = false.
Proof.
  unfold py_str.
  assert (H : forall u, has_char "_" (NilEmpty.string_of_uint u) = false)
    by (induction u; simpl; auto).
  destruct (Z.to_int z); simpl; apply H.
Qed.

Lemma py_str_inj (a b : Z) : py_str a = py_str b -> a = b.
Proof.
  unfold py_str. intro H. apply DecimalZ.to_int_inj.
  pose proof (NilEmpty.isi (Z.to_int a)) as Ha.
  rewrite H, NilEmpty.isi in Ha. congruence.
Qed.

(** A name [a_b] splits at its first underscore in one way only. *)
Lemma underscore_split (s1 s2 t1 t2 : string) :
  has_char "_" s1 = false -> has_char "_" s2 = false ->
  (s1 ++ "_" ++ t1 = s2 ++ "_" ++ t2)%string -> s1 = s2 /\ t1 = t2.
Proof.
  revert s2. induction s1 as [|a s1 IH]; intros [|b s2] H1 H2 E; simpl in *.
  - injection E as ->. now split.
  - injection E as <- _. simpl in H2. discriminate.
  - injection E as -> _. simpl in H1. discriminate.
  - injection E as -> E. apply orb_false_iff in H1, H2.
    destruct (IH s2 (proj2 H1) (proj2 H2) E) as [-> ->]. now split.
Qed.

Lemma joined_name_inj (a b a' b' : Z) :
  (py_str a ++ "_" ++ py_str b = py_str a' ++ "_" ++ py_str b')%string ->
  a = a' /\ b = b'.
Proof.
  intro E.
  destruct (underscore_split _ _ _ _ (py_str_no_underscore a)
              (py_str_no_underscore a') E) as [Ha Hb].
  split; now apply py_str_inj.
Qed.

Lemma joined_name_has_underscore (s t : string) :
  has_char "_" (s ++ "_" ++ t) = true.
Proof. rewrite has_char_app. simpl. apply orb_true_r. Qed.

Lemma joined_name_not_terminal (s t : string) :
  NStr (s ++ "_" ++ t) <> Source /\ NStr (s ++ "_" ++ t) <> Sink.
Proof.
  split; intro E; injection E as E;
    pose proof (joined_name_has_underscore s t) as H; simpl in H, E;
    rewrite E in H; discriminate.
Qed.

(** ** The shape of the network *)

Lemma edges_add_node n g : edges (add_node n g) = edges g.
Proof. unfold add_node. now destruct (existsb (node_eqb n) (nodes g)). Qed.

Lemma nodes_add_node n g n' :
  In n' (nodes (add_node n g)) <-> n' = n \/ In n' (nodes g).
Proof.
  unfold add_node. destruct (existsb (node_eqb n) (nodes g)) eqn:E; simpl.
  - split; [now right|]. intros [->|H]; [|assumption].
    apply existsb_exists in E. destruct E as (m & Hm & Heq).
    apply node_eqb_eq in Heq. now subst.
  - rewrite in_app_iff. simpl. intuition.
Qed.

Lemma edges_add_edge u v c g :
  edges (add_edge u v c g) = dict_set edge_eqb (edges g) (u, v) c.
Proof. unfold add_edge. simpl. now rewrite !edges_add_node. Qed.

Lemma nodes_add_edge u v c g n' :
  In n' (nodes (add_edge u v c g)) <-> n' = u \/ n' = v \/ In n' (nodes g).
Proof. unfold add_edge. simpl. rewrite !nodes_add_node. intuition. Qed.

(** A graph as [networkx] keeps it: one entry per edge, and both ends of
    every edge among the nodes. *)
Definition graph_ok (g : DiGraph) : Prop :=
  NoDup (dict_keys (edges g)) /\
  forall e, In e (dict_keys (edges g)) -> In (fst e) (nodes g) /\ In (snd e) (nodes g).

Lemma graph_ok_empty : graph_ok empty_graph.
Proof. split; [constructor|intros e []]. Qed.

Lemma graph_ok_add_node n g : graph_ok g -> graph_ok (add_node n g).
Proof.
  intros [Hnd Hin]. split; rewrite edges_add_node; [assumption|].
  intros e He. rewrite !nodes_add_node. destruct (Hin e He). auto.
Qed.

Lemma graph_ok_add_edge u v c g : graph_ok g -> graph_ok (add_edge u v c g).
Proof.
  intros [Hnd Hin]. split; rewrite edges_add_edge.
  - now apply (dict_set_NoDup edge_eqb edge_eqb_eq).
  - intros e He. rewrite !nodes_add_edge.
    apply (dict_set_keys_In edge_eqb edge_eqb_eq) in He. destruct He as [->|He].
    + simpl. auto.
    + destruct (Hin e He). auto.
Qed.

Lemma fold_left_inv {A B : Type} (I : A -> Prop) (f : A -> B -> A) (l : list B) (a : A) :
  I a -> (forall a x, In x l -> I a -> I (f a x)) -> I (fold_left f l a).
Proof.
  revert a. induction l as [|x l IH]; intros a Ha Hf; simpl; [assumption|].
  apply IH.
  - apply Hf; [now left|assumption].
  - intros a' y Hy. apply Hf. now right.
Qed.

Lemma Forall_edges_add_node (P : edge * Z -> Prop) n g :
  Forall P (edges g) -> Forall P (edges (add_node n g)).
Proof. now rewrite edges_add_node. Qed.

Lemma Forall_edges_add_edge (P : edge * Z -> Prop) u v c g :
  Forall P (edges g) -> P ((u, v), c) -> Forall P (edges (add_edge u v c g)).
Proof.
  intros Hg Hp. rewrite edges_add_edge.
  now apply (dict_set_Forall edge_eqb edge_eqb_eq).
Qed.

Section NetworkShape.

Variable ts : list (Z * Team).
Variable same_object : bool.
Variable teamID : Z.

(** The two kinds of edges: from a team to the sink, and the three
    edges around a matchup node. *)
Definition team_edge (ec : edge * Z) : Prop :=
  exists t, In t (sink_teams ts same_object teamID) /\
            ec = ((NInt t, Sink), sink_capacity ts teamID t).

Definition matchup_edge (ec : edge * Z) : Prop :=
  exists p, In p (matchups ts teamID) /\
    (ec = ((Source, NStr (matchup_name ts p)), games_of ts p) \/
     ec = ((NStr (matchup_name ts p), NInt (id_at ts (fst p))), games_of ts p) \/
     ec = ((NStr (matchup_name ts p), NInt (id_at ts (snd p))), games_of ts p)).

Definition network_edge (ec : edge * Z) : Prop := team_edge ec \/ matchup_edge ec.

Lemma graph_ok_network : graph_ok (network_of ts same_object teamID).
Proof.
  unfold network_of. apply fold_left_inv.
  - apply fold_left_inv.
    + unfold base_graph. do 2 apply graph_ok_add_node. apply graph_ok_empty.
    + intros g t _ Hg. unfold add_team.
      now apply graph_ok_add_edge, graph_ok_add_node.
  - intros g p _ Hg. unfold add_matchup.
    do 3 apply graph_ok_add_edge. now apply graph_ok_add_node.
Qed.

Lemma network_edges : Forall network_edge (edges (network_of ts same_object teamID)).
Proof.
  unfold network_of. apply fold_left_inv.
  - apply fold_left_inv.
    + constructor.
    + intros g t Ht Hg. unfold add_team.
      apply Forall_edges_add_edge; [now apply Forall_edges_add_node|].
      left. now exists t.
  - intros g p Hp Hg. unfold add_matchup.
    repeat apply Forall_edges_add_edge; try now apply Forall_edges_add_node.
    all: right; exists p; split; auto.
Qed.

(** Nothing enters [Source] and nothing leaves [Sink]. *)
Lemma network_source_sink e :
  In e (dict_keys (edges (network_of ts same_object teamID))) ->
  snd e <> Source /\ fst e <> Sink.
Proof.
  intro He. apply in_map_iff in He. destruct He as ([e' c] & <- & Hin).
  pose proof network_edges as H. rewrite Forall_forall in H.
  destruct (H _ Hin) as [(t & _ & E)|(p & _ & [E|[E|E]])];
    injection E as -> _; simpl;
    destruct (joined_name_not_terminal (py_str (id_at ts (fst p)))
                (py_str (id_at ts (snd p)))) as [H1 H2] || idtac;
    split; try assumption; unfold Source, Sink; discriminate.
Qed.


(** Both terminals are nodes of the network. *)
Lemma network_terminals :
  In Source (nodes (network_of ts same_object teamID)) /\
  In Sink (nodes (network_of ts same_object teamID)).
Proof.
  unfold network_of. apply fold_left_inv.
  - apply fold_left_inv.
    + unfold base_graph. rewrite !nodes_add_node. auto.
    + intros g t _ [H1 H2]. unfold add_team.
      rewrite !nodes_add_edge, !nodes_add_node. auto.
  - intros g p _ [H1 H2]. unfold add_matchup.
    rewrite !nodes_add_edge, !nodes_add_node. auto 10.
Qed.

End NetworkShape.

(** The first loop lets through every other team, and the query team
    itself when the caller's integer is another object than the key. *)
Lemma sink_teams_In ts same_object teamID (t : Z) :
  In t (sink_teams ts same_object teamID) <->
  In t (others ts teamID) \/
  (t = teamID /\ In teamID (dict_keys ts) /\
   same_object = false /\ small_int teamID = false).
Proof.
  unfold sink_teams, others, py_is. rewrite !filter_In.
  rewrite !negb_true_iff, andb_false_iff, orb_false_iff, Z.eqb_neq.
  split.
  - intros [Hin [Hne|[Hs Hc]]]; [now left|].
    destruct (Z.eq_dec t teamID) as [->|Hne]; [now right|now left].
  - intros [[Hin Hne]|(-> & Hin & Hs & Hc)]; split; auto.
Qed.


(** ** Capacities into the sink *)

(** The capacity of a team's edge to the sink, read off the items the
    trivial check looks at. *)
Lemma sink_capacity_item ts teamID team items t :
  dict_get Z.eqb ts teamID = Some team ->
  dict_del Z.eqb ts teamID = Some items ->
  In t (others ts teamID) ->
  exists other, In (t, other) items /\
    sink_capacity ts teamID t = wins team + remaining team - wins other.
Proof.
  intros Hget Hdel Ht. apply filter_In in Ht. destruct Ht as [Hin Hne].
  apply negb_true_iff, Z.eqb_neq in Hne.
  destruct (dict_get_key Z.eqb Z.eqb_eq ts t Hin) as [other Ho].
  exists other. split.
  - apply (dict_del_In Z.eqb Z.eqb_eq _ _ _ _ other Hdel Hne).
    now apply (dict_get_In Z.eqb Z.eqb_eq).
  - unfold sink_capacity, team_at. now rewrite Hget, Ho.
Qed.

Lemma out_of_reach_false team items k other :
  out_of_reach team items = false -> In (k, other) items ->
  wins other <= wins team + remaining team.
Proof.
  intros H Hin. destruct (Z.ltb_spec (wins team + remaining team) (wins other)) as [Hlt|Hge];
    [|assumption].
  exfalso. assert (Ht : out_of_reach team items = true); [|congruence].
  apply existsb_exists. exists (k, other). split; [assumption|]. now apply Z.ltb_lt.
Qed.

Lemma out_of_reach_true team items k other :
  In (k, other) items -> wins team + remaining team < wins other ->
  out_of_reach team items = true.
Proof.
  intros Hin Hlt. apply existsb_exists. exists (k, other).
  split; [assumption|]. now apply Z.ltb_lt.
Qed.

(** What is known of the edges into [Sink] at any point of
    [create_network]: each comes from a team the first loop let
    through and carries the capacity computed for that team. *)
Definition sink_edges_known (ts : list (Z * Team)) (same_object : bool) (teamID : Z)
    (g : DiGraph) : Prop :=
  forall u c, In ((u, Sink), c) (edges g) ->
    exists t, In t (sink_teams ts same_object teamID) /\
              u = NInt t /\ c = sink_capacity ts teamID t.

Lemma sink_edges_known_add_node ts same_object teamID n g :
  sink_edges_known ts same_object teamID g ->
  sink_edges_known ts same_object teamID (add_node n g).
Proof. unfold sink_edges_known. now rewrite edges_add_node. Qed.

Lemma sink_edges_known_add_edge ts same_object teamID u v c g :
  sink_edges_known ts same_object teamID g ->
  (v = Sink -> exists t, In t (sink_teams ts same_object teamID) /\
                         u = NInt t /\ c = sink_capacity ts teamID t) ->
  sink_edges_known ts same_object teamID (add_edge u v c g).
Proof.
  intros Hg Hnew u' c' Hin. rewrite edges_add_edge in Hin.
  apply (dict_set_In edge_eqb edge_eqb_eq) in Hin. destruct Hin as [Hin|E].
  - now apply Hg.
  - injection E as -> Hv ->. apply Hnew. now symmetry.
Qed.

(** This holds of the graph [create_network] leaves in [self.G] whether
    it returns or raises half-way. *)
Lemma create_network_sink_edges w same_object teamID :
  sink_edges_known (self_teams w) same_object teamID
    (G (self (snd (create_network same_object teamID w)))).
Proof.
  set (ts := self_teams w).
  set (P := fun w' : world =>
              self_teams w' = ts /\
              sink_edges_known ts same_object teamID (G (self w'))).
  assert (H : post (create_network same_object teamID) w
                (fun _ w' => P w') (fun _ w' => P w')).
  { unfold create_network.
    apply post_bind, post_set_G.
    apply post_bind, post_modify_G.
    apply post_bind, post_modify_G.
    apply post_bind, post_get_team_IDs. rewrite !self_teams_with_G. fold ts.
    apply post_bind.
    eapply post_conseq;
      [apply (post_for_each (fun _ w' => P w') (fun _ w' => P w'))| |auto].
    - split; [reflexivity|]. intros u c Hin. simpl in Hin. destruct Hin.
    - intros done x rest w1 Hl [Hts Hk].
      assert (Hx : In x (dict_keys ts)) by (rewrite Hl; apply in_elt).
      destruct (py_is same_object x teamID) eqn:Ex; cbn [negb];
        [apply post_ret; now split|].
      apply post_bind, post_modify_G.
      apply post_bind, post_teams_getitem. rewrite self_teams_with_G, Hts.
      destruct (dict_get Z.eqb ts teamID) as [q|] eqn:Eq.
      + apply post_bind, post_teams_getitem. rewrite self_teams_with_G, Hts, Eq.
        apply post_bind, post_teams_getitem. rewrite self_teams_with_G, Hts.
        destruct (dict_get_key Z.eqb Z.eqb_eq ts x Hx) as [t Et]. rewrite Et.
        apply post_modify_G. split; [exact Hts|]. rewrite !G_with_G.
        apply sink_edges_known_add_edge;
          [now apply sink_edges_known_add_node|].
        intros _. exists x. split; [|split; [reflexivity|]].
        * apply filter_In. split; [assumption|]. now rewrite Ex.
        * unfold sink_capacity, team_at. now rewrite Eq, Et.
      + split; [exact Hts|]. rewrite G_with_G.
        now apply sink_edges_known_add_node.
    - intros u w1 HP. unfold post.
      rewrite (for_acc_nested _ _ (matchup_body teamID (dict_keys ts))).
      eapply post_conseq;
        [apply (post_for_acc (fun _ _ w' => P w') (fun _ w' => P w'))| |auto].
      + exact HP.
      + intros done p rest se w2 Hl [Hts Hk].
        unfold matchup_body.
        destruct ((fst p =? teamID) || (snd p =? teamID));
          [apply post_ret; now split|].
        apply post_bind, post_list_getitem.
        destruct (py_index (dict_keys ts) (fst p)) as [ti|]; [|now split].
        apply post_bind, post_list_getitem.
        destruct (py_index (dict_keys ts) (snd p)) as [tj|]; [|now split].
        apply post_bind, post_teams_getitem. rewrite Hts.
        destruct (dict_get Z.eqb ts (fst p)) as [t|]; [|now split].
        destruct (get_against t (PyInt (snd p))) as [v|e];
          apply post_bind, post_lift; cbv beta iota; [|now split].
        do 4 (apply post_bind, post_modify_G). apply post_ret.
        split; [exact Hts|]. rewrite !G_with_G.
        destruct (joined_name_not_terminal (py_str ti) (py_str tj)) as [_ Hnm].
        repeat apply sink_edges_known_add_edge;
          try (now apply sink_edges_known_add_node);
          intro E; try discriminate E; now contradiction Hnm.
      + auto. }
  unfold post in H.
  destruct (create_network same_object teamID w) as [[se|e] w1]; exact (proj2 H).
Qed.

(** C7, as the code has it.  In the graph [create_network] leaves in
    [self.G], complete or not, an edge from another team's node to the
    sink has a negative capacity only when the trivial check fires:
    when it does not fire these capacities are nonnegative.  And when it
    fires no solver is consulted, whatever the solvers are: the query
    returns true if the network has been built, and raises the error of
    [create_network] if that failed. *)
Theorem sink_capacities_nonneg
    (maximum_flow : DiGraph -> node -> node -> result Z)
    (picos_solve : Problem -> result (lpvar -> Q))
    (w : world) (same_object : bool) (teamID : Z) (solver : string) (team : Team)
    (items : list (Z * Team)) :
  dict_get Z.eqb (self_teams w) teamID = Some team ->
  dict_del Z.eqb (self_teams w) teamID = Some items ->
  let built := G (self (snd (create_network same_object teamID w))) in
  (out_of_reach team items = false ->
   forall u c, u <> NInt teamID -> In ((u, Sink), c) (edges built) -> 0 <= c) /\
  (forall u c, u <> NInt teamID -> In ((u, Sink), c) (edges built) -> c < 0 ->
     out_of_reach team items = true) /\
  (out_of_reach team items = true ->
   (forall se, fst (create_network same_object teamID w) = Ok se ->
      fst (is_eliminated maximum_flow picos_solve same_object teamID solver w) = Ok true) /\
   (forall e, fst (create_network same_object teamID w) = Raise e ->
      fst (is_eliminated maximum_flow picos_solve same_object teamID solver w) = Raise e)).
Proof.
  intros Hget Hdel built.
  assert (Hcap : forall u c, u <> NInt teamID -> In ((u, Sink), c) (edges built) ->
            exists k other, In (k, other) items /\
                            c = wins team + remaining team - wins other).
  { intros u c Hu Hin.
    destruct (create_network_sink_edges w same_object teamID u c Hin) as (t & Ht & -> & ->).
    apply sink_teams_In in Ht. destruct Ht as [Ht|(-> & _)]; [|now contradiction Hu].
    destruct (sink_capacity_item _ _ _ _ _ Hget Hdel Ht) as (other & Ho & Hc).
    now exists t, other. }
  split; [|split].
  - intros Hout u c Hu Hin. destruct (Hcap u c Hu Hin) as (k & other & Ho & ->).
    pose proof (out_of_reach_false _ _ _ _ Hout Ho). lia.
  - intros u c Hu Hin Hneg. destruct (Hcap u c Hu Hin) as (k & other & Ho & ->).
    apply (out_of_reach_true _ _ k other Ho). lia.
  - intro Hout.
    destruct (is_eliminated_tail maximum_flow picos_solve w same_object teamID solver
                team items Hget Hdel) as [-> _].
    rewrite precheck_out_of_reach, Hout. simpl. unfold query_tail, bind.
    destruct (create_network same_object teamID w) as [[se'|e'] w']; simpl;
      split; intros x Hx; congruence.
Qed.

Lemma sink_capacities_nonneg_witness :
  let built := G (self (snd (create_network true 0 lopsided_roster))) in
  (out_of_reach behind_A [(1, ahead_B)] = false ->
   forall u c, u <> NInt 0 -> In ((u, Sink), c) (edges built) -> 0 <= c) /\
  (forall u c, u <> NInt 0 -> In ((u, Sink), c) (edges built) -> c < 0 ->
     out_of_reach behind_A [(1, ahead_B)] = true) /\
  (out_of_reach behind_A [(1, ahead_B)] = true ->
   (forall se, fst (create_network true 0 lopsided_roster) = Ok se ->
      fst (is_eliminated failing_maximum_flow failing_picos_solve true 0
             "Network Flows" lopsided_roster) = Ok true) /\
   (forall e, fst (create_network true 0 lopsided_roster) = Raise e ->
      fst (is_eliminated failing_maximum_flow failing_picos_solve true 0
             "Network Flows" lopsided_roster) = Raise e)).
Proof.
  apply (sink_capacities_nonneg failing_maximum_flow failing_picos_solve
           lopsided_roster true 0 "Network Flows" behind_A [(1, ahead_B)]).
  - reflexivity.
  - reflexivity.
Defined.

(** C7, as the specification words it, fails: the query for team 0 of
    the lopsided roster builds a network whose edge from team 1 to the
    sink has capacity [0 + 0 - 5]. *)
Lemma negative_capacity_constructed :
  In ((NInt 1, Sink), -5)
     (edges (G (self (snd (is_eliminated failing_maximum_flow failing_picos_solve true 0
                             "Network Flows" lopsided_roster))))) /\
  -5 < 0.
Proof. split; [vm_compute; now left|lia]. Qed.

(** ** Division.network_flows *)

Definition Zsum (l : list Z) : Z := fold_right Z.add 0 l.

Lemma comparing_value_fold (se l : list (string * Z)) (acc : Z) :
  (forall k v, In (k, v) l -> dict_get String.eqb se k = Some v) ->
  fold_left
    (fun acc matchup =>
       acc + match dict_get String.eqb se matchup with
             | Some v => v
             | None => 0
             end)
    (dict_keys l) acc = acc + Zsum (dict_values l).
Proof.
  revert acc. induction l as [|[k v] l IH]; intros acc H; simpl.
  - lia.
  - rewrite IH by (intros k' v' Hin; apply H; now right).
    rewrite (H k v) by now left. lia.
Qed.

(** The total the solvers compare the flow with is the sum of the values
    of [saturated_edges]. *)
Lemma comparing_value_sum (se : list (string * Z)) :
  NoDup (dict_keys se) -> comparing_value se = Zsum (dict_values se).
Proof.
  intro Hnd. unfold comparing_value. rewrite comparing_value_fold; [lia|].
  intros k v Hin. now apply (dict_get_NoDup String.eqb String.eqb_eq).
Qed.

(** C2.  On a network for which the flow solver returns the value
    [max_flow], [network_flows] returns a boolean that is true exactly
    when [max_flow] is strictly below the sum of the values of
    [saturated_edges]; it leaves the world as it is. *)
Theorem network_flows_verdict
    (maximum_flow : DiGraph -> node -> node -> result Z)
    (saturated_edges : list (string * Z)) (w : world) (max_flow : Z) :
  NoDup (dict_keys saturated_edges) ->
  maximum_flow (G (self w)) Source Sink = Ok max_flow ->
  exists verdict,
    network_flows maximum_flow saturated_edges w = (Ok verdict, w) /\
    (verdict = true <-> max_flow < Zsum (dict_values saturated_edges)).
Proof.
  intros Hnd Hmf.
  exists (comparing_value saturated_edges >? max_flow). split.
  - unfold network_flows, get_G, lift, bind, ret. now rewrite Hmf.
  - rewrite <- comparing_value_sum by assumption.
    rewrite Z.gtb_ltb. apply Z.ltb_lt.
Qed.

Lemma network_flows_verdict_witness :
  exists verdict,
    network_flows (fun _ _ _ => Ok 2) [("1_2"%string, 1); ("1_3"%string, 2)]
      level_roster = (Ok verdict, level_roster) /\
    (verdict = true <-> 2 < Zsum (dict_values [("1_2"%string, 1); ("1_3"%string, 2)])).
Proof.
  apply (network_flows_verdict (fun _ _ _ => Ok 2)
           [("1_2"%string, 1); ("1_3"%string, 2)] level_roster 2).
  - repeat constructor; simpl; intuition discriminate.
  - reflexivity.
Defined.

(** ** Division.readDivision *)

Lemma post_get_teams_ref w (Q : nat -> world -> Prop) E :
  Q (teams (self w)) w -> post get_teams_ref w Q E.
Proof. auto. Qed.

Lemma post_dict_setitem r k t w (Q : unit -> world -> Prop) E :
  Q tt (mkWorld (list_update (heap w) r (dict_set Z.eqb (deref r w) k t)) (self w)) ->
  post (dict_setitem r k t) w Q E.
Proof. auto. Qed.

Lemma map_M_lift_world {A B : Type} (f : A -> result B) (l : list A) w :
  snd (map_M (fun s => lift (f s)) l w) = w.
Proof.
  induction l as [|x l IH]; simpl; [reflexivity|].
  unfold bind, lift at 1. destruct (f x) as [y|e]; [|reflexivity].
  destruct (map_M (fun s => lift (f s)) l w) as [[ys|e] w1]; simpl in *; assumption.
Qed.

Lemma post_map_M_lift {A B : Type} (f : A -> result B) (l : list A) w
    (Q : list B -> world -> Prop) (E : exn -> world -> Prop) :
  (forall ys, Q ys w) -> (forall e, E e w) ->
  post (map_M (fun s => lift (f s)) l) w Q E.
Proof.
  intros HQ HE. unfold post. pose proof (map_M_lift_world f l w) as H.
  destruct (map_M (fun s => lift (f s)) l w) as [[ys|e] w1]; simpl in H; subst; auto.
Qed.

Lemma length_list_update {A : Type} (l : list A) i x :
  List.length (list_update l i x) = List.length l.
Proof.
  revert i. induction l as [|a l IH]; intros [|i]; simpl; auto.
Qed.

Lemma nth_list_update_same {A : Type} (l : list A) i x d :
  (i < List.length l)%nat -> nth i (list_update l i x) d = x.
Proof.
  revert i. induction l as [|a l IH]; intros [|i] H; simpl in *; try lia.
  - reflexivity.
  - apply IH. lia.
Qed.

Lemma map_fst_combine_same {A B : Type} (ks : list A) (l : list B) :
  List.length ks = List.length l -> map fst (combine ks l) = ks.
Proof.
  revert l. induction ks as [|k ks IH]; intros [|a l] H; simpl in *; try lia.
  - reflexivity.
  - f_equal. apply IH. lia.
Qed.

Lemma map_fst_enumerate {A : Type} (l : list A) :
  map fst (enumerate l) = map Z.of_nat (seq 0 (List.length l)).
Proof.
  unfold enumerate. apply map_fst_combine_same.
  now rewrite length_map, length_seq.
Qed.

Lemma NoDup_of_nat_seq (n : nat) : NoDup (map Z.of_nat (seq 0 n)).
Proof.
  apply Injective_map_NoDup; [|apply seq_NoDup].
  intros a b. apply Nat2Z.inj.
Qed.

Lemma NoDup_app_notin {A : Type} (l1 l2 : list A) (x : A) :
  NoDup (l1 ++ x :: l2) -> ~ In x l1.
Proof.
  intros H Hin. apply NoDup_remove_2 in H. apply H. apply in_or_app. now left.
Qed.

Section ReadDivision.

Variable read_lines : string -> result (list (list string)).
Variable py_int : string -> result Z.

(** What holds of the roster while [readDivision] fills it: the keys
    are the row numbers seen so far, in order, and every team carries
    its key as [ID]. *)
Definition roster_filled (r : nat) (done : list (Z * list string)) (w : world) : Prop :=
  teams (self w) = r /\ (r < List.length (heap w))%nat /\
  dict_keys (self_teams w) = map fst done /\
  Forall (fun kt => ID (snd kt) = fst kt) (self_teams w).

Lemma readDivision_row r done ID0 teaminfo rest rows w :
  rows = done ++ (ID0, teaminfo) :: rest ->
  NoDup (map fst rows) ->
  roster_filled r done w ->
  post (t0 <- list_getitem teaminfo 0 ;;
        t1 <- list_getitem teaminfo 1 ;;
        wn <- lift (py_int t1) ;;
        t2 <- list_getitem teaminfo 2 ;;
        l <- lift (py_int t2) ;;
        t3 <- list_getitem teaminfo 3 ;;
        rm <- lift (py_int t3) ;;
        a <- map_M (fun s => lift (py_int s)) (skipn 4 teaminfo) ;;
        let team := mkTeam ID0 t0 wn l rm a in
        ts <- get_teams_ref ;;
        dict_setitem ts ID0 team)%py
       w
       (fun _ w' => roster_filled r (done ++ [(ID0, teaminfo)]) w')
       (fun _ _ => True).
Proof.
  intros Hrows Hnd (Hr & Hlt & Hkeys & Hids).
  apply post_bind, post_list_getitem.
  destruct (py_index teaminfo 0) as [t0|]; [|exact I].
  apply post_bind, post_list_getitem.
  destruct (py_index teaminfo 1) as [t1|]; [|exact I].
  apply post_bind, post_lift. destruct (py_int t1) as [wn|]; [|exact I].
  apply post_bind, post_list_getitem.
  destruct (py_index teaminfo 2) as [t2|]; [|exact I].
  apply post_bind, post_lift. destruct (py_int t2) as [l|]; [|exact I].
  apply post_bind, post_list_getitem.
  destruct (py_index teaminfo 3) as [t3|]; [|exact I].
  apply post_bind, post_lift. destruct (py_int t3) as [rm|]; [|exact I].
  apply post_bind, post_map_M_lift; [|intro; exact I].
  intro a. apply post_bind, post_get_teams_ref. apply post_dict_setitem.
  rewrite Hr. fold (self_teams w) in *.
  assert (Hself : deref r w = self_teams w) by (unfold self_teams; now rewrite Hr).
  rewrite Hself.
  assert (Hfresh : ~ In ID0 (dict_keys (self_teams w))).
  { rewrite Hkeys. rewrite Hrows, map_app in Hnd. simpl in Hnd.
    now apply NoDup_app_notin in Hnd. }
  rewrite (dict_set_fresh Z.eqb Z.eqb_eq) by assumption.
  unfold roster_filled, self_teams, deref. simpl.
  rewrite length_list_update, Hr, nth_list_update_same by assumption.
  repeat split; try assumption.
  - unfold dict_keys in *. rewrite !map_app, <- Hkeys.
    unfold self_teams, deref. now rewrite Hr.
  - apply Forall_app. split; [|repeat constructor].
    unfold self_teams, deref in Hids. now rewrite Hr in Hids.
Qed.

Lemma readDivision_post filename lines w :
  read_lines filename = Ok lines ->
  (teams (self w) < List.length (heap w))%nat ->
  self_teams w = [] ->
  post (readDivision read_lines py_int filename) w
       (fun _ w' => roster_filled (teams (self w)) (enumerate (tl lines)) w')
       (fun _ _ => True).
Proof.
  intros Hread Hlt Hempty. unfold readDivision.
  apply post_bind, post_lift. rewrite Hread.
  apply (post_for_each (fun done w' => roster_filled (teams (self w)) done w')).
  - repeat split; try assumption.
    + now rewrite Hempty.
    + rewrite Hempty. constructor.
  - intros done [ID0 teaminfo] rest w1 Hl Hinv.
    apply (readDivision_row (teams (self w)) done ID0 teaminfo rest
             (enumerate (tl lines))); try assumption.
    rewrite map_fst_enumerate. apply NoDup_of_nat_seq.
Qed.

(** After [Division.__init__] the roster holds one team per row. *)
Lemma Division_init_filled (filename : string) (lines : list (list string))
    (w w' : world) :
  read_lines filename = Ok lines ->
  Division_init read_lines py_int filename w = (Ok tt, w') ->
  roster_filled (List.length (heap w)) (enumerate (tl lines)) w'.
Proof.
  intros Hread Hinit. unfold Division_init in Hinit.
  set (w1 := mkWorld (heap w ++ [[]]) (mkDivision (List.length (heap w)) empty_graph)).
  assert (Hrun : readDivision read_lines py_int filename w1 = (Ok tt, w'))
    by exact Hinit.
  apply (post_run _ _ _ _ _ _ (readDivision_post filename lines w1 Hread
           ltac:(simpl; rewrite length_app; simpl; lia)
           ltac:(unfold self_teams, deref; simpl; apply nth_middle)) Hrun).
Qed.

Lemma Division_init_keys (filename : string) (lines : list (list string))
    (w w' : world) :
  read_lines filename = Ok lines ->
  Division_init read_lines py_int filename w = (Ok tt, w') ->
  dict_keys (self_teams w') = map Z.of_nat (seq 0 (List.length (self_teams w'))).
Proof.
  intros Hread Hinit.
  destruct (Division_init_filled filename lines w w' Hread Hinit) as (_ & _ & Hkeys & _).
  rewrite map_fst_enumerate in Hkeys.
  assert (Hlen : List.length (self_teams w') = List.length (tl lines)).
  { unfold dict_keys in Hkeys. apply (f_equal (@List.length Z)) in Hkeys.
    now rewrite !length_map, length_seq in Hkeys. }
  now rewrite Hlen.
Qed.

(** C10.  A division built by [Division.__init__] from a file with [n]
    team rows has exactly the keys [0 .. n-1], in row order; the team
    under key [k] has [ID = k]; so the entry of the list of team ids at
    position [i] is [i] itself, and indexing by position, as
    [create_network] does, is indexing by id. *)
Theorem readDivision_ids (filename : string) (lines : list (list string))
    (w w' : world) :
  read_lines filename = Ok lines ->
  Division_init read_lines py_int filename w = (Ok tt, w') ->
  let n := List.length (tl lines) in
  dict_keys (self_teams w') = map Z.of_nat (seq 0 n) /\
  (forall k t, dict_get Z.eqb (self_teams w') k = Some t -> ID t = k) /\
  (forall i, 0 <= i < Z.of_nat n ->
     py_index (dict_keys (self_teams w')) i = Some i /\
     exists t, dict_get Z.eqb (self_teams w') i = Some t /\ ID t = i).
Proof.
  intros Hread Hinit n.
  destruct (Division_init_filled filename lines w w' Hread Hinit)
    as (Hr & Hlt & Hkeys & Hids).
  rewrite map_fst_enumerate in Hkeys. fold n in Hkeys.
  assert (Hget : forall k t, dict_get Z.eqb (self_teams w') k = Some t -> ID t = k).
  { intros k t Hk. apply (dict_get_In Z.eqb Z.eqb_eq) in Hk.
    rewrite Forall_forall in Hids. exact (Hids _ Hk). }
  split; [assumption|]. split; [assumption|].
  intros i Hi.
  assert (Hidx : py_index (dict_keys (self_teams w')) i = Some i).
  { rewrite Hkeys, py_index_nonneg by lia.
    rewrite nth_error_map, nth_error_seq.
    destruct (Nat.ltb_spec (Z.to_nat i) n) as [_|Hge]; [|lia].
    simpl. f_equal. lia. }
  split; [assumption|].
  assert (Hin : In i (dict_keys (self_teams w'))).
  { rewrite py_index_nonneg in Hidx by lia. now apply nth_error_In in Hidx. }
  destruct (dict_get_key Z.eqb Z.eqb_eq _ _ Hin) as [t Ht].
  exists t. split; [assumption|]. now apply Hget.
Qed.

End ReadDivision.

Definition sample_int (s : string) : result Z :=
  match NilZero.int_of_string s with
  | Some d => Ok (Z.of_int d)
  | None => Raise (ValueError "invalid literal for int()"%string)
  end.

Definition sample_file (filename : string) : result (list (list string)) :=
  Ok [["2"]; ["A"; "3"; "0"; "1"; "0"; "1"]; ["B"; "3"; "0"; "1"; "1"; "0"]]%string.

Definition empty_world : world := mkWorld [] (mkDivision 0%nat empty_graph).

Lemma readDivision_ids_witness :
  let w' := snd (Division_init sample_file sample_int "teams2.txt" empty_world) in
  dict_keys (self_teams w') = map Z.of_nat (seq 0 2) /\
  (forall k t, dict_get Z.eqb (self_teams w') k = Some t -> ID t = k) /\
  (forall i, 0 <= i < Z.of_nat 2 ->
     py_index (dict_keys (self_teams w')) i = Some i /\
     exists t, dict_get Z.eqb (self_teams w') i = Some t /\ ID t = i).
Proof.
  apply (readDivision_ids sample_file sample_int "teams2.txt"
           [["2"]; ["A"; "3"; "0"; "1"; "0"; "1"]; ["B"; "3"; "0"; "1"; "1"; "0"]]%string
           empty_world).
  - reflexivity.
  - vm_compute. reflexivity.
Defined.

(** ** The pairs of teams behind the matchup nodes *)

(** Every two elements of a list, the earlier one first. *)
Fixpoint unordered_pairs (l : list Z) : list (Z * Z) :=
  match l with
  | [] => []
  | x :: l' => map (pair x) l' ++ unordered_pairs l'
  end.

Lemma py_range_nil (lo hi : Z) : hi <= lo -> py_range lo hi = [].
Proof.
  intro H. unfold py_range. replace (Z.to_nat (hi - lo)) with 0%nat by lia. reflexivity.
Qed.

Lemma py_range_cons (lo hi : Z) : lo < hi -> py_range lo hi = lo :: py_range (lo + 1) hi.
Proof.
  intro H. unfold py_range.
  replace (Z.to_nat (hi - lo)) with (S (Z.to_nat (hi - (lo + 1)))) by lia.
  simpl. f_equal; [lia|]. rewrite <- seq_shift, map_map.
  apply map_ext. intro k. lia.
Qed.

Lemma nested_ranges_unordered (n : Z) (k : nat) (a : Z) :
  Z.to_nat (n - a) = k ->
  flat_map (fun i => map (pair i) (py_range (i + 1) n)) (py_range a (n - 1)) =
  unordered_pairs (py_range a n).
Proof.
  revert a. induction k as [|k IH]; intros a Hk.
  - rewrite !py_range_nil by lia. reflexivity.
  - rewrite (py_range_cons a n) by lia. simpl.
    destruct (Z.eq_dec a (n - 1)) as [->|Hne].
    + rewrite (py_range_nil (n - 1) (n - 1)) by lia.
      rewrite (py_range_nil (n - 1 + 1) n) by lia. reflexivity.
    + rewrite (py_range_cons a (n - 1)) by lia. simpl.
      now rewrite IH by lia.
Qed.

Lemma unordered_pairs_filter (keep : Z -> bool) (l : list Z) :
  unordered_pairs (filter keep l) =
  filter (fun p => keep (fst p) && keep (snd p)) (unordered_pairs l).
Proof.
  induction l as [|x l IH]; simpl; [reflexivity|].
  rewrite filter_app, <- IH.
  assert (Hmap : filter (fun p => keep (fst p) && keep (snd p)) (map (pair x) l) =
                 if keep x then map (pair x) (filter keep l) else []).
  { clear IH. induction l as [|y l IHl]; simpl; [now destruct (keep x)|].
    rewrite IHl. destruct (keep x), (keep y); reflexivity. }
  rewrite Hmap. now destruct (keep x).
Qed.

Lemma unordered_pairs_fst (l : list Z) (p : Z * Z) :
  In p (unordered_pairs l) -> In (fst p) l /\ In (snd p) l.
Proof.
  induction l as [|x l IH]; simpl; [intros []|].
  rewrite in_app_iff, in_map_iff. intros [(y & <- & Hy)|H]; simpl; auto.
  destruct (IH H). auto.
Qed.

Lemma unordered_pairs_NoDup (l : list Z) : NoDup l -> NoDup (unordered_pairs l).
Proof.
  induction l as [|x l IH]; simpl; intro H; [constructor|].
  inversion H as [|? ? Hx Hl]; subst.
  apply NoDup_app.
  - apply Injective_map_NoDup; [|assumption]. intros a b [= ->]. reflexivity.
  - now apply IH.
  - intros p Hp Hq. apply in_map_iff in Hp. destruct Hp as (y & <- & _).
    apply unordered_pairs_fst in Hq. simpl in Hq. now destruct Hq.
Qed.

Lemma matchups_In ts teamID (p : Z * Z) :
  In p (matchups ts teamID) <->
  (0 <= fst p < snd p /\ snd p < team_count ts) /\ fst p <> teamID /\ snd p <> teamID.
Proof.
  unfold matchups, skipped. rewrite filter_In, index_pairs_In.
  rewrite negb_true_iff, orb_false_iff, !Z.eqb_neq. reflexivity.
Qed.

Lemma add_matchup_keys_mono ts g p e :
  In e (dict_keys (edges g)) -> In e (dict_keys (edges (add_matchup ts g p))).
Proof.
  intro H. unfold add_matchup.
  rewrite !edges_add_edge, edges_add_node.
  repeat (apply (dict_set_keys_In edge_eqb edge_eqb_eq); right). assumption.
Qed.

Lemma add_matchup_keys_new ts g p :
  let nm := NStr (matchup_name ts p) in
  let ks := dict_keys (edges (add_matchup ts g p)) in
  In (Source, nm) ks /\ In (nm, NInt (id_at ts (fst p))) ks /\
  In (nm, NInt (id_at ts (snd p))) ks.
Proof.
  unfold add_matchup. cbv zeta. rewrite !edges_add_edge, edges_add_node.
  repeat split; repeat rewrite (dict_set_keys_In edge_eqb edge_eqb_eq); auto.
Qed.

Lemma fold_add_matchup_keys_mono ts l g e :
  In e (dict_keys (edges g)) ->
  In e (dict_keys (edges (fold_left (add_matchup ts) l g))).
Proof.
  revert g. induction l as [|x l IH]; intros g H; simpl; [assumption|].
  apply IH. now apply add_matchup_keys_mono.
Qed.

Lemma fold_add_matchup_keys ts l g p :
  In p l ->
  let nm := NStr (matchup_name ts p) in
  let ks := dict_keys (edges (fold_left (add_matchup ts) l g)) in
  In (Source, nm) ks /\ In (nm, NInt (id_at ts (fst p))) ks /\
  In (nm, NInt (id_at ts (snd p))) ks.
Proof.
  revert g. induction l as [|x l IH]; intros g Hin; [destruct Hin|].
  destruct Hin as [->|Hin]; [|now apply IH].
  simpl. destruct (add_matchup_keys_new ts g p) as (H1 & H2 & H3).
  repeat split; now apply fold_add_matchup_keys_mono.
Qed.

(** When the names tell the pairs apart, the three edges around a
    matchup node carry the games of its pair. *)
Lemma network_matchup_lookup ts same_object teamID p :
  (forall q q', In q (matchups ts teamID) -> In q' (matchups ts teamID) ->
     matchup_name ts q = matchup_name ts q' -> q = q') ->
  In p (matchups ts teamID) ->
  let nm := NStr (matchup_name ts p) in
  let es := edges (network_of ts same_object teamID) in
  dict_get edge_eqb es (Source, nm) = Some (games_of ts p) /\
  dict_get edge_eqb es (nm, NInt (id_at ts (fst p))) = Some (games_of ts p) /\
  dict_get edge_eqb es (nm, NInt (id_at ts (snd p))) = Some (games_of ts p).
Proof.
  intros Hinj Hp nm es.
  assert (Hval : forall e c, In (e, c) es -> fst e = nm \/ snd e = nm -> c = games_of ts p).
  { intros e c Hin He. pose proof (network_edges ts same_object teamID) as H.
    rewrite Forall_forall in H.
    destruct (H _ Hin) as [(t & _ & E)|(q & Hq & E)].
    - injection E as -> _. simpl in He. destruct He as [He|He]; [discriminate|].
      exfalso. symmetry in He.
      now apply (joined_name_not_terminal (py_str (id_at ts (fst p)))
                   (py_str (id_at ts (snd p)))) in He.
    - assert (Hname : matchup_name ts q = matchup_name ts p).
      { destruct E as [E|[E|E]]; injection E as -> _; simpl in He;
          destruct He as [He|He]; try discriminate; try (now injection He).
        exfalso. symmetry in He.
        now apply (joined_name_not_terminal (py_str (id_at ts (fst p)))
                     (py_str (id_at ts (snd p)))) in He. }
      rewrite <- (Hinj q p Hq Hp Hname).
      destruct E as [E|[E|E]]; now injection E. }
  destruct (fold_add_matchup_keys ts (matchups ts teamID)
              (fold_left (add_team ts teamID) (sink_teams ts same_object teamID) base_graph)
              p Hp)
    as (H1 & H2 & H3).
  fold (network_of ts same_object teamID) in H1, H2, H3. fold es in H1, H2, H3.
  subst nm. repeat split.
  - destruct (dict_get_key edge_eqb edge_eqb_eq _ _ H1) as [c Hc].
    rewrite Hc. f_equal. apply (dict_get_In edge_eqb edge_eqb_eq) in Hc.
    apply (Hval _ _ Hc). now right.
  - destruct (dict_get_key edge_eqb edge_eqb_eq _ _ H2) as [c Hc].
    rewrite Hc. f_equal. apply (dict_get_In edge_eqb edge_eqb_eq) in Hc.
    apply (Hval _ _ Hc). now left.
  - destruct (dict_get_key edge_eqb edge_eqb_eq _ _ H3) as [c Hc].
    rewrite Hc. f_equal. apply (dict_get_In edge_eqb edge_eqb_eq) in Hc.
    apply (Hval _ _ Hc). now left.
Qed.

Lemma fold_dict_set_map {A : Type} (f : A -> string) (g : A -> Z) (l : list A) :
  NoDup (map f l) ->
  fold_left (fun se p => dict_set String.eqb se (f p) (g p)) l [] =
  map (fun p => (f p, g p)) l.
Proof.
  induction l as [|x l IH] using rev_ind; intro H; [reflexivity|].
  rewrite fold_left_snoc, map_app. simpl.
  rewrite map_app in H. simpl in H.
  rewrite IH by (now apply NoDup_remove_1 in H; rewrite app_nil_r in H).
  apply (dict_set_fresh String.eqb String.eqb_eq).
  unfold dict_keys. rewrite map_map. simpl.
  apply NoDup_remove_2 in H. now rewrite app_nil_r in H.
Qed.

(** ** Division.create_network on a roster as [readDivision] builds it *)

Section Contiguous.

Variable ts : list (Z * Team).
Variable teamID : Z.

(** The keys are [0 .. n-1] in order (C10). *)
Hypothesis Hkeys : dict_keys ts = map Z.of_nat (seq 0 (List.length ts)).

Lemma team_count_length : team_count ts = Z.of_nat (List.length ts).
Proof. unfold team_count, dict_keys. now rewrite length_map. Qed.

Lemma keys_py_range : dict_keys ts = py_range 0 (team_count ts).
Proof. rewrite team_count_length, py_range_0. exact Hkeys. Qed.

Lemma id_at_contiguous (i : Z) : 0 <= i < team_count ts -> id_at ts i = i.
Proof.
  intro Hi. rewrite team_count_length in Hi. unfold id_at.
  rewrite Hkeys, py_index_nonneg, nth_error_map, nth_error_seq by lia.
  destruct (Nat.ltb_spec (Z.to_nat i) (List.length ts)) as [_|Hge]; [|lia].
  simpl. lia.
Qed.

Lemma matchups_others : matchups ts teamID = unordered_pairs (others ts teamID).
Proof.
  unfold matchups, index_pairs, others.
  rewrite (nested_ranges_unordered (team_count ts) _ 0 eq_refl).
  rewrite keys_py_range, unordered_pairs_filter.
  apply filter_ext. intro p. unfold skipped. now rewrite negb_orb.
Qed.

Lemma matchup_name_contiguous (p : Z * Z) :
  In p (matchups ts teamID) ->
  matchup_name ts p = (py_str (fst p) ++ "_" ++ py_str (snd p))%string.
Proof.
  intro Hp. apply matchups_In in Hp. unfold matchup_name.
  now rewrite !id_at_contiguous by lia.
Qed.

Lemma matchup_name_inj (q q' : Z * Z) :
  In q (matchups ts teamID) -> In q' (matchups ts teamID) ->
  matchup_name ts q = matchup_name ts q' -> q = q'.
Proof.
  intros Hq Hq' E.
  rewrite (matchup_name_contiguous q Hq), (matchup_name_contiguous q' Hq') in E.
  apply joined_name_inj in E. destruct q, q'. simpl in E. destruct E. congruence.
Qed.

Lemma others_NoDup : NoDup (others ts teamID).
Proof. unfold others. apply NoDup_filter. rewrite Hkeys. apply NoDup_of_nat_seq. Qed.

Lemma matchups_NoDup : NoDup (matchups ts teamID).
Proof. rewrite matchups_others. apply unordered_pairs_NoDup, others_NoDup. Qed.

Lemma matchup_names_NoDup : NoDup (map (matchup_name ts) (matchups ts teamID)).
Proof.
  apply Injective_map_NoDup_in; [|apply matchups_NoDup].
  intros q q' Hq Hq'. now apply matchup_name_inj.
Qed.

(** Every row of the file lists a count for each of the [n] teams. *)
Hypothesis Hrows :
  Forall (fun kt => (List.length ts <= List.length (against (snd kt)))%nat) ts.

Hypothesis Hteam : In teamID (dict_keys ts).

Lemma matchup_lookup (p : Z * Z) :
  In p (matchups ts teamID) ->
  exists t, dict_get Z.eqb ts (fst p) = Some t /\
            get_against t (PyInt (snd p)) = Ok (games_of ts p) /\
            nth_error (against t) (Z.to_nat (snd p)) = Some (games_of ts p).
Proof.
  intro Hp. apply matchups_In in Hp. rewrite team_count_length in Hp.
  assert (Hin : In (fst p) (dict_keys ts)).
  { rewrite keys_py_range, team_count_length. apply py_range_In. lia. }
  destruct (dict_get_key Z.eqb Z.eqb_eq _ _ Hin) as [t Ht].
  exists t. split; [assumption|].
  pose proof (dict_get_In Z.eqb Z.eqb_eq _ _ _ Ht) as Hmem.
  rewrite Forall_forall in Hrows. specialize (Hrows _ Hmem). simpl in Hrows.
  destruct (get_against_listed t (Z.to_nat (snd p))) as (v & Hv & Hnth); [lia|].
  rewrite Z2Nat.id in Hv by lia.
  assert (Hg : games_of ts p = v).
  { unfold games_of, team_at. now rewrite Ht, Hv. }
  rewrite Hg. now split.
Qed.

Lemma lookups_ok_contiguous : lookups_ok ts teamID.
Proof.
  split.
  - intros _ Hnone. destruct (dict_get_key Z.eqb Z.eqb_eq _ _ Hteam) as [t Ht].
    congruence.
  - apply Forall_forall. intros p Hp.
    destruct (matchup_lookup p Hp) as (t & Ht & Hv & _). now exists t, (games_of ts p).
Qed.

Lemma saturated_of_contiguous :
  saturated_of ts teamID =
  map (fun p => ((py_str (fst p) ++ "_" ++ py_str (snd p))%string, games_of ts p))
      (unordered_pairs (others ts teamID)).
Proof.
  unfold saturated_of, record_matchup.
  rewrite (fold_dict_set_map (matchup_name ts) (games_of ts)) by apply matchup_names_NoDup.
  rewrite <- matchups_others. apply map_ext_in. intros p Hp.
  now rewrite matchup_name_contiguous.
Qed.

End Contiguous.

(** C4.  On a roster with keys [0 .. n-1] whose rows list a count for
    every team, [create_network] returns, and: the pairs behind the
    matchup nodes are the unordered pairs of the teams other than the
    query team, each once; [saturated_edges] has one entry per pair,
    named after the pair and holding the count the first team's row has
    for the second; the total the solvers use is the sum of these counts;
    and the edges from [Source] to the matchup node and from the matchup
    node to either team carry that same count. *)
Theorem create_network_pairs (w : world) (same_object : bool) (teamID : Z) :
  let ts := self_teams w in
  let pairs := unordered_pairs (others ts teamID) in
  let node_name := fun p : Z * Z => (py_str (fst p) ++ "_" ++ py_str (snd p))%string in
  dict_keys ts = map Z.of_nat (seq 0 (List.length ts)) ->
  Forall (fun kt => (List.length ts <= List.length (against (snd kt)))%nat) ts ->
  In teamID (dict_keys ts) ->
  exists se w',
    create_network same_object teamID w = (Ok se, w') /\
    (NoDup pairs /\
     forall a b, In (a, b) pairs <->
       In a (dict_keys ts) /\ In b (dict_keys ts) /\ a < b /\
       a <> teamID /\ b <> teamID) /\
    se = map (fun p => (node_name p, games_of ts p)) pairs /\
    comparing_value se = Zsum (map (games_of ts) pairs) /\
    forall p, In p pairs ->
      (exists t, dict_get Z.eqb ts (fst p) = Some t /\
                 nth_error (against t) (Z.to_nat (snd p)) = Some (games_of ts p)) /\
      dict_get edge_eqb (edges (G (self w'))) (Source, NStr (node_name p))
        = Some (games_of ts p) /\
      dict_get edge_eqb (edges (G (self w'))) (NStr (node_name p), NInt (fst p))
        = Some (games_of ts p) /\
      dict_get edge_eqb (edges (G (self w'))) (NStr (node_name p), NInt (snd p))
        = Some (games_of ts p).
Proof.
  intros ts pairs node_name Hkeys Hrows Hteam.
  pose proof (lookups_ok_contiguous ts teamID Hkeys Hrows Hteam) as Hok.
  exists (saturated_of ts teamID), (with_G w (network_of ts same_object teamID)).
  split; [now apply create_network_returns|].
  assert (Hpairs : matchups ts teamID = pairs) by now apply matchups_others.
  split; [split|].
  - rewrite <- Hpairs. now apply matchups_NoDup.
  - intros a b. rewrite <- Hpairs, matchups_In. simpl.
    rewrite (keys_py_range ts Hkeys), !py_range_In. lia.
  - split; [now apply saturated_of_contiguous|]. split.
    + rewrite comparing_value_sum.
      * rewrite (saturated_of_contiguous ts teamID Hkeys). fold pairs.
        unfold dict_values. now rewrite map_map.
      * unfold saturated_of, record_matchup.
        rewrite (fold_dict_set_map (matchup_name ts) (games_of ts))
          by now apply matchup_names_NoDup.
        unfold dict_keys. rewrite map_map. simpl.
        now apply matchup_names_NoDup.
    + intros p Hp. rewrite <- Hpairs in Hp. rewrite G_with_G.
      split.
      * destruct (matchup_lookup ts teamID Hkeys Hrows p Hp) as (t & Ht & _ & Hn).
        now exists t.
      * pose proof (network_matchup_lookup ts same_object teamID p
                      (matchup_name_inj ts teamID Hkeys) Hp) as H.
        cbv zeta in H.
        rewrite (matchup_name_contiguous ts teamID Hkeys p Hp) in H.
        pose proof (proj1 (matchups_In ts teamID p) Hp) as Hb.
        rewrite !(id_at_contiguous ts Hkeys) in H by lia.
        exact H.
Qed.

(** Three teams with one game left between any two of them. *)
Definition round_robin : world :=
  world_of [(0, mkTeam 0 "A"%string 1 0 2 [0; 1; 1]);
            (1, mkTeam 1 "B"%string 1 0 2 [1; 0; 1]);
            (2, mkTeam 2 "C"%string 1 0 2 [1; 1; 0])].

Lemma create_network_pairs_witness :
  let ts := self_teams round_robin in
  let pairs := unordered_pairs (others ts 0) in
  let node_name := fun p : Z * Z => (py_str (fst p) ++ "_" ++ py_str (snd p))%string in
  exists se w',
    create_network true 0 round_robin = (Ok se, w') /\
    (NoDup pairs /\
     forall a b, In (a, b) pairs <->
       In a (dict_keys ts) /\ In b (dict_keys ts) /\ a < b /\ a <> 0 /\ b <> 0) /\
    se = map (fun p => (node_name p, games_of ts p)) pairs /\
    comparing_value se = Zsum (map (games_of ts) pairs) /\
    forall p, In p pairs ->
      (exists t, dict_get Z.eqb ts (fst p) = Some t /\
                 nth_error (against t) (Z.to_nat (snd p)) = Some (games_of ts p)) /\
      dict_get edge_eqb (edges (G (self w'))) (Source, NStr (node_name p))
        = Some (games_of ts p) /\
      dict_get edge_eqb (edges (G (self w'))) (NStr (node_name p), NInt (fst p))
        = Some (games_of ts p) /\
      dict_get edge_eqb (edges (G (self w'))) (NStr (node_name p), NInt (snd p))
        = Some (games_of ts p).
Proof.
  apply (create_network_pairs round_robin true 0).
  - reflexivity.
  - repeat constructor.
  - simpl. now left.
Defined.

(** ** Rounding the value the LP solver leaves in [F] *)

Lemma inject_Z_succ (z : Z) : (inject_Z (z + 1) == inject_Z z + 1)%Q.
Proof. rewrite inject_Z_plus. reflexivity. Qed.

(** A value within a half of an integer rounds to that integer. *)
Lemma py_round_near (q : Q) (v : Z) :
  (Qabs (q - inject_Z v) < 1 # 2)%Q -> py_round q = v.
Proof.
  intro H. apply Qabs_Qlt_condition in H. destruct H as [Hlo Hhi].
  unfold py_round.
  pose proof (Qfloor_le q) as Hfl.
  pose proof (Qlt_floor q) as Hfu. rewrite inject_Z_succ in Hfu.
  assert (Hcases : Qfloor q = v \/ Qfloor q = v - 1).
  { destruct (Z_le_gt_dec (Qfloor q) (v - 2)) as [Hle|Hgt].
    - exfalso. rewrite Zle_Qle in Hle.
      unfold Zminus in Hle. rewrite inject_Z_plus in Hle.
      change (inject_Z (- (2))) with (- (2))%Q in Hle. lra.
    - destruct (Z_le_gt_dec (v + 1) (Qfloor q)) as [Hge|Hlt]; [|lia].
      exfalso. rewrite Zle_Qle in Hge. rewrite inject_Z_succ in Hge. lra. }
  destruct Hcases as [E|E]; rewrite E in *.
  - destruct (Qcompare_spec (q - inject_Z v) (1 # 2)) as [Heq|Hlt|Hgt];
      [lra|reflexivity|lra].
  - unfold Zminus in Hfl, Hfu. rewrite inject_Z_plus in Hfl, Hfu.
    change (inject_Z (- (1))) with (- (1))%Q in Hfl, Hfu.
    destruct (Qcompare_spec (q - inject_Z (v - 1)) (1 # 2)) as [Heq|Hlt|Hgt].
    + unfold Zminus in Heq. rewrite inject_Z_plus in Heq.
      change (inject_Z (- (1))) with (- (1))%Q in Heq. lra.
    + unfold Zminus in Hlt. rewrite inject_Z_plus in Hlt.
      change (inject_Z (- (1))) with (- (1))%Q in Hlt. lra.
    + lia.
Qed.

(** ** Flows, and what the linear program says *)

Definition inner (i : node) : bool := negb (node_eqb i Source || node_eqb i Sink).

Definition inflow (g : DiGraph) (f : edge -> Q) (i : node) : Q :=
  Qsum (map (fun p => f (p, i)) (pred_of g i)).

Definition outflow (g : DiGraph) (f : edge -> Q) (i : node) : Q :=
  Qsum (map (fun j => f (i, j)) (succ_of g i)).

(** A flow of value [F]: within the capacities, conserved at every node
    but the two terminals, leaving [Source] and entering [Sink] with
    [F]. *)
Record feasible_flow (g : DiGraph) (f : edge -> Q) (F : Q) : Prop := {
  flow_capacity : forall e c, In (e, c) (edges g) -> (f e <= inject_Z c)%Q;
  flow_conserved :
    forall i, In i (nodes g) -> inner i = true -> (inflow g f i == outflow g f i)%Q;
  flow_source : (F == outflow g f Source)%Q;
  flow_sink : (inflow g f Sink == F)%Q;
  flow_nonneg : forall e, In e (dict_keys (edges g)) -> (0 <= f e)%Q
}.

Definition lp_solution (P : Problem) (x : lpvar -> Q) : Prop :=
  Forall (sat x) (constraints P).

Definition objective_value (P : Problem) (x : lpvar -> Q) : Q :=
  match objective P with
  | Some (_, e) => eval x e
  | None => 0%Q
  end.

(** [v] is the optimum of a maximisation problem. *)
Definition lp_maximum (P : Problem) (v : Q) : Prop :=
  (exists x, lp_solution P x /\ (objective_value P x == v)%Q) /\
  (forall y, lp_solution P y -> (objective_value P y <= v)%Q).

(** [v] is the value of a maximum flow with integer values. *)
Definition integral_max_flow (g : DiGraph) (v : Z) : Prop :=
  (exists fz : edge -> Z, feasible_flow g (fun e => inject_Z (fz e)) (inject_Z v)) /\
  (forall (fz : edge -> Z) (v' : Z),
     feasible_flow g (fun e => inject_Z (fz e)) (inject_Z v') -> v' <= v).

Lemma constraints_add_variables (vs : list edge) (p : Problem) :
  constraints (fold_left (fun p e => add_variable (Varf e) p) vs p) = constraints p.
Proof.
  revert p. induction vs as [|e vs IH]; intro p; simpl; [reflexivity|].
  now rewrite IH.
Qed.

Lemma flow_problem_constraints (g : DiGraph) :
  constraints (flow_problem g) =
  map (fun ec : edge * Z => Cle (EVar (Varf (fst ec))) (EConst (snd ec))) (edges g) ++
  map (fun i =>
         Ceq (ESum (map (fun p => Varf (p, i)) (pred_of g i)))
             (ESum (map (fun j => Varf (i, j)) (succ_of g i))))
      (filter inner (nodes g)) ++
  [Ceq (EVar VarF) (ESum (map (fun j => Varf (Source, j)) (succ_of g Source)))] ++
  [Ceq (ESum (map (fun p => Varf (p, Sink)) (pred_of g Sink))) (EVar VarF)] ++
  map (fun e => Cge (EVar (Varf e)) (EConst 0)) (dict_keys (edges g)).
Proof.
  unfold flow_problem, set_objective, add_constraint, add_list_of_constraints, add_variable.
  simpl. rewrite constraints_add_variables. simpl.
  rewrite <- !app_assoc. f_equal.
  apply map_ext. now intros [e c].
Qed.

Lemma flow_problem_objective (g : DiGraph) (x : lpvar -> Q) :
  objective_value (flow_problem g) x = x VarF.
Proof. reflexivity. Qed.

(** The solutions of the program are the feasible flows. *)
Lemma lp_solution_flow (g : DiGraph) (x : lpvar -> Q) :
  lp_solution (flow_problem g) x <-> feasible_flow g (fun e => x (Varf e)) (x VarF).
Proof.
  unfold lp_solution. rewrite flow_problem_constraints.
  rewrite !Forall_app, !Forall_map, !Forall_forall. simpl.
  unfold inflow, outflow. split.
  - intros (Hcap & Hcons & Hsrc & Hsnk & Hnn). split.
    + intros e c Hin. exact (Hcap _ Hin).
    + intros i Hi Hinner. specialize (Hcons i). rewrite !map_map in Hcons.
      apply Hcons. apply filter_In. now split.
    + specialize (Hsrc _ (or_introl eq_refl)). simpl in Hsrc.
      now rewrite map_map in Hsrc.
    + specialize (Hsnk _ (or_introl eq_refl)). simpl in Hsnk.
      now rewrite map_map in Hsnk.
    + intros e He. exact (Hnn e He).
  - intros [Hcap Hcons Hsrc Hsnk Hnn]. repeat split.
    + intros [e c] Hin. exact (Hcap e c Hin).
    + intros i Hi. apply filter_In in Hi. destruct Hi as [Hi Hinner].
      rewrite !map_map. now apply Hcons.
    + intros c [<-|[]]. simpl. now rewrite map_map.
    + intros c [<-|[]]. simpl. now rewrite map_map.
    + intros e He. exact (Hnn e He).
Qed.

(** ** Sums over the edges *)

Lemma Qsum_map_ext {A : Type} (h h' : A -> Q) (l : list A) :
  (forall a, In a l -> (h a == h' a)%Q) -> (Qsum (map h l) == Qsum (map h' l))%Q.
Proof.
  induction l as [|a l IH]; intro H; simpl; [reflexivity|].
  rewrite (H a) by now left. rewrite IH; [reflexivity|].
  intros b Hb. apply H. now right.
Qed.

Lemma Qsum_map_le {A : Type} (h h' : A -> Q) (l : list A) :
  (forall a, In a l -> (h a <= h' a)%Q) -> (Qsum (map h l) <= Qsum (map h' l))%Q.
Proof.
  induction l as [|a l IH]; intro H; simpl; [lra|].
  assert (h a <= h' a)%Q by (apply H; now left).
  assert (Qsum (map h l) <= Qsum (map h' l))%Q by (apply IH; intros b Hb; apply H; now right).
  lra.
Qed.

Lemma Qsum_map_plus {A : Type} (h h' : A -> Q) (l : list A) :
  (Qsum (map (fun a => h a + h' a) l) == Qsum (map h l) + Qsum (map h' l))%Q.
Proof. induction l as [|a l IH]; simpl; lra. Qed.

Lemma Qsum_map_minus {A : Type} (h h' : A -> Q) (l : list A) :
  (Qsum (map (fun a => h a - h' a) l) == Qsum (map h l) - Qsum (map h' l))%Q.
Proof. induction l as [|a l IH]; simpl; lra. Qed.

Lemma Qsum_map_zero {A : Type} (h : A -> Q) (l : list A) :
  (forall a, In a l -> (h a == 0)%Q) -> (Qsum (map h l) == 0)%Q.
Proof.
  induction l as [|a l IH]; intro H; simpl; [reflexivity|].
  rewrite (H a) by now left. rewrite IH; [lra|].
  intros b Hb. apply H. now right.
Qed.

(** The part of a flow that passes a test on the edges. *)
Definition part (test : edge -> bool) (f : edge -> Q) (e : edge) : Q :=
  if test e then f e else 0%Q.

(** Changing the flow on one edge changes a sum over distinct edges by
    the change on that edge, if the edge is counted. *)
Lemma Qsum_part_update (test : edge -> bool) (f : edge -> Q) (e0 : edge) (d : Q)
    (l : list edge) :
  NoDup l ->
  (Qsum (map (part test (fun e => if edge_eqb e e0 then f e + d else f e)) l) ==
   Qsum (map (part test f) l) +
   (if existsb (edge_eqb e0) l then part test (fun _ => d) e0 else 0))%Q.
Proof.
  induction l as [|e l IH]; intro Hnd; simpl; [lra|].
  inversion Hnd as [|? ? Hn Hd]; subst. rewrite (IH Hd). unfold part.
  destruct (edge_eqb e e0) eqn:Ee.
  - apply edge_eqb_eq in Ee. subst e0.
    rewrite (proj2 (edge_eqb_eq e e) eq_refl). simpl.
    assert (Hno : existsb (edge_eqb e) l = false).
    { destruct (existsb (edge_eqb e) l) eqn:Ex; [|reflexivity].
      apply existsb_exists in Ex. destruct Ex as (x & Hx & Hex).
      apply edge_eqb_eq in Hex. subst. contradiction. }
    rewrite Hno. destruct (test e); lra.
  - assert (Hne : edge_eqb e0 e = false).
    { destruct (edge_eqb e0 e) eqn:Ee'; [|reflexivity].
      apply edge_eqb_eq in Ee'. subst.
      rewrite (proj2 (edge_eqb_eq e e) eq_refl) in Ee. discriminate. }
    rewrite Hne. simpl. destruct (test e); lra.
Qed.

Definition enters (i : node) (e : edge) : bool := node_eqb (snd e) i.
Definition leaves (i : node) (e : edge) : bool := node_eqb (fst e) i.

Lemma inflow_part (g : DiGraph) (f : edge -> Q) (i : node) :
  (inflow g f i == Qsum (map (part (enters i) f) (dict_keys (edges g))))%Q.
Proof.
  unfold inflow, pred_of. induction (dict_keys (edges g)) as [|e l IH]; simpl;
    [reflexivity|].
  unfold part at 1, enters at 1. destruct (node_eqb (snd e) i) eqn:Ei; simpl.
  - apply node_eqb_eq in Ei. subst i. rewrite <- surjective_pairing. rewrite IH. reflexivity.
  - rewrite IH. lra.
Qed.

Lemma outflow_part (g : DiGraph) (f : edge -> Q) (i : node) :
  (outflow g f i == Qsum (map (part (leaves i) f) (dict_keys (edges g))))%Q.
Proof.
  unfold outflow, succ_of. induction (dict_keys (edges g)) as [|e l IH]; simpl;
    [reflexivity|].
  unfold part at 1, leaves at 1. destruct (node_eqb (fst e) i) eqn:Ei; simpl.
  - apply node_eqb_eq in Ei. subst i. rewrite <- surjective_pairing. rewrite IH. reflexivity.
  - rewrite IH. lra.
Qed.

(** What leaves a node minus what enters it. *)
Definition net (g : DiGraph) (f : edge -> Q) (i : node) : Q :=
  (outflow g f i - inflow g f i)%Q.

Lemma net_ext (g : DiGraph) (f f' : edge -> Q) (i : node) :
  (forall e, In e (dict_keys (edges g)) -> (f e == f' e)%Q) ->
  (net g f i == net g f' i)%Q.
Proof.
  intro H. unfold net. rewrite !inflow_part, !outflow_part.
  assert (H1 : (Qsum (map (part (leaves i) f) (dict_keys (edges g))) ==
                Qsum (map (part (leaves i) f') (dict_keys (edges g))))%Q).
  { apply Qsum_map_ext. intros e He. unfold part. destruct (leaves i e); [now apply H|reflexivity]. }
  assert (H2 : (Qsum (map (part (enters i) f) (dict_keys (edges g))) ==
                Qsum (map (part (enters i) f') (dict_keys (edges g))))%Q).
  { apply Qsum_map_ext. intros e He. unfold part. destruct (enters i e); [now apply H|reflexivity]. }
  lra.
Qed.

Definition unit_at (i n : node) : Q := if node_eqb i n then 1%Q else 0%Q.

(** One more (or one less) unit on an edge moves one unit of net flow
    from its head to its tail. *)
Lemma net_update (g : DiGraph) (f : edge -> Q) (e0 : edge) (d : Q) (i : node) :
  NoDup (dict_keys (edges g)) -> In e0 (dict_keys (edges g)) ->
  (net g (fun e => if edge_eqb e e0 then f e + d else f e) i ==
   net g f i + d * unit_at (fst e0) i - d * unit_at (snd e0) i)%Q.
Proof.
  intros Hnd Hin. unfold net. rewrite !inflow_part, !outflow_part.
  rewrite !Qsum_part_update by assumption.
  assert (Hex : existsb (edge_eqb e0) (dict_keys (edges g)) = true).
  { apply existsb_exists. exists e0. split; [assumption|now apply edge_eqb_eq]. }
  rewrite Hex. unfold part, leaves, enters, unit_at.
  destruct (node_eqb (fst e0) i), (node_eqb (snd e0) i); lra.
Qed.

(** Is the node on the source side of the cut? *)
Definition side (S : list node) (n : node) : Q :=
  if existsb (node_eqb n) S then 1%Q else 0%Q.

Lemma existsb_node_In (S : list node) (n : node) :
  existsb (node_eqb n) S = true <-> In n S.
Proof.
  rewrite existsb_exists. split.
  - intros (x & Hx & E). apply node_eqb_eq in E. now subst.
  - intro H. exists n. split; [assumption|apply node_eqb_refl].
Qed.

(** Summing the net flow over one side of a cut leaves the flow across
    the cut. *)
Lemma cut_sum (g : DiGraph) (f : edge -> Q) (S : list node) :
  NoDup S ->
  (Qsum (map (net g f) S) ==
   Qsum (map (fun e => (side S (fst e) - side S (snd e)) * f e) (dict_keys (edges g))))%Q.
Proof.
  induction S as [|n S IH]; intro Hnd; simpl.
  - symmetry. apply Qsum_map_zero. intros e _. unfold side. simpl. lra.
  - inversion Hnd as [|? ? Hn Hd]; subst. rewrite (IH Hd).
    unfold net at 1. rewrite inflow_part, outflow_part.
    rewrite <- Qsum_map_minus, <- Qsum_map_plus.
    apply Qsum_map_ext. intros e He. unfold part, leaves, enters, side. simpl.
    assert (Hside : forall x, node_eqb x n = true -> existsb (node_eqb x) S = false).
    { intros x Hx. apply node_eqb_eq in Hx. subst x.
      destruct (existsb (node_eqb n) S) eqn:Ex; [|reflexivity].
      apply existsb_node_In in Ex. contradiction. }
    destruct (node_eqb (fst e) n) eqn:E1, (node_eqb (snd e) n) eqn:E2; simpl;
      rewrite ?(Hside _ E1), ?(Hside _ E2);
      destruct (existsb (node_eqb (fst e)) S), (existsb (node_eqb (snd e)) S); lra.
Qed.

(** ** Maximum flow and minimum cut *)

Definition cap (g : DiGraph) (e : edge) : Z :=
  match dict_get edge_eqb (edges g) e with
  | Some c => c
  | None => 0
  end.

(** An integer flow read as a rational one. *)
Definition qz (fz : edge -> Z) (e : edge) : Q := inject_Z (fz e).

(** Can one more unit go from [u] to [w], forward along an edge with
    room left or backward along an edge that carries flow? *)
Definition can_push (g : DiGraph) (fz : edge -> Z) (u w : node) : bool :=
  existsb (fun e => (edge_eqb e (u, w) && (fz e <? cap g e)) ||
                    (edge_eqb e (w, u) && (0 <? fz e)))
          (dict_keys (edges g)).

(** The nodes one can push to from [Source], found one at a time. *)
Fixpoint reach_grow (g : DiGraph) (fz : edge -> Z) (fuel : nat) (S : list node) : list node :=
  match fuel with
  | O => S
  | Datatypes.S fuel' =>
      match find (fun w => negb (existsb (node_eqb w) S) &&
                           existsb (fun u => can_push g fz u w) S) (nodes g) with
      | Some w => reach_grow g fz fuel' (w :: S)
      | None => S
      end
  end.

Definition residual_reach (g : DiGraph) (fz : edge -> Z) : list node :=
  reach_grow g fz (Datatypes.S (List.length (nodes g))) [Source].

Section MaxFlowMinCut.

Variable g : DiGraph.
Hypothesis Hg : graph_ok g.
Hypothesis Hterm :
  forall e, In e (dict_keys (edges g)) -> snd e <> Source /\ fst e <> Sink.

Variable fz : edge -> Z.
Variable v : Z.
Hypothesis Hfz : feasible_flow g (qz fz) (inject_Z v).

Lemma cap_In e c : In (e, c) (edges g) -> cap g e = c.
Proof.
  intro H. unfold cap.
  now rewrite (dict_get_NoDup edge_eqb edge_eqb_eq _ _ _ (proj1 Hg) H).
Qed.

Lemma In_cap e : In e (dict_keys (edges g)) -> In (e, cap g e) (edges g).
Proof.
  intro H. destruct (dict_get_key edge_eqb edge_eqb_eq _ _ H) as [c Hc].
  unfold cap. rewrite Hc. now apply (dict_get_In edge_eqb edge_eqb_eq).
Qed.

Lemma inflow_Source f : (inflow g f Source == 0)%Q.
Proof.
  rewrite inflow_part. apply Qsum_map_zero. intros e He.
  unfold part, enters. destruct (node_eqb (snd e) Source) eqn:E; [|reflexivity].
  apply node_eqb_eq in E. now destruct (Hterm e He).
Qed.

Lemma outflow_Sink f : (outflow g f Sink == 0)%Q.
Proof.
  rewrite outflow_part. apply Qsum_map_zero. intros e He.
  unfold part, leaves. destruct (node_eqb (fst e) Sink) eqn:E; [|reflexivity].
  apply node_eqb_eq in E. now destruct (Hterm e He).
Qed.

(** [pushed S w fz']: [fz'] stays within the capacities, differs from
    [fz] only on edges inside [S], and carries one unit more from
    [Source] to [w]. *)
Definition pushed (S : list node) (w : node) (fz' : edge -> Z) : Prop :=
  (forall e, In e (dict_keys (edges g)) -> 0 <= fz' e <= cap g e) /\
  (forall e, In e (dict_keys (edges g)) ->
     ~ In (fst e) S \/ ~ In (snd e) S -> fz' e = fz e) /\
  (forall n, (net g (qz fz') n == net g (qz fz) n + unit_at Source n - unit_at w n)%Q).

Lemma fz_within e : In e (dict_keys (edges g)) -> 0 <= fz e <= cap g e.
Proof.
  intro He. split.
  - pose proof (flow_nonneg _ _ _ Hfz e He) as H. unfold qz in H.
    now rewrite (Zle_Qle 0 (fz e)).
  - pose proof (flow_capacity _ _ _ Hfz e _ (In_cap e He)) as H. unfold qz in H.
    now rewrite (Zle_Qle (fz e) (cap g e)).
Qed.

Lemma pushed_source (S : list node) : pushed S Source fz.
Proof.
  repeat split; try now apply fz_within.
  intro n. lra.
Qed.

Lemma pushed_mono (S S' : list node) w fz' :
  incl S S' -> pushed S w fz' -> pushed S' w fz'.
Proof.
  intros Hincl (H1 & H2 & H3). repeat split; try now apply H1. 2: exact H3.
  intros e He [Hn|Hn]; apply H2; try assumption; [left|right];
    intro Hin; apply Hn, Hincl, Hin.
Qed.

Lemma can_push_edge u w :
  can_push g fz u w = true ->
  (In (u, w) (dict_keys (edges g)) /\ fz (u, w) < cap g (u, w)) \/
  (In (w, u) (dict_keys (edges g)) /\ 0 < fz (w, u)).
Proof.
  unfold can_push. rewrite existsb_exists. intros (e & He & Hc).
  apply orb_true_iff in Hc. destruct Hc as [Hc|Hc]; apply andb_true_iff in Hc;
    destruct Hc as [Heq Hlt]; apply edge_eqb_eq in Heq; subst e;
    apply Z.ltb_lt in Hlt; auto.
Qed.

Lemma edge_can_push u w :
  (In (u, w) (dict_keys (edges g)) /\ fz (u, w) < cap g (u, w)) \/
  (In (w, u) (dict_keys (edges g)) /\ 0 < fz (w, u)) ->
  can_push g fz u w = true.
Proof.
  intro H. unfold can_push. apply existsb_exists.
  destruct H as [[Hin Hlt]|[Hin Hlt]].
  - exists (u, w). split; [assumption|]. apply orb_true_iff. left.
    apply andb_true_iff. split; [now apply edge_eqb_eq|now apply Z.ltb_lt].
  - exists (w, u). split; [assumption|]. apply orb_true_iff. right.
    apply andb_true_iff. split; [now apply edge_eqb_eq|now apply Z.ltb_lt].
Qed.

(** The flow [fz'] with [d] more on the edge [e0]. *)
Definition bump (fz' : edge -> Z) (e0 : edge) (d : Z) (e : edge) : Z :=
  if edge_eqb e e0 then fz' e + d else fz' e.

Lemma net_bump fz' e0 d n :
  In e0 (dict_keys (edges g)) ->
  (net g (qz (bump fz' e0 d)) n ==
   net g (qz fz') n + inject_Z d * unit_at (fst e0) n - inject_Z d * unit_at (snd e0) n)%Q.
Proof.
  intro Hin. rewrite <- (net_update g (qz fz') e0 (inject_Z d) n (proj1 Hg) Hin).
  apply net_ext. intros e _. unfold qz, bump.
  destruct (edge_eqb e e0); [now rewrite inject_Z_plus|reflexivity].
Qed.

Lemma unit_at_sym i n : unit_at i n = unit_at n i.
Proof.
  unfold unit_at. destruct (node_eqb i n) eqn:E.
  - apply node_eqb_eq in E. subst. now rewrite node_eqb_refl.
  - destruct (node_eqb n i) eqn:E'; [|reflexivity].
    apply node_eqb_eq in E'. subst. rewrite node_eqb_refl in E. discriminate.
Qed.

(** One step further: from a node already reached to a new one. *)
Lemma pushed_step (S : list node) u w fz' :
  In u S -> ~ In w S -> can_push g fz u w = true ->
  pushed S u fz' -> exists fz'', pushed (w :: S) w fz''.
Proof.
  intros Hu Hw Hpush (H1 & H2 & H3).
  apply can_push_edge in Hpush.
  destruct Hpush as [[Hin Hroom]|[Hin Hflow]].
  - exists (bump fz' (u, w) 1).
    assert (Hsame : fz' (u, w) = fz (u, w)) by (apply H2; [assumption|now right]).
    repeat split.
    + unfold bump. destruct (edge_eqb e (u, w)) eqn:E; [|now apply H1].
      apply edge_eqb_eq in E. subst e. pose proof (H1 _ Hin). lia.
    + unfold bump. destruct (edge_eqb e (u, w)) eqn:E; [|now apply H1].
      apply edge_eqb_eq in E. subst e. lia.
    + intros e He Hout. unfold bump. destruct (edge_eqb e (u, w)) eqn:E.
      * apply edge_eqb_eq in E. subst e. simpl in Hout.
        destruct Hout as [Hn|Hn]; exfalso; apply Hn; simpl; auto.
      * apply H2; [assumption|].
        destruct Hout as [Hn|Hn]; [left|right]; intro Hi; apply Hn; now right.
    + intro n. rewrite (net_bump fz' (u, w) 1 n Hin), (H3 n). simpl.
      rewrite (unit_at_sym u n), (unit_at_sym w n).
      change (inject_Z 1) with 1%Q. lra.
  - exists (bump fz' (w, u) (-1)).
    assert (Hsame : fz' (w, u) = fz (w, u)) by (apply H2; [assumption|now left]).
    repeat split.
    + unfold bump. destruct (edge_eqb e (w, u)) eqn:E; [|now apply H1].
      apply edge_eqb_eq in E. subst e. lia.
    + unfold bump. destruct (edge_eqb e (w, u)) eqn:E; [|now apply H1].
      apply edge_eqb_eq in E. subst e. pose proof (H1 _ Hin). lia.
    + intros e He Hout. unfold bump. destruct (edge_eqb e (w, u)) eqn:E.
      * apply edge_eqb_eq in E. subst e. simpl in Hout.
        destruct Hout as [Hn|Hn]; exfalso; apply Hn; simpl; auto.
      * apply H2; [assumption|].
        destruct Hout as [Hn|Hn]; [left|right]; intro Hi; apply Hn; now right.
    + intro n. rewrite (net_bump fz' (w, u) (-1) n Hin), (H3 n). simpl.
      rewrite (unit_at_sym u n), (unit_at_sym w n).
      change (inject_Z (-1)) with (-(1))%Q. lra.
Qed.

(** What holds of the set of reached nodes while it grows. *)
Definition reach_inv (S : list node) : Prop :=
  NoDup S /\ incl S (Source :: nodes g) /\ In Source S /\
  forall w, In w S -> exists fz', pushed S w fz'.

Definition closed (S : list node) : Prop :=
  forall u w, In u S -> In w (nodes g) -> can_push g fz u w = true -> In w S.

Lemma reach_inv_start : reach_inv [Source].
Proof.
  repeat split.
  - constructor; [intros []|constructor].
  - intros x [<-|[]]. now left.
  - now left.
  - intros w [<-|[]]. exists fz. apply pushed_source.
Qed.

Lemma reach_inv_step (S : list node) (w : node) :
  reach_inv S ->
  find (fun w => negb (existsb (node_eqb w) S) &&
                 existsb (fun u => can_push g fz u w) S) (nodes g) = Some w ->
  reach_inv (w :: S).
Proof.
  intros (Hnd & Hincl & Hsrc & Hpushed) Hfind.
  apply find_some in Hfind. destruct Hfind as [Hw Hc].
  apply andb_true_iff in Hc. destruct Hc as [Hnew Hfrom].
  apply negb_true_iff in Hnew.
  assert (Hnot : ~ In w S).
  { intro Hin. apply existsb_node_In in Hin. congruence. }
  apply existsb_exists in Hfrom. destruct Hfrom as (u & Hu & Hpush).
  repeat split.
  - now constructor.
  - intros x [<-|Hx]; [now right|now apply Hincl].
  - now right.
  - intros x [E|Hx].
    + subst x. destruct (Hpushed u Hu) as [fz' Hfz'].
      now apply (pushed_step S u w fz').
    + destruct (Hpushed x Hx) as [fz' Hfz']. exists fz'.
      apply (pushed_mono S); [|assumption]. intros y Hy. now right.
Qed.

Lemma reach_grow_inv (fuel : nat) (S : list node) :
  reach_inv S -> reach_inv (reach_grow g fz fuel S).
Proof.
  revert S. induction fuel as [|fuel IH]; intros S Hinv; simpl; [assumption|].
  destruct (find _ (nodes g)) as [w|] eqn:Hfind; [|assumption].
  apply IH. now apply reach_inv_step.
Qed.

Lemma reach_grow_closed (fuel : nat) (S : list node) :
  reach_inv S ->
  (List.length (Source :: nodes g) < List.length S + fuel)%nat ->
  closed (reach_grow g fz fuel S).
Proof.
  revert S. induction fuel as [|fuel IH]; intros S Hinv Hlen; simpl.
  - exfalso. destruct Hinv as (Hnd & Hincl & _).
    pose proof (NoDup_incl_length Hnd Hincl). lia.
  - destruct (find _ (nodes g)) as [w|] eqn:Hfind.
    + apply IH; [now apply reach_inv_step|]. simpl in *. lia.
    + intros u w Hu Hw Hpush.
      pose proof (find_none _ _ Hfind w Hw) as Hnone. simpl in Hnone.
      apply andb_false_iff in Hnone. destruct Hnone as [Hnone|Hnone].
      * apply negb_false_iff in Hnone. now apply existsb_node_In.
      * exfalso. assert (Hex : existsb (fun u => can_push g fz u w) S = true)
          by (apply existsb_exists; now exists u).
        congruence.
Qed.

Lemma residual_reach_inv : reach_inv (residual_reach g fz).
Proof. apply reach_grow_inv, reach_inv_start. Qed.

Lemma residual_reach_closed : closed (residual_reach g fz).
Proof. apply reach_grow_closed; [apply reach_inv_start|simpl; lia]. Qed.

Lemma inner_not_terminal (i : node) : inner i = true <-> i <> Source /\ i <> Sink.
Proof.
  unfold inner. rewrite negb_true_iff, orb_false_iff.
  split; intros [H1 H2]; split.
  - intro E. apply node_eqb_eq in E. congruence.
  - intro E. apply node_eqb_eq in E. congruence.
  - destruct (node_eqb i Source) eqn:E; [apply node_eqb_eq in E; contradiction|reflexivity].
  - destruct (node_eqb i Sink) eqn:E; [apply node_eqb_eq in E; contradiction|reflexivity].
Qed.

Lemma unit_at_neq (i n : node) : i <> n -> unit_at i n = 0%Q.
Proof.
  intro H. unfold unit_at. destruct (node_eqb i n) eqn:E; [|reflexivity].
  apply node_eqb_eq in E. contradiction.
Qed.

Lemma unit_at_eq (i : node) : unit_at i i = 1%Q.
Proof. unfold unit_at. now rewrite node_eqb_refl. Qed.

(** A flow pushed as far as [Sink] is a flow of value [v + 1]. *)
Lemma pushed_to_sink (S : list node) (fz' : edge -> Z) :
  pushed S Sink fz' -> feasible_flow g (qz fz') (inject_Z (v + 1)).
Proof.
  intros (H1 & H2 & H3).
  assert (Hst : Source <> Sink) by discriminate.
  split.
  - intros e c Hin. rewrite <- (cap_In e c Hin). unfold qz. rewrite <- Zle_Qle.
    apply H1. change e with (fst (e, c)). now apply in_map.
  - intros i Hi Hinner. apply inner_not_terminal in Hinner. destruct Hinner as [Hs Ht].
    pose proof (H3 i) as Hn. pose proof (flow_conserved _ _ _ Hfz i Hi) as Hc.
    rewrite (proj2 (inner_not_terminal i)) in Hc by now split.
    specialize (Hc eq_refl).
    rewrite (unit_at_neq Source i), (unit_at_neq Sink i) in Hn by congruence.
    unfold net in Hn. lra.
  - pose proof (H3 Source) as Hn.
    rewrite unit_at_eq, (unit_at_neq Sink Source) in Hn by congruence.
    unfold net in Hn. rewrite !inflow_Source in Hn.
    pose proof (flow_source _ _ _ Hfz). rewrite inject_Z_succ. lra.
  - pose proof (H3 Sink) as Hn.
    rewrite unit_at_eq, (unit_at_neq Source Sink) in Hn by congruence.
    unfold net in Hn. rewrite !outflow_Sink in Hn.
    pose proof (flow_sink _ _ _ Hfz). rewrite inject_Z_succ. lra.
  - intros e He. unfold qz. rewrite <- (Zle_Qle 0). now apply H1.
Qed.

Lemma Qsum_unit (S : list node) (a : node) (q : Q) :
  NoDup S -> In a S ->
  (Qsum (map (fun n => if node_eqb n a then q else 0) S) == q)%Q.
Proof.
  induction S as [|n S IH]; intros Hnd Hin; [destruct Hin|]. simpl.
  inversion Hnd as [|? ? Hn Hd]; subst.
  destruct (node_eqb n a) eqn:E.
  - apply node_eqb_eq in E. subst n.
    rewrite Qsum_map_zero; [lra|]. intros m Hm.
    destruct (node_eqb m a) eqn:E'; [|reflexivity].
    apply node_eqb_eq in E'. subst. contradiction.
  - destruct Hin as [->|Hin]; [rewrite node_eqb_refl in E; discriminate|].
    rewrite IH by assumption. lra.
Qed.

(** The net flow out of a set that holds [Source], not [Sink], is the
    value of the flow. *)
Lemma side_sum (S : list node) (h : edge -> Q) (F : Q) :
  feasible_flow g h F ->
  NoDup S -> incl S (Source :: nodes g) -> In Source S -> ~ In Sink S ->
  (Qsum (map (net g h) S) == F)%Q.
Proof.
  intros Hh Hnd Hincl Hsrc Hsnk.
  rewrite <- (Qsum_unit S Source F Hnd Hsrc).
  apply Qsum_map_ext. intros n Hn. unfold net.
  destruct (node_eqb n Source) eqn:E.
  - apply node_eqb_eq in E. subst n. rewrite inflow_Source.
    pose proof (flow_source _ _ _ Hh). lra.
  - assert (Hne : n <> Source) by (intro; subst; rewrite node_eqb_refl in E; discriminate).
    assert (Hnode : In n (nodes g)).
    { destruct (Hincl n Hn) as [<-|H]; [contradiction|assumption]. }
    assert (Hinner : inner n = true).
    { apply inner_not_terminal. split; [assumption|]. intro. now subst. }
    pose proof (flow_conserved _ _ _ Hh n Hnode Hinner). lra.
Qed.

(** No flow, integral or not, carries more than a maximum integral
    flow: the nodes that can still be reached from [Source] form a cut
    whose forward edges are full and whose backward edges are empty. *)
Lemma max_flow_min_cut (h : edge -> Q) (F : Q) :
  (forall (fz' : edge -> Z) (v' : Z),
     feasible_flow g (qz fz') (inject_Z v') -> v' <= v) ->
  feasible_flow g h F -> (F <= inject_Z v)%Q.
Proof.
  intros Hmax Hh.
  set (S := residual_reach g fz).
  pose proof residual_reach_inv as Hinv. fold S in Hinv.
  pose proof residual_reach_closed as Hclosed. fold S in Hclosed.
  destruct Hinv as (Hnd & Hincl & Hsrc & Hpushed).
  assert (Hsnk : ~ In Sink S).
  { intro Hin. destruct (Hpushed Sink Hin) as [fz' Hfz'].
    pose proof (Hmax fz' (v + 1) (pushed_to_sink S fz' Hfz')). lia. }
  rewrite <- (side_sum S h F Hh Hnd Hincl Hsrc Hsnk).
  rewrite <- (side_sum S (qz fz) (inject_Z v) Hfz Hnd Hincl Hsrc Hsnk).
  rewrite !cut_sum by assumption.
  apply Qsum_map_le. intros e He.
  destruct (proj2 Hg e He) as [Hfst Hsndn].
  pose proof (fz_within e He) as Hw.
  pose proof (flow_capacity _ _ _ Hh e _ (In_cap e He)) as Hcap.
  pose proof (flow_nonneg _ _ _ Hh e He) as Hnn.
  unfold side, qz.
  destruct (existsb (node_eqb (fst e)) S) eqn:E1, (existsb (node_eqb (snd e)) S) eqn:E2;
    try lra.
  - apply existsb_node_In in E1.
    assert (Hfull : cap g e <= fz e).
    { destruct (Z_le_gt_dec (cap g e) (fz e)) as [Hle|Hgt]; [assumption|].
      exfalso. assert (Hin : In (snd e) S).
      { apply (Hclosed (fst e) (snd e) E1 Hsndn). apply edge_can_push. left.
        rewrite <- surjective_pairing. split; [assumption|lia]. }
      apply existsb_node_In in Hin. congruence. }
    rewrite Zle_Qle in Hfull. lra.
  - apply existsb_node_In in E2.
    assert (Hempty : fz e <= 0).
    { destruct (Z_le_gt_dec (fz e) 0) as [Hle|Hgt]; [assumption|].
      exfalso. assert (Hin : In (fst e) S).
      { apply (Hclosed (snd e) (fst e) E2 Hfst). apply edge_can_push. right.
        rewrite <- surjective_pairing. split; [assumption|lia]. }
      apply existsb_node_In in Hin. congruence. }
    rewrite Zle_Qle in Hempty. change (inject_Z 0) with 0%Q in Hempty. lra.
Qed.

End MaxFlowMinCut.

Definition terminals_ok (g : DiGraph) : Prop :=
  forall e, In e (dict_keys (edges g)) -> snd e <> Source /\ fst e <> Sink.

(** The optimum of the linear program is the value of a maximum
    integral flow. *)
Lemma max_flow_is_lp_maximum (g : DiGraph) (v : Z) :
  graph_ok g -> terminals_ok g -> integral_max_flow g v ->
  lp_maximum (flow_problem g) (inject_Z v).
Proof.
  intros Hg Hterm [[fz Hfz] Hmax]. split.
  - exists (fun x => match x with VarF => inject_Z v | Varf e => qz fz e end).
    split; [|reflexivity]. now apply lp_solution_flow.
  - intros y Hy. apply lp_solution_flow in Hy. rewrite flow_problem_objective.
    exact (max_flow_min_cut g Hg Hterm fz v Hfz _ _ Hmax Hy).
Qed.

Lemma lp_maximum_unique (P : Problem) (a b : Q) :
  lp_maximum P a -> lp_maximum P b -> (a == b)%Q.
Proof.
  intros [(x & Hx & Ex) Ha] [(y & Hy & Ey) Hb].
  pose proof (Ha y Hy). pose proof (Hb x Hx). lra.
Qed.

(** ** The problem Division.linear_programming builds *)

Lemma has_node_In (g : DiGraph) (n : node) : has_node g n = true <-> In n (nodes g).
Proof. apply existsb_node_In. Qed.

Lemma has_node_not_In (g : DiGraph) (n : node) :
  ~ In n (nodes g) -> has_node g n = false.
Proof.
  intro H. destruct (has_node g n) eqn:E; [|reflexivity].
  apply has_node_In in E. contradiction.
Qed.

Lemma bind_ok {A B : Type} (m : M A) (k : A -> M B) w a w' :
  m w = (Ok a, w') -> bind m k w = k a w'.
Proof. intro H. unfold bind. now rewrite H. Qed.

Lemma bind_raise {A B : Type} (m : M A) (k : A -> M B) w e w' :
  m w = (Raise e, w') -> bind m k w = (Raise e, w').
Proof. intro H. unfold bind. now rewrite H. Qed.

Lemma lift_predecessors (g : DiGraph) (n : node) (w : world) :
  In n (nodes g) -> lift (predecessors g n) w = (Ok (pred_of g n), w).
Proof.
  intro H. unfold lift, predecessors. now rewrite (proj2 (has_node_In g n) H).
Qed.

Lemma lift_successors (g : DiGraph) (n : node) (w : world) :
  In n (nodes g) -> lift (successors g n) w = (Ok (succ_of g n), w).
Proof.
  intro H. unfold lift, successors. now rewrite (proj2 (has_node_In g n) H).
Qed.

(** The flow-conservation constraints: for the nodes of the graph the
    calls of [predecessors] and [successors] succeed. *)
Lemma conservation_rows (g : DiGraph) (l : list node) (w : world) :
  incl l (nodes g) ->
  map_M (fun i =>
           ps <- lift (predecessors g i) ;;
           ss <- lift (successors g i) ;;
           ret (Ceq (ESum (map (fun p => Varf (p, i)) ps))
                    (ESum (map (fun j => Varf (i, j)) ss)))) l w =
  (Ok (map (fun i =>
              Ceq (ESum (map (fun p => Varf (p, i)) (pred_of g i)))
                  (ESum (map (fun j => Varf (i, j)) (succ_of g i)))) l), w).
Proof.
  induction l as [|i l IH]; intro Hl; [reflexivity|].
  assert (Hi : In i (nodes g)) by (apply Hl; now left).
  assert (Hrest : incl l (nodes g)) by (intros x Hx; apply Hl; now right).
  cbn [map_M map].
  erewrite bind_ok.
  2: { erewrite bind_ok by (now apply lift_predecessors).
       erewrite bind_ok by (now apply lift_successors). reflexivity. }
  erewrite bind_ok by (now apply IH). reflexivity.
Qed.

(** With both terminals in the graph, [linear_programming] hands
    [flow_problem] to the solver and compares as [network_flows] does. *)
Lemma linear_programming_problem
    (picos_solve : Problem -> result (lpvar -> Q))
    (saturated_edges : list (string * Z)) (w : world) :
  In Source (nodes (G (self w))) -> In Sink (nodes (G (self w))) ->
  linear_programming picos_solve saturated_edges w =
  (x <- lift (picos_solve (flow_problem (G (self w)))) ;;
   ret (comparing_value saturated_edges >? py_round (x VarF))) w.
Proof.
  intros Hs Ht. unfold linear_programming.
  erewrite bind_ok by reflexivity.
  erewrite bind_ok
    by (apply conservation_rows; intros x Hx; now apply filter_In in Hx).
  erewrite bind_ok by (now apply lift_successors).
  erewrite bind_ok by (now apply lift_predecessors).
  reflexivity.
Qed.

(** ** What is asked of the two solvers *)

(** [networkx]: on this network [maximum_flow] returns the value of a
    maximum flow; with integer capacities its flows are integral. *)
Definition flow_solver_ok
    (maximum_flow : DiGraph -> node -> node -> result Z) (g : DiGraph) : Prop :=
  exists v, maximum_flow g Source Sink = Ok v /\ integral_max_flow g v.

(** [picos] with [cvxopt]: on this problem the solver returns values
    whose objective is within a half of the optimum (it computes in
    floating point, which is why the code rounds [F]). *)
Definition lp_solver_ok
    (picos_solve : Problem -> result (lpvar -> Q)) (P : Problem) : Prop :=
  exists x Fopt, picos_solve P = Ok x /\ lp_maximum P Fopt /\
                 (Qabs (objective_value P x - Fopt) < 1 # 2)%Q.

Definition nonneg_capacities (g : DiGraph) : Prop :=
  Forall (fun ec : edge * Z => 0 <= snd ec) (edges g).

(** In a valid roster no team has a negative number of games left,
    in all or against any one team. *)
Definition valid_roster (ts : list (Z * Team)) : Prop :=
  Forall (fun kt : Z * Team =>
            0 <= remaining (snd kt) /\
            Forall (fun a => 0 <= a) (against (snd kt))) ts.

Lemma py_index_In {A : Type} (l : list A) (i : Z) (a : A) :
  py_index l i = Some a -> In a l.
Proof.
  unfold py_index. destruct (0 <=? i); [apply nth_error_In|].
  destruct (- Z.of_nat (List.length l) <=? i); [apply nth_error_In|discriminate].
Qed.

Lemma games_of_nonneg ts (p : Z * Z) : valid_roster ts -> 0 <= games_of ts p.
Proof.
  intro Hv. unfold games_of.
  destruct (get_against (team_at ts (fst p)) (PyInt (snd p))) as [a|] eqn:Ev; [|lia].
  unfold get_against in Ev.
  destruct (py_index (against (team_at ts (fst p))) (snd p)) as [a'|] eqn:Ea;
    [|discriminate].
  injection Ev as ->. apply py_index_In in Ea. unfold team_at in Ea.
  destruct (dict_get Z.eqb ts (fst p)) as [t|] eqn:Et; [|destruct Ea].
  apply (dict_get_In Z.eqb Z.eqb_eq) in Et.
  unfold valid_roster in Hv. rewrite Forall_forall in Hv.
  destruct (Hv _ Et) as [_ Hag]. simpl in Hag. rewrite Forall_forall in Hag.
  now apply Hag.
Qed.

(** When the trivial check does not fire on a valid roster, no capacity
    of the network is negative. *)
Lemma network_nonneg ts same_object teamID team items :
  valid_roster ts ->
  dict_get Z.eqb ts teamID = Some team ->
  dict_del Z.eqb ts teamID = Some items ->
  out_of_reach team items = false ->
  nonneg_capacities (network_of ts same_object teamID).
Proof.
  intros Hv Hget Hdel Hout. unfold nonneg_capacities.
  eapply Forall_impl; [|apply network_edges].
  intros ec [(t & Ht & ->)|(p & _ & [->|[->| ->]])]; simpl;
    try now apply games_of_nonneg.
  apply sink_teams_In in Ht. destruct Ht as [Ht|(-> & _)].
  - destruct (sink_capacity_item _ _ _ _ _ Hget Hdel Ht) as (other & Ho & ->).
    pose proof (out_of_reach_false _ _ _ _ Hout Ho). lia.
  - unfold sink_capacity, team_at. rewrite Hget.
    apply (dict_get_In Z.eqb Z.eqb_eq) in Hget.
    unfold valid_roster in Hv. rewrite Forall_forall in Hv.
    destruct (Hv _ Hget) as [Hrem _]. simpl in Hrem. lia.
Qed.

(** With solvers that keep to their contracts, the two ways of solving
    return the same verdict on a network with both terminals. *)
Lemma solvers_same_verdict
    (maximum_flow : DiGraph -> node -> node -> result Z)
    (picos_solve : Problem -> result (lpvar -> Q))
    (se : list (string * Z)) (w : world) :
  graph_ok (G (self w)) -> terminals_ok (G (self w)) ->
  In Source (nodes (G (self w))) -> In Sink (nodes (G (self w))) ->
  flow_solver_ok maximum_flow (G (self w)) ->
  lp_solver_ok picos_solve (flow_problem (G (self w))) ->
  network_flows maximum_flow se w = linear_programming picos_solve se w.
Proof.
  intros Hg Hterm Hs Ht (v & Hmf & Hmax) (x & Fopt & Hlp & Hopt & Hnear).
  rewrite linear_programming_problem by assumption.
  unfold network_flows, get_G, lift, bind, ret.
  rewrite Hmf, Hlp.
  pose proof (lp_maximum_unique _ _ _ Hopt (max_flow_is_lp_maximum _ _ Hg Hterm Hmax)) as E.
  rewrite flow_problem_objective in Hnear. rewrite E in Hnear.
  now rewrite (py_round_near _ _ Hnear).
Qed.

Lemma saturated_of_NoDup ts teamID : NoDup (dict_keys (saturated_of ts teamID)).
Proof.
  unfold saturated_of. apply fold_left_inv.
  - constructor.
  - intros se p _ Hse. unfold record_matchup.
    now apply (dict_set_NoDup String.eqb String.eqb_eq).
Qed.

(** On the network of a query both solvers, keeping to their contracts,
    return whether the maximum flow falls short of the games left among
    the other teams. *)
Lemma solvers_on_network
    (maximum_flow : DiGraph -> node -> node -> result Z)
    (picos_solve : Problem -> result (lpvar -> Q))
    (w : world) (same_object : bool) (teamID : Z) :
  let ts := self_teams w in
  let net := network_of ts same_object teamID in
  flow_solver_ok maximum_flow net ->
  lp_solver_ok picos_solve (flow_problem net) ->
  exists v, integral_max_flow net v /\
    network_flows maximum_flow (saturated_of ts teamID) (with_G w net) =
      (Ok (v <? Zsum (dict_values (saturated_of ts teamID))), with_G w net) /\
    linear_programming picos_solve (saturated_of ts teamID) (with_G w net) =
      (Ok (v <? Zsum (dict_values (saturated_of ts teamID))), with_G w net).
Proof.
  intros ts net Hflow Hlp.
  pose proof Hflow as (v & Hmf & Hmax).
  exists v. split; [assumption|].
  assert (Hnf : network_flows maximum_flow (saturated_of ts teamID) (with_G w net) =
                (Ok (v <? Zsum (dict_values (saturated_of ts teamID))), with_G w net)).
  { unfold network_flows, get_G, lift, bind, ret. rewrite G_with_G, Hmf.
    now rewrite Z.gtb_ltb, comparing_value_sum by apply saturated_of_NoDup. }
  split; [assumption|].
  rewrite <- (solvers_same_verdict maximum_flow picos_solve); try assumption;
    rewrite G_with_G.
  - apply graph_ok_network.
  - intros e He. now apply (network_source_sink ts same_object teamID).
  - apply network_terminals.
  - apply network_terminals.
Qed.


(** ** The round-robin roster under both solvers *)

Definition round_robin_network : DiGraph :=
  mkDiGraph
    [Source; Sink; NInt 1; NInt 2; NStr "1_2"]
    [((NInt 1, Sink), 2); ((NInt 2, Sink), 2); ((Source, NStr "1_2"), 1);
     ((NStr "1_2", NInt 1), 1); ((NStr "1_2", NInt 2), 1)].

Lemma round_robin_network_of :
  network_of (self_teams round_robin) true 0 = round_robin_network.
Proof. vm_compute. reflexivity. Qed.

(** The one game between teams 1 and 2 goes to team 1. *)
Definition round_robin_flow (e : edge) : Z :=
  if edge_eqb e (Source, NStr "1_2") || edge_eqb e (NStr "1_2", NInt 1) ||
     edge_eqb e (NInt 1, Sink)
  then 1 else 0.

Lemma round_robin_max_flow : integral_max_flow round_robin_network 1.
Proof.
  split.
  - exists round_robin_flow. split.
    + intros e c Hin. simpl in Hin.
      repeat (destruct Hin as [Hin|Hin];
              [injection Hin as <- <-; vm_compute; discriminate|]).
      destruct Hin.
    + intros i Hi Hinner. simpl in Hi.
      repeat (destruct Hi as [<-|Hi]; [try discriminate Hinner; vm_compute; reflexivity|]).
      destruct Hi.
    + vm_compute. reflexivity.
    + vm_compute. reflexivity.
    + intros e He. simpl in He.
      repeat (destruct He as [<-|He]; [vm_compute; discriminate|]).
      destruct He.
  - intros fz v' [Hcap _ Hsrc _ _].
    specialize (Hcap (Source, NStr "1_2") 1).
    unfold outflow, succ_of in Hsrc. simpl in Hsrc, Hcap.
    assert (H : (inject_Z v' <= inject_Z 1)%Q).
    { rewrite Hsrc. rewrite Qplus_0_r. apply Hcap. auto. }
    now rewrite <- Zle_Qle in H.
Qed.

(** Stand-ins for the two libraries on this network: the flow solver
    returns the flow value 1, the LP solver values whose [F] is off the
    optimum by a thousandth. *)
Definition round_robin_maximum_flow : DiGraph -> node -> node -> result Z :=
  fun _ _ _ => Ok 1.

Definition round_robin_picos_solve : Problem -> result (lpvar -> Q) :=
  fun _ => Ok (fun x => match x with
                        | VarF => 999 # 1000
                        | Varf e => inject_Z (round_robin_flow e)
                        end).



(** On that roster both queries return [False]: team 0 is still in. *)
Lemma round_robin_not_eliminated :
  fst (is_eliminated round_robin_maximum_flow round_robin_picos_solve true 0
         "Network Flows" round_robin) = Ok false /\
  fst (is_eliminated round_robin_maximum_flow round_robin_picos_solve true 0
         "Linear Programming" round_robin) = Ok false.
Proof. split; vm_compute; reflexivity. Qed.

(** ** The query on the network path *)

(** When the trivial check does not fire and the network is built, a
    query with ["Network Flows"] returns the verdict of [network_flows]
    on that network. *)
Lemma is_eliminated_network_flows
    (maximum_flow : DiGraph -> node -> node -> result Z)
    (picos_solve : Problem -> result (lpvar -> Q))
    (w w' : world) (same_object : bool) (teamID : Z) (team : Team) (items : list (Z * Team))
    (se : list (string * Z)) (max_flow : Z) :
  dict_get Z.eqb (self_teams w) teamID = Some team ->
  dict_del Z.eqb (self_teams w) teamID = Some items ->
  out_of_reach team items = false ->
  create_network same_object teamID w = (Ok se, w') ->
  maximum_flow (G (self w')) Source Sink = Ok max_flow ->
  fst (is_eliminated maximum_flow picos_solve same_object teamID "Network Flows" w) =
  Ok (comparing_value se >? max_flow).
Proof.
  intros Hget Hdel Hout Hnet Hmf.
  destruct (is_eliminated_tail maximum_flow picos_solve w same_object teamID "Network Flows"
              team items Hget Hdel) as [-> _].
  rewrite precheck_out_of_reach, Hout. simpl.
  unfold query_tail, bind. rewrite Hnet. simpl.
  unfold network_flows, get_G, lift, bind, ret. now rewrite Hmf.
Qed.

(** [Division.checkTeam] raises for a team whose [ID] is not a key of
    the roster. *)
Lemma checkTeam_unknown (team : Team) (w : world) :
  ~ In (ID team) (dict_keys (self_teams w)) ->
  checkTeam team w = (Raise (ValueError no_team_msg), w).
Proof.
  intro Hnot. unfold checkTeam, get_team_IDs, get_teams_ref, read_dict, bind, ret, raise.
  simpl. fold (self_teams w).
  destruct (existsb (Z.eqb (ID team)) (dict_keys (self_teams w))) eqn:E; [|reflexivity].
  exfalso. apply Hnot. apply existsb_exists in E. destruct E as (k & Hk & Heq).
  apply Z.eqb_eq in Heq. now subst.
Qed.

(** ** A team squeezed out on the network path *)

(** Team 0 has played all its games and is level on wins with teams 1
    and 2, who still meet once: one of them will pass it. *)
Definition squeezed_roster : world :=
  world_of [(0, mkTeam 0 "A"%string 3 1 0 [0; 0; 0]);
            (1, mkTeam 1 "B"%string 3 0 1 [0; 0; 1]);
            (2, mkTeam 2 "C"%string 3 0 1 [0; 1; 0])].

Definition squeezed_network : DiGraph :=
  mkDiGraph
    [Source; Sink; NInt 1; NInt 2; NStr "1_2"]
    [((NInt 1, Sink), 0); ((NInt 2, Sink), 0); ((Source, NStr "1_2"), 1);
     ((NStr "1_2", NInt 1), 1); ((NStr "1_2", NInt 2), 1)].

Lemma squeezed_network_of :
  network_of (self_teams squeezed_roster) true 0 = squeezed_network.
Proof. vm_compute. reflexivity. Qed.

(** Nothing gets through: both edges into the sink have capacity 0. *)
Lemma squeezed_max_flow : integral_max_flow squeezed_network 0.
Proof.
  split.
  - exists (fun _ => 0). split.
    + intros e c Hin. simpl in Hin.
      repeat (destruct Hin as [Hin|Hin];
              [injection Hin as <- <-; vm_compute; discriminate|]).
      destruct Hin.
    + intros i Hi Hinner. simpl in Hi.
      repeat (destruct Hi as [<-|Hi]; [try discriminate Hinner; vm_compute; reflexivity|]).
      destruct Hi.
    + vm_compute. reflexivity.
    + vm_compute. reflexivity.
    + intros e He. vm_compute. discriminate.
  - intros fz v' [Hcap _ _ Hsnk _].
    pose proof (Hcap (NInt 1, Sink) 0) as H1.
    pose proof (Hcap (NInt 2, Sink) 0) as H2.
    unfold inflow, pred_of in Hsnk. simpl in Hsnk, H1, H2.
    assert (H : (inject_Z v' <= inject_Z 0)%Q).
    { rewrite <- Hsnk. change (inject_Z 0) with 0%Q in *.
      assert (qz fz (NInt 1, Sink) <= 0)%Q by (apply H1; auto).
      assert (qz fz (NInt 2, Sink) <= 0)%Q by (apply H2; auto).
      unfold qz in *. lra. }
    now rewrite <- Zle_Qle in H.
Qed.

(** With a flow solver that returns this maximum and an LP solver that
    is off by a little, both queries declare team 0 eliminated: the one
    game left exceeds the flow 0. *)
Lemma squeezed_eliminated :
  let maximum_flow : DiGraph -> node -> node -> result Z := fun _ _ _ => Ok 0 in
  let picos_solve : Problem -> result (lpvar -> Q) :=
    fun _ => Ok (fun x => match x with VarF => 1 # 1000000 | Varf _ => 0%Q end) in
  fst (is_eliminated maximum_flow picos_solve true 0 "Network Flows" squeezed_roster)
    = Ok true /\
  fst (is_eliminated maximum_flow picos_solve true 0 "Linear Programming" squeezed_roster)
    = Ok true.
Proof. split; vm_compute; reflexivity. Qed.

(** ** From the file to the network *)

(** For a division read from a file whose rows list a count for every
    team, the network of a team of the roster gets built, over exactly
    the unordered pairs of the other teams. *)
Lemma create_network_after_init
    (read_lines : string -> result (list (list string)))
    (py_int : string -> result Z)
    (filename : string) (lines : list (list string)) (w0 w : world)
    (same_object : bool) (teamID : Z) :
  read_lines filename = Ok lines ->
  Division_init read_lines py_int filename w0 = (Ok tt, w) ->
  Forall (fun kt => (List.length (self_teams w) <= List.length (against (snd kt)))%nat)
         (self_teams w) ->
  In teamID (dict_keys (self_teams w)) ->
  create_network same_object teamID w =
    (Ok (saturated_of (self_teams w) teamID),
     with_G w (network_of (self_teams w) same_object teamID)) /\
  matchups (self_teams w) teamID = unordered_pairs (others (self_teams w) teamID).
Proof.
  intros Hread Hinit Hrows Hteam.
  pose proof (Division_init_keys read_lines py_int filename lines w0 w Hread Hinit) as Hkeys.
  split.
  - apply create_network_returns. now apply lookups_ok_contiguous.
  - now apply matchups_others.
Qed.

(** * Further properties of the code *)

(** ** Team.get_against inside the list *)

(** X1.  For an index inside Python's range for the list, from [-len] to
    [len - 1], [get_against] returns the entry at position [j mod len]:
    a negative opponent id does not raise, it reads from the end. *)
Theorem get_against_in_range (t : Team) (j : Z) :
  - Z.of_nat (List.length (against t)) <= j < Z.of_nat (List.length (against t)) ->
  get_against t (PyInt j) =
  Ok (nth (Z.to_nat (j mod Z.of_nat (List.length (against t)))) (against t) 0).
Proof.
  intro H. unfold get_against, py_index.
  set (n := Z.of_nat (List.length (against t))) in *.
  assert (Hidx : forall k : nat, (k < List.length (against t))%nat ->
            nth_error (against t) k = Some (nth k (against t) 0)).
  { intros k Hk. now apply nth_error_nth'. }
  destruct (Z.leb_spec 0 j) as [H0|H0].
  - rewrite Z.mod_small by lia. rewrite Hidx by lia. reflexivity.
  - destruct (Z.leb_spec (- n) j) as [_|Hlt]; [|lia].
    replace (j mod n) with (n + j).
    + rewrite Hidx by lia. reflexivity.
    + apply (Z.mod_unique j n (-1) (n + j)); lia.
Qed.

Lemma get_against_in_range_witness :
  get_against level_A (PyInt (-1)) =
  Ok (nth (Z.to_nat (-1 mod Z.of_nat (List.length (against level_A))))
          (against level_A) 0).
Proof. apply (get_against_in_range level_A (-1)). simpl. lia. Defined.

(** ** Division.checkTeam *)

(** X2.  [checkTeam] returns normally exactly for a team whose [ID] is a
    key of the roster and raises [ValueError] otherwise; either way the
    world is left as it is. *)
Theorem checkTeam_spec (team : Team) (w : world) :
  (In (ID team) (dict_keys (self_teams w)) -> checkTeam team w = (Ok tt, w)) /\
  (~ In (ID team) (dict_keys (self_teams w)) ->
   checkTeam team w = (Raise (ValueError no_team_msg), w)).
Proof.
  assert (Hrun : checkTeam team w =
                 if existsb (Z.eqb (ID team)) (dict_keys (self_teams w))
                 then (Ok tt, w) else (Raise (ValueError no_team_msg), w)).
  { unfold checkTeam, get_team_IDs, get_teams_ref, read_dict, bind, ret, raise.
    simpl. fold (self_teams w).
    now destruct (existsb (Z.eqb (ID team)) (dict_keys (self_teams w))). }
  rewrite Hrun.
  destruct (existsb (Z.eqb (ID team)) (dict_keys (self_teams w))) eqn:E.
  - split; [reflexivity|]. intro Hnot. exfalso. apply Hnot.
    apply existsb_exists in E. destruct E as (k & Hk & Heq).
    apply Z.eqb_eq in Heq. now subst.
  - split; [|reflexivity]. intro Hin. exfalso.
    assert (Ht : existsb (Z.eqb (ID team)) (dict_keys (self_teams w)) = true).
    { apply existsb_exists. exists (ID team). split; [assumption|apply Z.eqb_refl]. }
    congruence.
Qed.

Lemma checkTeam_spec_witness :
  (In (ID level_B) (dict_keys (self_teams level_roster)) ->
   checkTeam level_B level_roster = (Ok tt, level_roster)) /\
  (~ In (ID level_B) (dict_keys (self_teams level_roster)) ->
   checkTeam level_B level_roster = (Raise (ValueError no_team_msg), level_roster)).
Proof. apply (checkTeam_spec level_B level_roster). Defined.

(** ** One query after another *)

Lemma world_eta (w : world) : with_G w (G (self w)) = w.
Proof. destruct w as [h [t g]]. reflexivity. Qed.

(** [create_network] starts from a new graph: what [self.G] held before
    plays no part. *)
Lemma create_network_ignores_G (w : world) (g : DiGraph) (same_object : bool)
    (teamID : Z) :
  create_network same_object teamID (with_G w g) = create_network same_object teamID w.
Proof. reflexivity. Qed.

Lemma create_network_keeps_world (w : world) (same_object : bool) (teamID : Z) :
  snd (create_network same_object teamID w) =
  with_G w (G (self (snd (create_network same_object teamID w)))).
Proof.
  destruct (frame_create_network same_object teamID w) as [Hh Ht].
  destruct (snd (create_network same_object teamID w)) as [h [t g]]. simpl in *.
  subst. reflexivity.
Qed.

(** X3.  Building the network for team [b] after having built it for team
    [a] gives what building it for [b] alone gives, the same result or
    exception and the same final world: no trace of the earlier network
    is left. *)
Theorem create_network_afresh (w : world) (same_a same_b : bool) (a b : Z) :
  create_network same_b b (snd (create_network same_a a w)) = create_network same_b b w.
Proof.
  rewrite (create_network_keeps_world w same_a a). apply create_network_ignores_G.
Qed.

Section QueryOrder.

Variable maximum_flow : DiGraph -> node -> node -> result Z.
Variable picos_solve : Problem -> result (lpvar -> Q).

Lemma is_eliminated_keeps_roster (w : world) (same_object : bool) (teamID : Z) (solver : string) :
  self_teams (snd (is_eliminated maximum_flow picos_solve same_object teamID solver w))
    = self_teams w.
Proof.
  destruct (dict_get Z.eqb (self_teams w) teamID) as [team|] eqn:Hget.
  - destruct (is_eliminated_unfold maximum_flow picos_solve w same_object teamID solver team Hget)
      as (items & Hdel & ->).
    pose proof (roster_ref_valid _ _ _ Hget) as Hv.
    destruct (frame_query_tail maximum_flow picos_solve same_object teamID solver
                (precheck team items false) (mkWorld (heap w ++ [items]) (self w)))
      as [Hh Hr].
    simpl in Hh, Hr. unfold self_teams, deref. rewrite Hr, Hh. now apply app_nth1.
  - now rewrite is_eliminated_absent.
Qed.

Lemma query_tail_ignores_G (w : world) (g : DiGraph) same_object teamID solver flag1 :
  query_tail maximum_flow picos_solve same_object teamID solver flag1 (with_G w g) =
  query_tail maximum_flow picos_solve same_object teamID solver flag1 w.
Proof. reflexivity. Qed.

(** The outcome of a query depends on the roster alone. *)
Lemma is_eliminated_same_roster (w1 w2 : world) (same_object : bool) (teamID : Z)
    (solver : string) :
  self_teams w1 = self_teams w2 ->
  fst (is_eliminated maximum_flow picos_solve same_object teamID solver w1) =
  fst (is_eliminated maximum_flow picos_solve same_object teamID solver w2).
Proof.
  intro Hts.
  destruct (dict_get Z.eqb (self_teams w2) teamID) as [team|] eqn:Hget2.
  - assert (Hget1 : dict_get Z.eqb (self_teams w1) teamID = Some team) by now rewrite Hts.
    destruct (dict_del_get Z.eqb _ _ _ Hget2) as [items Hdel2].
    assert (Hdel1 : dict_del Z.eqb (self_teams w1) teamID = Some items) by now rewrite Hts.
    destruct (is_eliminated_tail maximum_flow picos_solve w1 same_object teamID solver team items
                Hget1 Hdel1) as [-> _].
    destruct (is_eliminated_tail maximum_flow picos_solve w2 same_object teamID solver team items
                Hget2 Hdel2) as [-> _].
    rewrite <- (query_tail_ignores_G w1 empty_graph).
    rewrite <- (query_tail_ignores_G w2 empty_graph).
    apply rel_query_tail. split; [exact Hts|reflexivity].
  - rewrite !is_eliminated_absent; [reflexivity|assumption|now rewrite Hts].
Qed.

(** X4.  A query returns the same verdict, or raises the same exception,
    whatever queries were made before it: neither the copy a query makes
    of the roster nor the network it leaves in [self.G] reaches the
    next one. *)
Theorem queries_independent (w : world) (same_a same_b : bool) (a b : Z)
    (solver_a solver_b : string) :
  fst (is_eliminated maximum_flow picos_solve same_b b solver_b
         (snd (is_eliminated maximum_flow picos_solve same_a a solver_a w))) =
  fst (is_eliminated maximum_flow picos_solve same_b b solver_b w).
Proof. apply is_eliminated_same_roster, is_eliminated_keeps_roster. Qed.

End QueryOrder.

Lemma get_against_unlisted_row (t : Team) (j : Z) :
  Z.of_nat (List.length (against t)) <= j ->
  get_against t (PyInt j) = Raise (ValueError no_team_msg).
Proof.
  intro H. unfold get_against. rewrite py_index_out_of_range; [reflexivity|now right].
Qed.

(** ** How Division.create_network fails *)

(** X5.  For a team id that is not a key, [create_network] returns an
    empty dictionary and the graph of the two terminals when the roster
    is empty; otherwise it raises [KeyError] for that id at the first
    team of the roster, leaving in [self.G] the two terminals and that
    team's node, without any edge. *)
Theorem create_network_unknown_team (w : world) (same_object : bool) (teamID : Z) :
  ~ In teamID (dict_keys (self_teams w)) ->
  (self_teams w = [] ->
   create_network same_object teamID w = (Ok [], with_G w base_graph)) /\
  (forall k t rest, self_teams w = (k, t) :: rest ->
   create_network same_object teamID w =
   (Raise (KeyError teamID), with_G w (add_node (NInt k) base_graph))).
Proof.
  intro Hnot. split.
  - intro Hts. rewrite create_network_returns.
    + rewrite Hts. reflexivity.
    + rewrite Hts. split; [intro H; now contradiction H|constructor].
  - intros k t rest Hts.
    assert (Hk : (k =? teamID) = false).
    { apply Z.eqb_neq. intros ->. apply Hnot. rewrite Hts. now left. }
    assert (Hget : dict_get Z.eqb (self_teams w) teamID = None).
    { destruct (dict_get Z.eqb (self_teams w) teamID) as [q|] eqn:E; [|reflexivity].
      exfalso. apply Hnot. apply (dict_get_In Z.eqb Z.eqb_eq) in E.
      change teamID with (fst (teamID, q)). now apply in_map. }
    assert (Hpost : post (create_network same_object teamID) w (fun _ _ => False)
              (fun e w' => e = KeyError teamID /\
                           w' = with_G w (add_node (NInt k) base_graph))).
    { unfold create_network.
      apply post_bind, post_set_G.
      apply post_bind, post_modify_G. rewrite with_G_with_G, G_with_G.
      apply post_bind, post_modify_G. rewrite with_G_with_G, G_with_G.
      apply post_bind, post_get_team_IDs. rewrite self_teams_with_G, Hts.
      apply post_bind. simpl for_each. apply post_bind.
      unfold py_is. rewrite Hk. cbn [andb negb].
      apply post_bind, post_modify_G. rewrite with_G_with_G, G_with_G.
      apply post_bind, post_teams_getitem. rewrite self_teams_with_G, Hget.
      now split. }
    unfold post in Hpost. destruct (create_network same_object teamID w) as [[se|e] w1].
    + destruct Hpost.
    + destruct Hpost as [-> ->]. reflexivity.
Qed.

Lemma create_network_unknown_team_witness :
  (self_teams level_roster = [] ->
   create_network true 7 level_roster = (Ok [], with_G level_roster base_graph)) /\
  (forall k t rest, self_teams level_roster = (k, t) :: rest ->
   create_network true 7 level_roster =
   (Raise (KeyError 7), with_G level_roster (add_node (NInt k) base_graph))).
Proof.
  apply (create_network_unknown_team level_roster true 7).
  simpl. intros [H|[H|[]]]; discriminate.
Defined.

(** The exceptions of the lookups in [create_network]: a [KeyError] for
    the query team or for a position that is not a key, or the
    [ValueError] of [get_against]. *)
Definition bad_lookup (ts : list (Z * Team)) (teamID : Z) (e : exn) : Prop :=
  (exists k, e = KeyError k /\ dict_get Z.eqb ts k = None /\
             (k = teamID \/ 0 <= k < team_count ts)) \/
  e = ValueError no_team_msg.

Lemma create_network_raises (w : world) (same_object : bool) (teamID : Z) :
  post (create_network same_object teamID) w (fun _ _ => True)
       (fun e _ => bad_lookup (self_teams w) teamID e).
Proof.
  set (ts := self_teams w).
  unfold create_network.
  apply post_bind, post_set_G.
  apply post_bind, post_modify_G.
  apply post_bind, post_modify_G.
  apply post_bind, post_get_team_IDs. rewrite !self_teams_with_G. fold ts.
  apply post_bind.
  eapply post_conseq;
    [apply (post_for_each (fun _ w' => self_teams w' = ts)
              (fun e _ => bad_lookup ts teamID e))| |auto].
  - reflexivity.
  - intros done x rest w1 Hl Hw1.
    assert (Hx : In x (dict_keys ts)) by (rewrite Hl; apply in_elt).
    destruct (negb (py_is same_object x teamID)); [|now apply post_ret].
    apply post_bind, post_modify_G.
    apply post_bind, post_teams_getitem. rewrite self_teams_with_G, Hw1.
    destruct (dict_get Z.eqb ts teamID) as [q|] eqn:Eq.
    + apply post_bind, post_teams_getitem. rewrite self_teams_with_G, Hw1, Eq.
      apply post_bind, post_teams_getitem. rewrite self_teams_with_G, Hw1.
      destruct (dict_get_key Z.eqb Z.eqb_eq ts x Hx) as [t Et]. rewrite Et.
      apply post_modify_G. exact Hw1.
    + left. exists teamID. auto.
  - intros u w1 Hw1. unfold post.
    rewrite (for_acc_nested _ _ (matchup_body teamID (dict_keys ts))).
    eapply post_conseq;
      [apply (post_for_acc (fun _ _ w' => self_teams w' = ts)
                (fun e _ => bad_lookup ts teamID e))| |auto].
    + exact Hw1.
    + intros done p rest se w2 Hl Hw2.
      assert (Hp : In p (index_pairs ts))
        by (unfold index_pairs, team_count; rewrite Hl; apply in_elt).
      apply index_pairs_In in Hp. unfold team_count in Hp.
      unfold matchup_body.
      destruct ((fst p =? teamID) || (snd p =? teamID)); [now apply post_ret|].
      destruct (py_index_Some (dict_keys ts) (fst p)) as [ti Eti]; [lia|].
      destruct (py_index_Some (dict_keys ts) (snd p)) as [tj Etj]; [lia|].
      apply post_bind, post_list_getitem. rewrite Eti.
      apply post_bind, post_list_getitem. rewrite Etj.
      apply post_bind, post_teams_getitem. rewrite Hw2.
      destruct (dict_get Z.eqb ts (fst p)) as [t|] eqn:Et.
      * destruct (get_against t (PyInt (snd p))) as [v|e] eqn:Ev;
          apply post_bind, post_lift; cbv beta iota.
        -- do 4 apply post_bind, post_modify_G.
           apply post_ret. exact Hw2.
        -- right. unfold get_against in Ev.
           destruct (py_index (against t) (snd p)); [discriminate|].
           now injection Ev as <-.
      * left. exists (fst p). repeat split; try assumption.
        right. unfold team_count. lia.
    + auto.
Qed.

Lemma contiguous_key_found ts (k : Z) :
  dict_keys ts = map Z.of_nat (seq 0 (List.length ts)) ->
  0 <= k < team_count ts -> dict_get Z.eqb ts k <> None.
Proof.
  intros Hkeys Hk Hnone.
  apply (dict_get_None Z.eqb Z.eqb_eq) in Hnone. apply Hnone.
  rewrite (keys_py_range ts Hkeys). now apply py_range_In.
Qed.

Lemma create_network_raises_loaded (w w' : world) (same_object : bool) (teamID : Z) (e : exn) :
  dict_keys (self_teams w) = map Z.of_nat (seq 0 (List.length (self_teams w))) ->
  In teamID (dict_keys (self_teams w)) ->
  create_network same_object teamID w = (Raise e, w') -> e = ValueError no_team_msg.
Proof.
  intros Hkeys Hteam Hrun. pose proof (create_network_raises w same_object teamID) as H.
  unfold post in H. rewrite Hrun in H.
  destruct H as [(k & -> & Hnone & Hk)|H]; [|assumption].
  exfalso. destruct Hk as [->|Hk].
  - destruct (dict_get_key Z.eqb Z.eqb_eq _ _ Hteam) as [q Hq]. congruence.
  - now apply (contiguous_key_found _ k Hkeys Hk).
Qed.

(** X6.  On a roster with keys [0 .. n-1], as [readDivision] builds it,
    and for a team of the roster, the only exception [create_network]
    raises is the [ValueError] of [get_against]: no [KeyError], no
    [IndexError].  It does raise it when the row of a team [i] has no
    count for a later team [j], both other than the query team. *)
Theorem create_network_loaded_errors (w : world) (same_object : bool) (teamID : Z) :
  dict_keys (self_teams w) = map Z.of_nat (seq 0 (List.length (self_teams w))) ->
  In teamID (dict_keys (self_teams w)) ->
  (forall e w', create_network same_object teamID w = (Raise e, w') ->
     e = ValueError no_team_msg) /\
  (forall i j t,
     0 <= i < j -> j < team_count (self_teams w) -> i <> teamID -> j <> teamID ->
     dict_get Z.eqb (self_teams w) i = Some t ->
     Z.of_nat (List.length (against t)) <= j ->
     exists w', create_network same_object teamID w = (Raise (ValueError no_team_msg), w')).
Proof.
  intros Hkeys Hteam.
  assert (Hkind : forall e w', create_network same_object teamID w = (Raise e, w') ->
            e = ValueError no_team_msg).
  { intros e w' Hrun. now apply (create_network_raises_loaded w w' same_object teamID). }
  split; [exact Hkind|].
  intros i j t Hij Hj Hi Hjt Ht Hshort.
  pose proof (create_network_post w same_object teamID) as H. unfold post in H.
  destruct (create_network same_object teamID w) as [[se|e] w'] eqn:Hrun.
  - exfalso. destruct H as (_ & _ & _ & Hall). rewrite Forall_forall in Hall.
    assert (Hp : In (i, j) (matchups (self_teams w) teamID)).
    { apply matchups_In. simpl. repeat split; try assumption; lia. }
    destruct (Hall _ Hp) as (t' & v & Ht' & Hv). cbn [fst snd] in Ht', Hv.
    assert (t' = t) by congruence. subst t'.
    rewrite get_against_unlisted_row in Hv by assumption. discriminate.
  - exists w'. now rewrite (Hkind e w' eq_refl).
Qed.

(** Team 1's row is one count short. *)
Definition short_row_roster : world :=
  world_of [(0, mkTeam 0 "A"%string 1 0 2 [0; 1; 1]);
            (1, mkTeam 1 "B"%string 1 0 2 [1; 0]);
            (2, mkTeam 2 "C"%string 1 0 2 [1; 1; 0])].

Lemma create_network_loaded_errors_witness :
  (forall e w', create_network true 0 short_row_roster = (Raise e, w') ->
     e = ValueError no_team_msg) /\
  (forall i j t,
     0 <= i < j -> j < team_count (self_teams short_row_roster) -> i <> 0 -> j <> 0 ->
     dict_get Z.eqb (self_teams short_row_roster) i = Some t ->
     Z.of_nat (List.length (against t)) <= j ->
     exists w', create_network true 0 short_row_roster = (Raise (ValueError no_team_msg), w')).
Proof.
  apply (create_network_loaded_errors short_row_roster true 0).
  - reflexivity.
  - simpl. now left.
Defined.

(** ** The edges from the teams to the sink *)











(** ** Which integer object the caller passes *)






(** Above 256 it does make a difference.  Team 300, alone in its
    division: passed as the key object it stays out of the network;
    passed as another integer object of value 300 it gets a node and an
    edge to [Sink] with its two remaining games as capacity. *)
Lemma distinct_object_own_edge :
  let w := world_of [(300, mkTeam 300 "A"%string 1 0 2 [])] in
  G (self (snd (create_network true 300 w))) = mkDiGraph [Source; Sink] [] /\
  G (self (snd (create_network false 300 w))) =
    mkDiGraph [Source; Sink; NInt 300] [((NInt 300, Sink), 2)].
Proof. split; vm_compute; reflexivity. Qed.

(** ** What Division.readDivision stores *)

Section ReadContent.

Variable read_lines : string -> result (list (list string)).
Variable py_int : string -> result Z.

(** The team a row of tokens is read as. *)
Definition row_team (ID0 : Z) (teaminfo : list string) (team : Team) : Prop :=
  exists t0 t1 t2 t3 a,
    nth_error teaminfo 0 = Some t0 /\ nth_error teaminfo 1 = Some t1 /\
    nth_error teaminfo 2 = Some t2 /\ nth_error teaminfo 3 = Some t3 /\
    Forall2 (fun s v => py_int s = Ok v) (skipn 4 teaminfo) a /\
    exists wn l rm,
      py_int t1 = Ok wn /\ py_int t2 = Ok l /\ py_int t3 = Ok rm /\
      team = mkTeam ID0 t0 wn l rm a.

Definition rows_stored (r : nat) (done : list (Z * list string)) (w : world) : Prop :=
  teams (self w) = r /\ (r < List.length (heap w))%nat /\
  Forall2 (fun row kt => fst kt = fst row /\ row_team (fst row) (snd row) (snd kt))
          done (self_teams w).

Lemma map_M_lift_post {A B : Type} (f : A -> result B) (l : list A) w
    (Q : list B -> world -> Prop) (E : exn -> world -> Prop) :
  (forall ys, Forall2 (fun s y => f s = Ok y) l ys -> Q ys w) ->
  (forall e, E e w) ->
  post (map_M (fun s => lift (f s)) l) w Q E.
Proof.
  revert Q. induction l as [|x l IH]; intros Q HQ HE; simpl.
  - apply post_ret, HQ. constructor.
  - apply post_bind, post_lift. destruct (f x) as [y|e] eqn:Ex; [|apply HE].
    apply post_bind. apply IH; [|assumption].
    intros ys Hys. apply post_ret, HQ. now constructor.
Qed.

Lemma rows_stored_keys r done w :
  rows_stored r done w -> dict_keys (self_teams w) = map fst done.
Proof.
  intros (_ & _ & H). unfold dict_keys.
  induction H as [|row kt done ts [Hk _] _ IH]; simpl; [reflexivity|].
  now rewrite Hk, IH.
Qed.

Lemma readDivision_row_content r done ID0 teaminfo rest rows w :
  rows = done ++ (ID0, teaminfo) :: rest ->
  NoDup (map fst rows) ->
  rows_stored r done w ->
  post (t0 <- list_getitem teaminfo 0 ;;
        t1 <- list_getitem teaminfo 1 ;;
        wn <- lift (py_int t1) ;;
        t2 <- list_getitem teaminfo 2 ;;
        l <- lift (py_int t2) ;;
        t3 <- list_getitem teaminfo 3 ;;
        rm <- lift (py_int t3) ;;
        a <- map_M (fun s => lift (py_int s)) (skipn 4 teaminfo) ;;
        let team := mkTeam ID0 t0 wn l rm a in
        ts <- get_teams_ref ;;
        dict_setitem ts ID0 team)%py
       w
       (fun _ w' => rows_stored r (done ++ [(ID0, teaminfo)]) w')
       (fun _ _ => True).
Proof.
  intros Hrows Hnd Hinv.
  pose proof (rows_stored_keys _ _ _ Hinv) as Hkeys.
  destruct Hinv as (Hr & Hlt & Hall).
  apply post_bind, post_list_getitem.
  destruct (py_index teaminfo 0) as [t0|] eqn:E0; [|exact I].
  apply post_bind, post_list_getitem.
  destruct (py_index teaminfo 1) as [t1|] eqn:E1; [|exact I].
  apply post_bind, post_lift. destruct (py_int t1) as [wn|] eqn:Ew; [|exact I].
  apply post_bind, post_list_getitem.
  destruct (py_index teaminfo 2) as [t2|] eqn:E2; [|exact I].
  apply post_bind, post_lift. destruct (py_int t2) as [l|] eqn:El; [|exact I].
  apply post_bind, post_list_getitem.
  destruct (py_index teaminfo 3) as [t3|] eqn:E3; [|exact I].
  apply post_bind, post_lift. destruct (py_int t3) as [rm|] eqn:Erm; [|exact I].
  apply post_bind, map_M_lift_post; [|intro; exact I].
  intros a Ha. apply post_bind, post_get_teams_ref. apply post_dict_setitem.
  rewrite Hr.
  assert (Hself : deref r w = self_teams w) by (unfold self_teams; now rewrite Hr).
  rewrite Hself.
  assert (Hfresh : ~ In ID0 (dict_keys (self_teams w))).
  { rewrite Hkeys. rewrite Hrows, map_app in Hnd. simpl in Hnd.
    now apply NoDup_app_notin in Hnd. }
  rewrite (dict_set_fresh Z.eqb Z.eqb_eq) by assumption.
  unfold rows_stored, self_teams, deref. simpl.
  rewrite length_list_update, Hr, nth_list_update_same by assumption.
  repeat split; try assumption.
  apply Forall2_app.
  - unfold self_teams, deref in Hall. now rewrite Hr in Hall.
  - constructor; [|constructor]. simpl. split; [reflexivity|].
    rewrite py_index_nonneg in E0, E1, E2, E3 by lia.
    exists t0, t1, t2, t3, a. repeat split; try assumption.
    exists wn, l, rm. now repeat split.
Qed.

Lemma Division_init_stored (filename : string) (lines : list (list string))
    (w w' : world) :
  read_lines filename = Ok lines ->
  Division_init read_lines py_int filename w = (Ok tt, w') ->
  rows_stored (List.length (heap w)) (enumerate (tl lines)) w'.
Proof.
  intros Hread Hinit. unfold Division_init in Hinit.
  set (w1 := mkWorld (heap w ++ [[]]) (mkDivision (List.length (heap w)) empty_graph)).
  assert (Hrun : readDivision read_lines py_int filename w1 = (Ok tt, w'))
    by exact Hinit.
  assert (Hpost : post (readDivision read_lines py_int filename) w1
            (fun _ w' => rows_stored (List.length (heap w)) (enumerate (tl lines)) w')
            (fun _ _ => True)).
  { unfold readDivision. apply post_bind, post_lift. rewrite Hread.
    apply (post_for_each (fun done w' => rows_stored (List.length (heap w)) done w')).
    - repeat split.
      + simpl. rewrite length_app. simpl. lia.
      + unfold self_teams, deref. simpl. rewrite nth_middle. constructor.
    - intros done [ID0 teaminfo] rest w2 Hl Hinv.
      apply (readDivision_row_content (List.length (heap w)) done ID0 teaminfo rest
               (enumerate (tl lines))); try assumption.
      rewrite map_fst_enumerate. apply NoDup_of_nat_seq. }
  exact (post_run _ _ _ _ _ _ Hpost Hrun).
Qed.

Lemma nth_error_enumerate {A : Type} (l : list A) (k : nat) (x : A) :
  nth_error l k = Some x -> nth_error (enumerate l) k = Some (Z.of_nat k, x).
Proof.
  intro H. unfold enumerate.
  assert (Hk : (k < List.length l)%nat) by (apply nth_error_Some; congruence).
  assert (Hgen : forall (ks : list Z) (z : Z),
            nth_error ks k = Some z -> nth_error (combine ks l) k = Some (z, x)).
  { clear Hk. revert k H. induction l as [|a l IH]; intros [|k] H ks z Hz;
      try discriminate; destruct ks as [|z0 ks]; try discriminate; simpl in *.
    - congruence.
    - now apply IH. }
  apply Hgen. rewrite nth_error_map, nth_error_seq.
  destruct (Nat.ltb_spec k (List.length l)); [reflexivity|lia].
Qed.

Lemma Forall2_nth_error {A B : Type} (R : A -> B -> Prop) (l : list A) (l' : list B)
    (k : nat) (a : A) :
  Forall2 R l l' -> nth_error l k = Some a ->
  exists b, nth_error l' k = Some b /\ R a b.
Proof.
  intro H. revert k. induction H as [|x y l l' Hxy _ IH]; intros [|k] Hk;
    try discriminate; simpl in *.
  - injection Hk as <-. now exists y.
  - now apply IH.
Qed.

(** X9.  After [Division.__init__] has returned, the team under key [k]
    is the one row [k] of the file spells out: its name is the first
    token, its wins, losses and remaining games are [int] of the next
    three, and its [against] list is [int] of every token after them, in
    order. *)
Theorem readDivision_content (filename : string) (lines : list (list string))
    (w w' : world) (k : nat) (teaminfo : list string) :
  read_lines filename = Ok lines ->
  Division_init read_lines py_int filename w = (Ok tt, w') ->
  nth_error (tl lines) k = Some teaminfo ->
  exists team,
    dict_get Z.eqb (self_teams w') (Z.of_nat k) = Some team /\
    row_team (Z.of_nat k) teaminfo team.
Proof.
  intros Hread Hinit Hrow.
  pose proof (Division_init_stored filename lines w w' Hread Hinit) as Hst.
  pose proof (rows_stored_keys _ _ _ Hst) as Hkeys.
  destruct Hst as (_ & _ & Hall).
  destruct (Forall2_nth_error _ _ _ k _ Hall (nth_error_enumerate _ _ _ Hrow))
    as ([k' team] & Hnth & Hk & Hteam).
  simpl in Hk, Hteam. subst k'. exists team. split; [|assumption].
  apply (dict_get_NoDup Z.eqb Z.eqb_eq).
  - rewrite Hkeys, map_fst_enumerate. apply NoDup_of_nat_seq.
  - now apply nth_error_In in Hnth.
Qed.

End ReadContent.

Lemma readDivision_content_witness :
  exists team,
    dict_get Z.eqb
      (self_teams (snd (Division_init sample_file sample_int "teams2.txt" empty_world)))
      (Z.of_nat 1) = Some team /\
    row_team sample_int (Z.of_nat 1) ["B"; "3"; "0"; "1"; "1"; "0"]%string team.
Proof.
  apply (readDivision_content sample_file sample_int "teams2.txt"
           [["2"]; ["A"; "3"; "0"; "1"; "0"; "1"]; ["B"; "3"; "0"; "1"; "1"; "0"]]%string
           empty_world).
  - reflexivity.
  - vm_compute. reflexivity.
  - reflexivity.
Defined.

(** ** Division.linear_programming *)

(** X10.  On a graph that holds both terminals, in which nothing enters
    [Source] or leaves [Sink], and with an LP solver that keeps to its
    contract, [linear_programming] returns a boolean that is true
    exactly when the value of a maximum integral flow is strictly below
    the sum of the values of [saturated_edges]: rounding [F] makes up
    for the solver's error.  It leaves the world as it is. *)
Theorem linear_programming_verdict
    (picos_solve : Problem -> result (lpvar -> Q))
    (saturated_edges : list (string * Z)) (w : world) (v : Z) :
  In Source (nodes (G (self w))) -> In Sink (nodes (G (self w))) ->
  graph_ok (G (self w)) -> terminals_ok (G (self w)) ->
  integral_max_flow (G (self w)) v ->
  lp_solver_ok picos_solve (flow_problem (G (self w))) ->
  NoDup (dict_keys saturated_edges) ->
  exists verdict,
    linear_programming picos_solve saturated_edges w = (Ok verdict, w) /\
    (verdict = true <-> v < Zsum (dict_values saturated_edges)).
Proof.
  intros Hs Ht Hg Hterm Hmax (x & Fopt & Hlp & Hopt & Hnear) Hnd.
  exists (comparing_value saturated_edges >? v). split.
  - rewrite linear_programming_problem by assumption.
    unfold lift, bind, ret. rewrite Hlp.
    pose proof (lp_maximum_unique _ _ _ Hopt (max_flow_is_lp_maximum _ _ Hg Hterm Hmax)) as E.
    rewrite flow_problem_objective in Hnear. rewrite E in Hnear.
    now rewrite (py_round_near _ _ Hnear).
  - rewrite <- comparing_value_sum by assumption.
    rewrite Z.gtb_ltb. apply Z.ltb_lt.
Qed.

Lemma round_robin_network_ok :
  graph_ok round_robin_network /\ terminals_ok round_robin_network.
Proof.
  rewrite <- round_robin_network_of. split.
  - apply graph_ok_network.
  - intros e He. now apply (network_source_sink (self_teams round_robin) true 0).
Qed.

Lemma linear_programming_verdict_witness :
  exists verdict,
    linear_programming round_robin_picos_solve [("1_2"%string, 1)]
      (with_G round_robin round_robin_network)
    = (Ok verdict, with_G round_robin round_robin_network) /\
    (verdict = true <-> 1 < Zsum (dict_values [("1_2"%string, 1)])).
Proof.
  apply (linear_programming_verdict round_robin_picos_solve [("1_2"%string, 1)]
           (with_G round_robin round_robin_network) 1).
  - simpl. now left.
  - simpl. right. now left.
  - apply round_robin_network_ok.
  - apply round_robin_network_ok.
  - apply round_robin_max_flow.
  - eexists. exists (inject_Z 1). split; [reflexivity|]. split.
    + apply max_flow_is_lp_maximum; try apply round_robin_network_ok.
      apply round_robin_max_flow.
    + vm_compute. reflexivity.
  - repeat constructor. simpl. intuition.
Defined.

(** X15.  Called on a graph that lacks [Source] or [Sink], as [self.G] is
    before the first [create_network], [linear_programming] raises the
    [NetworkXError] of [successors] or [predecessors]; the solver is not
    reached and the world is left as it is. *)
Theorem linear_programming_missing_terminal
    (picos_solve : Problem -> result (lpvar -> Q))
    (saturated_edges : list (string * Z)) (w : world) :
  ~ In Source (nodes (G (self w))) \/ ~ In Sink (nodes (G (self w))) ->
  linear_programming picos_solve saturated_edges w = (Raise NetworkXError, w).
Proof.
  intro H. unfold linear_programming.
  erewrite bind_ok by reflexivity.
  erewrite bind_ok
    by (apply conservation_rows; intros x Hx; now apply filter_In in Hx).
  destruct (has_node (G (self w)) Source) eqn:Es.
  - apply has_node_In in Es. destruct H as [H|H]; [contradiction|].
    erewrite bind_ok by (now apply lift_successors).
    apply bind_raise. unfold lift, predecessors. now rewrite (has_node_not_In _ _ H).
  - apply bind_raise. unfold lift, successors. now rewrite Es.
Qed.

Lemma linear_programming_missing_terminal_witness :
  linear_programming round_robin_picos_solve [] round_robin =
  (Raise NetworkXError, round_robin).
Proof.
  apply (linear_programming_missing_terminal round_robin_picos_solve [] round_robin).
  left. simpl. intros [].
Defined.

(** ** The verdict of a query *)

(** X11.  The verdict in full.  Take a team of a valid roster for which
    every lookup of [create_network] succeeds, one of the two solver
    names, and solvers that answer correctly on the network of the query
    whenever its capacities are not negative.  Then [is_eliminated]
    returns true when some other team already has more wins than the
    team can reach; otherwise it returns whether the value of a maximum
    flow of the network falls short of the games left among the other
    teams. *)
Theorem is_eliminated_verdict
    (maximum_flow : DiGraph -> node -> node -> result Z)
    (picos_solve : Problem -> result (lpvar -> Q))
    (w : world) (same_object : bool) (teamID : Z) (solver : string) (team : Team)
    (items : list (Z * Team)) :
  let ts := self_teams w in
  let net := network_of ts same_object teamID in
  valid_roster ts ->
  dict_get Z.eqb ts teamID = Some team ->
  dict_del Z.eqb ts teamID = Some items ->
  lookups_ok ts teamID ->
  solver = "Network Flows"%string \/ solver = "Linear Programming"%string ->
  (nonneg_capacities net -> flow_solver_ok maximum_flow net) ->
  (nonneg_capacities net -> lp_solver_ok picos_solve (flow_problem net)) ->
  (out_of_reach team items = true ->
   fst (is_eliminated maximum_flow picos_solve same_object teamID solver w) = Ok true) /\
  (out_of_reach team items = false ->
   exists v, integral_max_flow net v /\
     fst (is_eliminated maximum_flow picos_solve same_object teamID solver w) =
     Ok (v <? Zsum (dict_values (saturated_of ts teamID)))).
Proof.
  intros ts net Hvalid Hget Hdel Hok Hsolver Hflow Hlp.
  destruct (is_eliminated_tail maximum_flow picos_solve w same_object teamID solver
              team items Hget Hdel) as [-> _].
  rewrite precheck_out_of_reach. simpl.
  unfold query_tail, bind. rewrite (create_network_returns w same_object teamID Hok).
  fold ts. fold net. split; intro Hout; rewrite Hout; simpl; [reflexivity|].
  pose proof (network_nonneg ts same_object teamID team items Hvalid Hget Hdel Hout)
    as Hnn.
  destruct (solvers_on_network maximum_flow picos_solve w same_object teamID
              (Hflow Hnn) (Hlp Hnn)) as (v & Hmax & Hnf & Hl).
  fold ts in Hnf, Hl. fold net in Hnf, Hl.
  exists v. split; [assumption|].
  destruct Hsolver as [-> | ->]; simpl.
  - now rewrite Hnf.
  - now rewrite Hl.
Qed.

Lemma is_eliminated_verdict_witness :
  let ts := self_teams round_robin in
  let net := network_of ts true 0 in
  let team := mkTeam 0 "A"%string 1 0 2 [0; 1; 1] in
  let items := [(1, mkTeam 1 "B"%string 1 0 2 [1; 0; 1]);
                (2, mkTeam 2 "C"%string 1 0 2 [1; 1; 0])] in
  (out_of_reach team items = true ->
   fst (is_eliminated round_robin_maximum_flow round_robin_picos_solve true 0
          "Linear Programming" round_robin) = Ok true) /\
  (out_of_reach team items = false ->
   exists v, integral_max_flow net v /\
     fst (is_eliminated round_robin_maximum_flow round_robin_picos_solve true 0
            "Linear Programming" round_robin) =
     Ok (v <? Zsum (dict_values (saturated_of ts 0)))).
Proof.
  apply (is_eliminated_verdict round_robin_maximum_flow round_robin_picos_solve
           round_robin true 0 "Linear Programming").
  - repeat constructor; discriminate.
  - reflexivity.
  - reflexivity.
  - apply lookups_ok_contiguous; [reflexivity|repeat constructor|simpl; now left].
  - now right.
  - intros _. exists 1. split; [reflexivity|].
    rewrite round_robin_network_of. apply round_robin_max_flow.
  - intros _. eexists. exists (inject_Z 1). split; [reflexivity|]. split.
    + rewrite round_robin_network_of.
      apply max_flow_is_lp_maximum; try apply round_robin_network_ok.
      apply round_robin_max_flow.
    + vm_compute. reflexivity.
Defined.

(** ** How a query fails on a loaded division *)

(** X12.  On a roster with keys [0 .. n-1] and for a team of the roster,
    a query raises only the [ValueError] of a row that is too short or
    an exception of the solver it was asked to use; in particular no
    [KeyError] and no [IndexError]. *)
Theorem is_eliminated_loaded_errors
    (maximum_flow : DiGraph -> node -> node -> result Z)
    (picos_solve : Problem -> result (lpvar -> Q))
    (w : world) (same_object : bool) (teamID : Z) (solver : string) (e : exn) :
  dict_keys (self_teams w) = map Z.of_nat (seq 0 (List.length (self_teams w))) ->
  In teamID (dict_keys (self_teams w)) ->
  fst (is_eliminated maximum_flow picos_solve same_object teamID solver w) = Raise e ->
  e = ValueError no_team_msg \/
  (solver = "Network Flows"%string /\ exists g, maximum_flow g Source Sink = Raise e) \/
  (solver = "Linear Programming"%string /\ exists P, picos_solve P = Raise e).
Proof.
  intros Hkeys Hteam Hrun.
  destruct (dict_get_key Z.eqb Z.eqb_eq _ _ Hteam) as [team Hget].
  destruct (dict_del_get Z.eqb _ _ _ Hget) as [items Hdel].
  destruct (is_eliminated_tail maximum_flow picos_solve w same_object teamID solver team items
              Hget Hdel) as [Hfst _].
  rewrite Hfst in Hrun. clear Hfst. unfold query_tail, bind in Hrun.
  destruct (create_network same_object teamID w) as [[se|e'] w'] eqn:Hnet.
  - destruct (negb (precheck team items false)); [|discriminate].
    destruct (String.eqb solver "Network Flows") eqn:Enf.
    + apply String.eqb_eq in Enf. right. left. split; [assumption|].
      unfold network_flows, get_G, lift, bind, ret in Hrun.
      destruct (maximum_flow (G (self w')) Source Sink) as [v|e0] eqn:Emf;
        [discriminate|].
      simpl in Hrun. injection Hrun as <-. now exists (G (self w')).
    + destruct (String.eqb solver "Linear Programming") eqn:Elp; [|discriminate].
      apply String.eqb_eq in Elp. right. right. split; [assumption|].
      destruct (create_network_ok _ _ _ _ _ Hnet) as (_ & Hw' & _).
      rewrite linear_programming_problem in Hrun
        by (rewrite Hw', G_with_G; apply network_terminals).
      unfold lift, bind, ret in Hrun.
      destruct (picos_solve (flow_problem (G (self w')))) as [x|e0] eqn:Es;
        [discriminate|].
      simpl in Hrun. injection Hrun as <-. now exists (flow_problem (G (self w'))).
  - simpl in Hrun. injection Hrun as <-. left.
    now apply (create_network_raises_loaded w w' same_object teamID).
Qed.

Lemma is_eliminated_loaded_errors_witness :
  SolverError "no LP solver" = ValueError no_team_msg \/
  ("Linear Programming"%string = "Network Flows"%string /\
   exists g, failing_maximum_flow g Source Sink = Raise (SolverError "no LP solver")) \/
  ("Linear Programming"%string = "Linear Programming"%string /\
   exists P, failing_picos_solve P = Raise (SolverError "no LP solver")).
Proof.
  apply (is_eliminated_loaded_errors failing_maximum_flow failing_picos_solve
           level_roster true 0 "Linear Programming").
  - reflexivity.
  - simpl. now left.
  - vm_compute. reflexivity.
Defined.

(** ** The script at the end of the file *)

Definition usage_msg : string :=
  "To run this code, please specify an input file name. Example: python badminton_elimination.py teams2.txt."%string.

(** [str(b)] for a boolean, as an f-string prints it. *)
Definition py_bool_str (b : bool) : string :=
  if b then "True"%string else "False"%string.

Section Main.

Variable read_lines : string -> result (list (list string)).
Variable py_int : string -> result Z.
Variable maximum_flow : DiGraph -> node -> node -> result Z.
Variable picos_solve : Problem -> result (lpvar -> Q).

(** The loop [for (ID, team) in division.teams.items()], with the lines
    printed so far: an exception ends the script and leaves what was
    printed before it.  The items are those the roster has when the loop
    starts; the queries do not change the roster
    ([is_eliminated_keeps_roster]), so the view the loop iterates over
    stays the same.  The argument [team.ID] is the key object itself:
    [readDivision] stores [int(ID)], which for an integer is [ID], both
    as the key and in the team. *)
Fixpoint main_loop (items : list (Z * Team)) (out : list string) (w : world)
    : (list string * result unit) * world :=
  match items with
  | [] => ((out, Ok tt), w)
  | (_, team) :: items' =>
      match is_eliminated maximum_flow picos_solve true (ID team) "Linear Programming" w with
      | (Ok verdict, w') =>
          main_loop items'
            (out ++ [(name team ++ ": Eliminated? " ++ py_bool_str verdict)%string]) w'
      | (Raise e, w') => ((out, Raise e), w')
      end
  end.

(** The block under [if __name__ == '__main__'], given [sys.argv]. *)
Definition main (argv : list string) (w : world) : (list string * result unit) * world :=
  if Z.of_nat (List.length argv) >? 1 then
    match list_getitem argv 1 w with
    | (Ok filename, w0) =>
        match Division_init read_lines py_int filename w0 with
        | (Ok _, division) => main_loop (self_teams division) [] division
        | (Raise e, w1) => (([], Raise e), w1)
        end
    | (Raise e, w0) => (([], Raise e), w0)
    end
  else (([usage_msg], Ok tt), w).

(** The line the script prints for a team, the query being made on the
    division as loaded. *)
Definition printed_for (division : world) (kt : Z * Team) (line : string) : Prop :=
  exists verdict,
    fst (is_eliminated maximum_flow picos_solve true (ID (snd kt)) "Linear Programming" division)
      = Ok verdict /\
    line = (name (snd kt) ++ ": Eliminated? " ++ py_bool_str verdict)%string.

Lemma main_loop_spec (division : world) (items : list (Z * Team)) :
  forall (out : list string) (w : world) out' r w',
    self_teams w = self_teams division ->
    main_loop items out w = ((out', r), w') ->
    exists new,
      out' = out ++ new /\
      Forall2 (printed_for division) (firstn (List.length new) items) new /\
      (r = Ok tt -> List.length new = List.length items) /\
      (forall e, r = Raise e ->
         exists kt, nth_error items (List.length new) = Some kt /\
           fst (is_eliminated maximum_flow picos_solve true (ID (snd kt))
                  "Linear Programming" division) = Raise e) /\
      self_teams w' = self_teams division.
Proof.
  induction items as [|[k team] items IH]; intros out w out' r w' Hts Hrun; simpl in Hrun.
  - injection Hrun as <- <- <-. exists []. rewrite app_nil_r.
    repeat split; try assumption; try constructor. intros e He. discriminate.
  - pose proof (is_eliminated_same_roster maximum_flow picos_solve w division
                  true (ID team) "Linear Programming" Hts) as Hsame.
    pose proof (is_eliminated_keeps_roster maximum_flow picos_solve w
                  true (ID team) "Linear Programming") as Hkeep.
    destruct (is_eliminated maximum_flow picos_solve true (ID team) "Linear Programming" w)
      as [[verdict|e] w1]; simpl in Hsame, Hkeep.
    + destruct (IH _ _ _ _ _ (eq_trans Hkeep Hts) Hrun) as (new & -> & Hall & Hok & Herr & Hw').
      exists ((name team ++ ": Eliminated? " ++ py_bool_str verdict)%string :: new).
      rewrite <- app_assoc. simpl. repeat split; try assumption.
      * constructor; [|assumption]. exists verdict. now split.
      * intro Hr. now rewrite (Hok Hr).
    + injection Hrun as <- <- <-. exists []. rewrite app_nil_r.
      repeat split; try constructor; try discriminate.
      * intros e0 [= <-]. exists (k, team). split; [reflexivity|]. now symmetry.
      * now rewrite Hkeep.
Qed.

(** X13.  Run on a file that loads, the script prints one line per team
    in row order, each made of the team's name and of the verdict its
    query would give on the division as loaded, whatever queries came
    before.  It stops at the first team whose query raises, with that
    exception and with the lines of the teams before it; and it never
    changes the roster. *)
Theorem main_output (prog filename : string) (more : list string)
    (w division w' : world) (out : list string) (r : result unit) :
  Division_init read_lines py_int filename w = (Ok tt, division) ->
  main (prog :: filename :: more) w = ((out, r), w') ->
  Forall2 (printed_for division) (firstn (List.length out) (self_teams division)) out /\
  (r = Ok tt -> List.length out = List.length (self_teams division)) /\
  (forall e, r = Raise e ->
     exists kt, nth_error (self_teams division) (List.length out) = Some kt /\
       fst (is_eliminated maximum_flow picos_solve true (ID (snd kt))
              "Linear Programming" division) = Raise e) /\
  self_teams w' = self_teams division.
Proof.
  intros Hinit Hrun. unfold main in Hrun.
  replace (Z.of_nat (List.length (prog :: filename :: more)) >? 1) with true in Hrun
    by (symmetry; apply Z.gtb_lt; simpl List.length; lia).
  unfold list_getitem, py_index in Hrun. simpl in Hrun.
  unfold ret in Hrun. rewrite Hinit in Hrun.
  destruct (main_loop_spec division (self_teams division) [] division out r w'
              eq_refl Hrun) as (new & -> & H).
  exact H.
Qed.

(** Without an argument the script prints how to call it and does
    nothing else. *)
Lemma main_usage (prog : string) (w : world) :
  main [prog] w = (([usage_msg], Ok tt), w).
Proof. reflexivity. Qed.

End Main.

Lemma main_output_witness :
  let division := snd (Division_init sample_file sample_int "teams2.txt" empty_world) in
  let run := main sample_file sample_int failing_maximum_flow
               (fun _ => Ok (fun _ => 0%Q))
               ["badminton_elimination.py"; "teams2.txt"]%string empty_world in
  Forall2 (printed_for failing_maximum_flow (fun _ => Ok (fun _ => 0%Q)) division)
          (firstn (List.length (fst (fst run))) (self_teams division)) (fst (fst run)) /\
  (snd (fst run) = Ok tt ->
   List.length (fst (fst run)) = List.length (self_teams division)) /\
  (forall e, snd (fst run) = Raise e ->
     exists kt, nth_error (self_teams division) (List.length (fst (fst run))) = Some kt /\
       fst (is_eliminated failing_maximum_flow (fun _ => Ok (fun _ => 0%Q))
              true (ID (snd kt)) "Linear Programming" division) = Raise e) /\
  self_teams (snd run) = self_teams division.
Proof.
  apply (main_output sample_file sample_int failing_maximum_flow
           (fun _ => Ok (fun _ => 0%Q))
           "badminton_elimination.py" "teams2.txt" [] empty_world).
  - vm_compute. reflexivity.
  - vm_compute. reflexivity.
Defined.

(** The two lines the script prints for the sample file. *)
Lemma main_sample_run :
  fst (main sample_file sample_int failing_maximum_flow
         (fun _ => Ok (fun _ => 0%Q))
         ["badminton_elimination.py"; "teams2.txt"]%string empty_world) =
  (["A: Eliminated? False"; "B: Eliminated? False"]%string, Ok tt).
Proof. vm_compute. reflexivity. Qed.

(** ** A solver that fails *)

(** X14.  When the trivial check has not fired and the network is built,
    an exception of the solver the query was asked to use is the
    outcome of the query: it is not caught and no verdict is returned
    in its place. *)
Theorem solver_failure_surfaces
    (maximum_flow : DiGraph -> node -> node -> result Z)
    (picos_solve : Problem -> result (lpvar -> Q))
    (w w' : world) (same_object : bool) (teamID : Z) (team : Team) (items : list (Z * Team))
    (se : list (string * Z)) (e : exn) :
  dict_get Z.eqb (self_teams w) teamID = Some team ->
  dict_del Z.eqb (self_teams w) teamID = Some items ->
  out_of_reach team items = false ->
  create_network same_object teamID w = (Ok se, w') ->
  (maximum_flow (G (self w')) Source Sink = Raise e ->
   fst (is_eliminated maximum_flow picos_solve same_object teamID "Network Flows" w) = Raise e) /\
  (picos_solve (flow_problem (G (self w'))) = Raise e ->
   fst (is_eliminated maximum_flow picos_solve same_object teamID "Linear Programming" w)
     = Raise e).
Proof.
  intros Hget Hdel Hout Hnet. split; intro Hfail.
  - destruct (is_eliminated_tail maximum_flow picos_solve w same_object teamID "Network Flows"
                team items Hget Hdel) as [-> _].
    rewrite precheck_out_of_reach, Hout. simpl.
    unfold query_tail, bind. rewrite Hnet. simpl.
    unfold network_flows, get_G, lift, bind. now rewrite Hfail.
  - destruct (is_eliminated_tail maximum_flow picos_solve w same_object teamID "Linear Programming"
                team items Hget Hdel) as [-> _].
    rewrite precheck_out_of_reach, Hout. simpl.
    unfold query_tail, bind. rewrite Hnet. simpl.
    destruct (create_network_ok _ _ _ _ _ Hnet) as (_ & Hw' & _).
    rewrite linear_programming_problem
      by (rewrite Hw', G_with_G; apply network_terminals).
    unfold lift, bind. now rewrite Hfail.
Qed.

Lemma solver_failure_surfaces_witness :
  (failing_maximum_flow
     (G (self (with_G level_roster
                 (mkDiGraph [Source; Sink; NInt 1] [((NInt 1, Sink), 1)]))))
     Source Sink = Raise (SolverError "no LP solver") ->
   fst (is_eliminated failing_maximum_flow failing_picos_solve true 0 "Network Flows"
          level_roster) = Raise (SolverError "no LP solver")) /\
  (failing_picos_solve
     (flow_problem
        (G (self (with_G level_roster
                    (mkDiGraph [Source; Sink; NInt 1] [((NInt 1, Sink), 1)])))))
   = Raise (SolverError "no LP solver") ->
   fst (is_eliminated failing_maximum_flow failing_picos_solve true 0 "Linear Programming"
          level_roster) = Raise (SolverError "no LP solver")).
Proof.
  apply (solver_failure_surfaces failing_maximum_flow failing_picos_solve
           level_roster
           (with_G level_roster (mkDiGraph [Source; Sink; NInt 1] [((NInt 1, Sink), 1)]))
           true 0 level_A [(1, level_B)] []).
  - reflexivity.
  - reflexivity.
  - reflexivity.
  - vm_compute. reflexivity.
Defined.
